(** * pdi-carsim: geometry, car model, pursuit controller and path generator

    A shallow embedding of [geometry/geometry.go] and of the simulation
    program (car model, controller, random path) over IEEE-754 binary64
    numbers, followed by the properties of the specification that were
    checked against it.

    Go's [float64] is Rocq's primitive [float] (binary64, round to nearest
    even, no fused multiply-add).  [math.Sqrt] is the correctly rounded
    square root and is [PrimFloat.sqrt].  [math.Cos], [math.Sin], [math.Log]
    and [math.Atan2] belong to Go's library, not to this repository: they
    are the fields of the class [GoMath] and every definition that calls
    them is parameterised by an instance. *)

From Stdlib Require Import ZArith List Bool Floats Lia.
Import ListNotations.
Local Open Scope float_scope.

(** ** Go's [math] package *)

Class GoMath := {
  Cos : float -> float;
  Sin : float -> float;
  Log : float -> float;
  Atan2 : float -> float -> float
}.

(** [math.Max] and [math.Min], with the special cases of their pure Go
    definitions: an infinity of the right sign wins, then NaN, and the
    sign of a zero is respected. *)
Definition signbit (x : float) : bool :=
  match classify x with
  | NNormal | NSubn | NZero | NInf => true
  | _ => false
  end.

Definition Max (x y : float) : float :=
  if (x =? infinity) || (y =? infinity) then infinity
  else if is_nan x || is_nan y then nan
  else if (x =? 0) && (x =? y) then (if signbit x then y else x)
  else if y <? x then x else y.

Definition Min (x y : float) : float :=
  if (x =? neg_infinity) || (y =? neg_infinity) then neg_infinity
  else if is_nan x || is_nan y then nan
  else if (x =? 0) && (x =? y) then (if signbit x then x else y)
  else if x <? y then x else y.

(** ** Package [geometry]: vectors *)

Record Vector := mkVector { X : float; Y : float }.

Definition Null : Vector := mkVector 0 0.
Definition NullVector : Vector := Null.
(** The package variables [X] and [Y] (the unit vectors); the names [X] and
    [Y] are taken by the fields. *)
Definition UnitX : Vector := mkVector 1 0.
Definition UnitY : Vector := mkVector 0 1.

Definition Add (v a : Vector) : Vector := mkVector (X v + X a) (Y v + Y a).
Definition AddX (v a : Vector) : Vector := mkVector (X v + X a) (Y v).
Definition AddY (v a : Vector) : Vector := mkVector (X v) (Y v + Y a).
Definition Scale (v : Vector) (s : float) : Vector := mkVector (s * X v) (s * Y v).
Definition Len (v : Vector) : float := sqrt (X v * X v + Y v * Y v).

Definition Norm (v : Vector) : Vector :=
  let len := Len v in
  if negb (len =? 0) then Scale v (1 / len) else v.

Definition Dot (v a : Vector) : float := X v * X a + Y v * Y a.
Definition Det (v a : Vector) : float := X v * Y a - Y v * X a.

Definition AngleBetween `{GoMath} (v a : Vector) : float :=
  Atan2 (Det v a) (Dot v a).

Definition RotateAround `{GoMath} (v a : Vector) (angle : float) : Vector :=
  mkVector
    (((X v - X a) * Cos angle) + ((Y a - Y v) * Sin angle) + X a)
    (((Y a - Y v) * Cos angle) - ((X v - X a) * Sin angle) + Y a).

(** ** Package [geometry]: polygons *)

Definition Polygon := list Vector.

Definition NewPolygon (components : list Vector) : Polygon := components.

(** [p[i]] for an index the loops keep in range. *)
Definition at_ (p : Polygon) (i : nat) : Vector := nth i p Null.

(** [float64(len(p))]: exact, a slice is far shorter than 2^53. *)
Definition float_of_len (p : Polygon) : float :=
  SF2Prim (binary_normalize prec emax (Z.of_nat (length p)) 0 false).

Definition Center (p : Polygon) : Vector :=
  let len := float_of_len p in
  if len =? 0 then mkVector 0 0
  else Scale (fold_left Add p (mkVector 0 0)) (1 / len).

Definition Translate (p : Polygon) (v : Vector) : Polygon :=
  map (fun c => Add c v) p.

Definition PolygonRotateAround `{GoMath} (p : Polygon) (v : Vector) (angle : float)
  : Polygon :=
  map (fun c => RotateAround c v angle) p.

(** [connections[i] = x] on a slice of floats. *)
Fixpoint set_at (l : list float) (i : nat) (x : float) : list float :=
  match l, i with
  | [], _ => []
  | _ :: t, O => x :: t
  | h :: t, S i' => h :: set_at t i' x
  end.

Definition get_at (l : list float) (i : nat) : float := nth i l 0.

(** The first loop of [Interpolate]: [todo] iterations remain, [i] is the
    loop variable. *)
Fixpoint measure_loop (p : Polygon) (pointCount todo i : nat)
    (connections : list float) (length : float) : list float * float :=
  match todo with
  | O => (connections, length)
  | S todo' =>
      let distance :=
        Len (Add (at_ p ((i + 1) mod pointCount)) (Scale (at_ p i) (-1))) in
      let connections' := set_at connections (i + 1) (distance + get_at connections i) in
      measure_loop p pointCount todo' (i + 1) connections' (length + distance)
  end.

(** The second loop of [Interpolate]; [None] when it falls through. *)
Fixpoint search_loop (p : Polygon) (pointCount todo i : nat)
    (connections : list float) (length target : float) : option Vector :=
  match todo with
  | O => None
  | S todo' =>
      if target <? get_at connections i / length then
        let a := get_at connections (i - 1) / length in
        let b := get_at connections i / length in
        let k := (target - a) / (b - a) in
        Some (Add (at_ p (i - 1))
                  (Scale (Add (at_ p (i mod pointCount)) (Scale (at_ p (i - 1)) (-1))) k))
      else search_loop p pointCount todo' (i + 1) connections length target
  end.

Definition Interpolate (p : Polygon) (v : float) : Vector :=
  let pointCount := length p in
  let connections := repeat 0 (pointCount + 1) in
  let '(connections, length) := measure_loop p pointCount pointCount 0 connections 0 in
  let target := Min 1 (Max 0 v) in
  match search_loop p pointCount pointCount 1 connections length target with
  | Some t => t
  | None => Null
  end.

(** ** The car model *)

(** [CarModel]: [Tension] is the friction factor, [Sensitivity] the steering
    sensitivity. *)
Record CarModel := mkCar {
  Size : Vector;
  Position : Vector;
  Velocity : Vector;
  Acceleration : Vector;
  Bounds : Polygon;
  Mass : float;
  Rotation : float;
  Tension : float;
  Sensitivity : float
}.

Definition set_Position (car : CarModel) (v : Vector) : CarModel :=
  mkCar (Size car) v (Velocity car) (Acceleration car) (Bounds car)
        (Mass car) (Rotation car) (Tension car) (Sensitivity car).
Definition set_Velocity (car : CarModel) (v : Vector) : CarModel :=
  mkCar (Size car) (Position car) v (Acceleration car) (Bounds car)
        (Mass car) (Rotation car) (Tension car) (Sensitivity car).
Definition set_Acceleration (car : CarModel) (v : Vector) : CarModel :=
  mkCar (Size car) (Position car) (Velocity car) v (Bounds car)
        (Mass car) (Rotation car) (Tension car) (Sensitivity car).
Definition set_Rotation (car : CarModel) (r : float) : CarModel :=
  mkCar (Size car) (Position car) (Velocity car) (Acceleration car) (Bounds car)
        (Mass car) r (Tension car) (Sensitivity car).

(** A Go call either returns or panics. *)
Inductive outcome (A : Type) : Type :=
| Returns (a : A)
| Panics.
Arguments Returns {A} a.
Arguments Panics {A}.

Definition ApplyForce (car : CarModel) (f : Vector) : CarModel :=
  set_Acceleration car (Add (Acceleration car) (Scale f (1 / Mass car))).

Definition Accelerate (car : CarModel) (delta : float) : CarModel :=
  ApplyForce car (Scale UnitX delta).

(** [Break] (sic) never reads [delta]. *)
Definition Break (car : CarModel) (delta : float) : CarModel :=
  let car1 :=
    set_Acceleration car (Scale (Acceleration car) (Tension car / Sensitivity car)) in
  set_Velocity car1 (Scale (Velocity car1) (Tension car1)).

Definition Turn (car : CarModel) (delta : float) : CarModel :=
  set_Rotation car (Rotation car + delta * Sensitivity car).

Definition NewCar (mass x y width height : float) : CarModel :=
  let size := mkVector width height in
  mkCar size (mkVector x y) NullVector NullVector
        (NewPolygon [NullVector; AddX NullVector size; size; AddY NullVector size])
        mass 0 0x1.fff2e48e8a71ep-1 50.

(** Neither [NewCar] nor [ApplyForce] has a statement that can panic
    (floating-point division by zero does not): as Go calls they always
    return. *)
Definition call_NewCar (mass x y width height : float) : outcome CarModel :=
  Returns (NewCar mass x y width height).

Definition call_ApplyForce (car : CarModel) (f : Vector) : outcome CarModel :=
  Returns (ApplyForce car f).

Definition TurnCenter (car : CarModel) : Vector :=
  Center (Translate (Bounds car) (AddX Null (Scale (Size car) (-0x1.999999999999ap-3)))).

Definition Update `{GoMath} (car : CarModel) (delta : float) : CarModel :=
  let car1 := set_Acceleration car (Scale (Acceleration car) (Tension car)) in
  let car2 := set_Velocity car1 (Add (Velocity car1) (Scale (Acceleration car1) delta)) in
  set_Position car2
    (Add (Position car2) (RotateAround (Scale (Velocity car2) delta) Null (Rotation car2))).

(** [n] calls of [Update] with the same [delta] and nothing in between. *)
Fixpoint Updates `{GoMath} (n : nat) (car : CarModel) (delta : float) : CarModel :=
  match n with
  | O => car
  | S n' => Updates n' (Update car delta) delta
  end.

(** ** The controller *)

(** What a call of [Feed] does besides changing the car, in program order:
    the value it prints, the argument it passes to [math.Log], and the
    commands it gives the car. *)
Inductive event : Type :=
| EvPrintln (x : float)
| EvTurn (delta : float)
| EvLog (arg : float)
| EvAccelerate (delta : float)
| EvBreak (delta : float).

Definition Feed `{GoMath} (ctrl : CarModel) (delta : float) (p : Vector)
  : CarModel * list event :=
  let diffVector := Add p (Scale (Add (Position ctrl) (TurnCenter ctrl)) (-1)) in
  let diffAngle :=
    AngleBetween diffVector (RotateAround (Norm (Velocity ctrl)) Null (Rotation ctrl)) in
  let tr0 := [EvPrintln diffAngle] in
  let '(c1, tr1) :=
    if 0 <? diffAngle then (Turn ctrl delta, tr0 ++ [EvTurn delta])
    else if diffAngle <? 0 then (Turn ctrl (- delta), tr0 ++ [EvTurn (- delta)])
    else (ctrl, tr0) in
  let br := - Len diffVector + 100 in
  let of' := Log (Len diffVector - 30) / 10 in
  let tr2 := tr1 ++ [EvLog (Len diffVector - 30)] in
  let '(c3, tr3) :=
    if 0 <? of' then (Accelerate c1 0x1.999999999999ap-4, tr2 ++ [EvAccelerate 0x1.999999999999ap-4])
    else (c1, tr2) in
  if 0 <? br then (Break c3 br, tr3 ++ [EvBreak br]) else (c3, tr3).

(** The vector from the pivot to the target and its length, as [Feed]
    computes them. *)
Definition toTarget (ctrl : CarModel) (p : Vector) : Vector :=
  Add p (Scale (Add (Position ctrl) (TurnCenter ctrl)) (-1)).

Definition throttleSignal `{GoMath} (ctrl : CarModel) (p : Vector) : float :=
  Log (Len (toTarget ctrl p) - 30) / 10.

Definition brakeSignal (ctrl : CarModel) (p : Vector) : float :=
  - Len (toTarget ctrl p) + 100.

Definition is_log (e : event) : bool :=
  match e with EvLog _ => true | _ => false end.
Definition is_accelerate (e : event) : bool :=
  match e with EvAccelerate _ => true | _ => false end.
Definition is_break (e : event) : bool :=
  match e with EvBreak _ => true | _ => false end.
Definition is_pedal (e : event) : bool := is_accelerate e || is_break e.

(** ** The random path *)

(** Go's process-wide random source ([math/rand]): [Seed] gives the state
    after [rand.Seed], [Float64] a draw and the state after it. *)
Class RandSource := {
  rng : Type;
  Seed : Z -> rng;
  Float64 : rng -> float * rng
}.

(** The loop of [generateRandomPath]: the [X] draw precedes the [Y] draw. *)
Fixpoint fill_vertices `{RandSource} (todo : nat) (x y width height : float) (s : rng)
  : list Vector * rng :=
  match todo with
  | O => ([], s)
  | S todo' =>
      let '(rx, s1) := Float64 s in
      let '(ry, s2) := Float64 s1 in
      let '(rest, s3) := fill_vertices todo' x y width height s2 in
      (mkVector (rx * width + x) (ry * height + y) :: rest, s3)
  end.

(** [generateRandomPath c x y width height]; [now] is what
    [time.Now().Unix()] returns at the call.  [make] panics on a negative
    length. *)
Definition generateRandomPath `{RandSource} (now : Z) (c : Z) (x y width height : float)
  : outcome Polygon :=
  let s := Seed now in
  if (c <? 0)%Z then Panics
  else Returns (NewPolygon (fst (fill_vertices (Z.to_nat c) x y width height s))).

(** ** Instances to run the model on concrete inputs

    The theorems below hold for every [GoMath] and every [RandSource]; the
    two instances here only serve to evaluate the program at concrete
    inputs.  [seriesMath] computes the four functions from truncated power
    series (fair for arguments of moderate size) and follows Go's special
    cases for [Log]. *)

Fixpoint alt_series (n : nat) (k term sum x2 : float) : float :=
  match n with
  | O => sum
  | S n' =>
      let term' := - term * x2 / ((k + 1) * (k + 2)) in
      alt_series n' (k + 2) term' (sum + term') x2
  end.

Definition series_cos (x : float) : float := alt_series 14 0 1 1 (x * x).
Definition series_sin (x : float) : float := alt_series 14 1 x x (x * x).

Fixpoint odd_series (n : nat) (k pow sum s2 : float) (alternate : bool) : float :=
  match n with
  | O => sum
  | S n' =>
      let pow' := (if alternate then - pow else pow) * s2 in
      odd_series n' (k + 2) pow' (sum + pow' / (k + 2)) s2 alternate
  end.

Definition series_log (x : float) : float :=
  if is_nan x then nan
  else if x <? 0 then nan
  else if x =? 0 then neg_infinity
  else if x =? infinity then infinity
  else
    let r := sqrt (sqrt (sqrt x)) in
    let s := (r - 1) / (r + 1) in
    16 * odd_series 60 1 s s (s * s) false.

Definition series_atan (z : float) : float :=
  let h1 := z / (1 + sqrt (1 + z * z)) in
  let h2 := h1 / (1 + sqrt (1 + h1 * h1)) in
  4 * odd_series 30 1 h2 h2 (h2 * h2) true.

Definition series_atan2 (y x : float) : float :=
  if is_nan x || is_nan y then nan
  else if y =? 0 then
    (if (0 <? x) || ((x =? 0) && negb (signbit x)) then y
     else if signbit y then - (4 * series_atan 1) else 4 * series_atan 1)
  else if x =? 0 then (if 0 <? y then 2 * series_atan 1 else - (2 * series_atan 1))
  else if 0 <? x then series_atan (y / x)
  else if 0 <? y then series_atan (y / x) + 4 * series_atan 1
  else series_atan (y / x) - 4 * series_atan 1.

Definition seriesMath : GoMath :=
  {| Cos := series_cos; Sin := series_sin; Log := series_log; Atan2 := series_atan2 |}.

(** [tableRand]: a source that cycles through four draws of [0, 1), the
    largest binary64 number below 1 among them; the seed selects the
    starting point. *)
Definition table_draw (s : Z) : float :=
  match (s mod 4)%Z with
  | 0%Z => 0x1.fffffffffffffp-1
  | 1%Z => 0x1p-1
  | 2%Z => 0
  | _ => 0x1.8p-1
  end.

Definition tableRand : RandSource :=
  {| rng := Z; Seed := fun seed => seed; Float64 := fun s => (table_draw s, (s + 1)%Z) |}.

(** ** Vocabulary of the statements *)

(** Go's [==] on vectors: both coordinates compare equal as floats. *)
Definition veq (u v : Vector) : bool := (X u =? X v) && (Y u =? Y v).

Definition finite_vec (v : Vector) : bool := is_finite (X v) && is_finite (Y v).
Definition zero_vec (v : Vector) : bool := is_zero (X v) && is_zero (Y v).

(** The speed after [n] updates. *)
Definition speed `{GoMath} (car : CarModel) (delta : float) (n : nat) : float :=
  Len (Velocity (Updates n car delta)).

Definition speeds_non_increasing `{GoMath} (car : CarModel) (delta : float) : Prop :=
  forall n, (speed car delta (S n) <=? speed car delta n) = true.

Definition speeds_converge_to_zero `{GoMath} (car : CarModel) (delta : float) : Prop :=
  forall eps, (0 <? eps) = true ->
    exists N, forall n, (N <= n)%nat -> (speed car delta n <? eps) = true.

(** The length of edge [i] of the closed loop and the perimeter, as the
    first loop of [Interpolate] computes them. *)
Definition edge_length (p : Polygon) (i : nat) : float :=
  Len (Add (at_ p ((i + 1) mod length p)) (Scale (at_ p i) (-1))).

Definition perimeter (p : Polygon) : float :=
  snd (measure_loop p (length p) (length p) 0 (repeat 0 (length p + 1)) 0).

(** A vertex inside the half-open rectangle of the path generator. *)
Definition in_box (x y width height : float) (v : Vector) : bool :=
  (x <=? X v) && (X v <? x + width) && (y <=? Y v) && (Y v <? y + height).

(** The same rectangle with its right edge: [X] may reach [x + width]. *)
Definition in_box_or_right_edge (x y width height : float) (v : Vector) : bool :=
  (x <=? X v) && (X v <=? x + width) && (y <=? Y v) && (Y v <? y + height).

(** A source whose draws lie in [0, 1), as [rand.Float64] promises. *)
Definition unit_draws `{RandSource} : Prop :=
  forall s, (0 <=? fst (Float64 s)) = true /\ (fst (Float64 s) <? 1) = true.

Definition sf_finite (s : spec_float) : bool :=
  match s with S754_zero _ | S754_finite _ _ _ => true | _ => false end.

Definition sf_zero (s : spec_float) : bool :=
  match s with S754_zero _ => true | _ => false end.

Definition all_zero (l : list float) : Prop := Forall (fun x => is_zero x = true) l.

(** Not negative: a zero, a positive number, +Inf or NaN. *)
Definition sf_not_neg (f : spec_float) : bool :=
  match f with
  | S754_finite true _ _ | S754_infinity true => false
  | _ => true
  end.

Definition not_neg (x : float) : bool := sf_not_neg (Prim2SF x).

(** ** Vocabulary of the binary64 proofs *)

Local Open Scope Z_scope.

(** A shift record [(m, r, s)] locates the rational [N / D]: [m] is its
    integer part and the two bits tell where it stands in [m, m+1). *)
Definition locates (mrs : shr_record) (N D : Z) : Prop :=
  0 <= shr_m mrs /\ 0 < D /\
  shr_m mrs * D <= N < (shr_m mrs + 1) * D /\
  match shr_r mrs, shr_s mrs with
  | false, false => N = shr_m mrs * D
  | false, true => shr_m mrs * D < N /\ 2 * N < (2 * shr_m mrs + 1) * D
  | true, false => 2 * N = (2 * shr_m mrs + 1) * D
  | true, true => (2 * shr_m mrs + 1) * D < 2 * N
  end.

(** The second stage of [binary_round_aux]. *)
Definition finish (sx : bool) (m1 e1 : Z) : spec_float :=
  let '(mrs, e2) := shr_fexp prec emax m1 e1 loc_Exact in
  match shr_m mrs with
  | Z0 => S754_zero sx
  | Zpos m => if e2 <=? emax - prec then S754_finite sx m e2 else S754_infinity sx
  | Zneg _ => S754_nan
  end.

(** The value of the mantissa [m] at exponent [e], in units of 2^-2200:
    an integer for every exponent a binary64 operation meets. *)
Definition mval (m e : Z) : Z := m * 2 ^ (e + 2200).

Definition zval (f : spec_float) : Z :=
  match f with
  | S754_finite s m e => cond_Zopp s (mval (Zpos m) e)
  | _ => 0
  end.

(** The value of a finite float, in the same units; 0 for the others. *)
Definition fval (x : float) : Z := zval (Prim2SF x).

Local Close Scope Z_scope.

(** ** Go's run-time checks

    The definitions above index slices with [nth] and a default.  The
    checked versions below follow Go: a slice index outside [0, len) and an
    integer remainder by zero panic.  Indices are Go [int]s, here [Z]. *)

Definition bind {A B : Type} (o : outcome A) (f : A -> outcome B) : outcome B :=
  match o with
  | Returns a => f a
  | Panics => Panics
  end.

Notation "x <- e ;; k" := (bind e (fun x => k))
  (at level 61, e at next level, right associativity).

(** [l[i]] *)
Definition index {A : Type} (l : list A) (i : Z) : outcome A :=
  if (i <? 0)%Z then Panics
  else match nth_error l (Z.to_nat i) with
       | Some a => Returns a
       | None => Panics
       end.

(** [l[i] = x] *)
Definition store (l : list float) (i : Z) (x : float) : outcome (list float) :=
  if ((0 <=? i) && (i <? Z.of_nat (length l)))%Z
  then Returns (set_at l (Z.to_nat i) x)
  else Panics.

(** [a % b] on [int]: the remainder of the truncated division. *)
Definition remainder (a b : Z) : outcome Z :=
  if (b =? 0)%Z then Panics else Returns (Z.rem a b).

(** The first loop of [Interpolate] with its checks. *)
Fixpoint measure_loop_checked (p : Polygon) (pointCount : Z) (todo : nat) (i : Z)
    (connections : list float) (length : float) : outcome (list float * float) :=
  match todo with
  | O => Returns (connections, length)
  | S todo' =>
      j <- remainder (i + 1) pointCount ;;
      pj <- index p j ;;
      pi <- index p i ;;
      let distance := Len (Add pj (Scale pi (-1))) in
      ci <- index connections i ;;
      connections' <- store connections (i + 1) (distance + ci) ;;
      measure_loop_checked p pointCount todo' (i + 1)%Z connections' (length + distance)
  end.

(** The second loop of [Interpolate] with its checks; [Returns None] when
    it falls through. *)
Fixpoint search_loop_checked (p : Polygon) (pointCount : Z) (todo : nat) (i : Z)
    (connections : list float) (length target : float) : outcome (option Vector) :=
  match todo with
  | O => Returns None
  | S todo' =>
      ci <- index connections i ;;
      if target <? ci / length then
        ca <- index connections (i - 1) ;;
        cb <- index connections i ;;
        let a := ca / length in
        let b := cb / length in
        let k := (target - a) / (b - a) in
        p0 <- index p (i - 1) ;;
        j <- remainder i pointCount ;;
        p1 <- index p j ;;
        p0' <- index p (i - 1) ;;
        Returns (Some (Add p0 (Scale (Add p1 (Scale p0' (-1))) k)))
      else search_loop_checked p pointCount todo' (i + 1)%Z connections length target
  end.

(** [p.Interpolate(v)] as a Go call. *)
Definition call_Interpolate (p : Polygon) (v : float) : outcome Vector :=
  let pointCount := Z.of_nat (length p) in
  let connections := repeat 0 (length p + 1) in
  r <- measure_loop_checked p pointCount (length p) 0 connections 0 ;;
  let target := Min 1 (Max 0 v) in
  t <- search_loop_checked p pointCount (length p) 1 (fst r) (snd r) target ;;
  match t with
  | Some t => Returns t
  | None => Returns Null
  end.

(** ** Screen points

    [sdl.Point] has two [int32] fields.  The conversion [int32(f)] of a
    [float64] is Go's: it discards the fraction when the result fits and is
    left to the implementation otherwise.  It is the field of [GoConvert],
    and what is proved below holds for every conversion. *)

Class GoConvert := {
  Int32 : float -> Z
}.

Record Point := mkPoint { PX : Z; PY : Z }.

Definition ToPoint `{GoConvert} (v : Vector) : Point :=
  mkPoint (Int32 (X v)) (Int32 (Y v)).

(** [Points]: the vertices as screen points, the first one repeated at the
    end when there is one. *)
Definition Points `{GoConvert} (p : Polygon) : list Point :=
  let points := map ToPoint p in
  if negb (length points =? 0)%nat
  then points ++ [nth 0 points (mkPoint 0 0)]
  else points.

(** [Draw]: the slice it hands to [Renderer.DrawLines]. *)
Definition Draw `{GoMath} `{GoConvert} (car : CarModel) : list Point :=
  Points
    (Translate (PolygonRotateAround (Bounds car) (TurnCenter car) (Rotation car))
               (Position car)).

(** A conversion to run the model with: the fraction is discarded, and a
    value that does not fit gives the least [int32], as on amd64. *)
Definition truncate (x : float) : option Z :=
  match Prim2SF x with
  | S754_zero _ => Some 0%Z
  | S754_finite s m e =>
      Some (cond_Zopp s (if (0 <=? e)%Z then Zpos m * 2 ^ e else Zpos m / 2 ^ (- e)))%Z
  | _ => None
  end.

Definition truncInt32 (x : float) : Z :=
  match truncate x with
  | Some n => if ((- 2 ^ 31 <=? n) && (n <? 2 ^ 31))%Z then n else (- 2 ^ 31)%Z
  | None => (- 2 ^ 31)%Z
  end.

Definition truncConvert : GoConvert := {| Int32 := truncInt32 |}.

(** ** The steering of the controller *)

(** The angle [Feed] steers by ([diffAngle]). *)
Definition steeringAngle `{GoMath} (ctrl : CarModel) (p : Vector) : float :=
  AngleBetween (toTarget ctrl p)
               (RotateAround (Norm (Velocity ctrl)) Null (Rotation ctrl)).

Definition is_turn (e : event) : bool :=
  match e with EvTurn _ => true | _ => false end.
Definition is_println (e : event) : bool :=
  match e with EvPrintln _ => true | _ => false end.

(** [n] calls of [Break], whatever the magnitudes. *)
Fixpoint Breaks (n : nat) (car : CarModel) (delta : float) : CarModel :=
  match n with
  | O => car
  | S n' => Breaks n' (Break car delta) delta
  end.

(** ** The draws of the random source *)

(** The next [n] draws of [rand.Float64], in order. *)
Fixpoint draws `{RandSource} (n : nat) (s : rng) : list float :=
  match n with
  | O => []
  | S n' => fst (Float64 s) :: draws n' (snd (Float64 s))
  end.

(** The magnitude of a coordinate does not grow: [|x'| <= |x|]. *)
Definition no_larger (x' x : float) : bool := abs x' <=? abs x.

(** A vertex in the closed rectangle with the corner (x, y), as far as the
    computed sums [width + x] and [height + y]. *)
Definition in_closed_box (x y width height : float) (v : Vector) : bool :=
  (x <=? X v) && (X v <=? width + x) && (y <=? Y v) && (Y v <=? height + y).

(** ** The edges of [Interpolate] *)

(** [connections[i]] after the first loop of [Interpolate], and its share
    [connections[i] / length] of the perimeter. *)
Definition cumulative (p : Polygon) (i : nat) : float :=
  get_at (fst (measure_loop p (length p) (length p) 0 (repeat 0 (length p + 1)) 0)) i.

Definition share (p : Polygon) (i : nat) : float := cumulative p i / perimeter p.

(** The point that the second loop returns for the index [i] and the
    parameter [k]: on the edge from [p[i-1]] to [p[i % len(p)]]. *)
Definition edge_point (p : Polygon) (i : nat) (k : float) : Vector :=
  Add (at_ p (i - 1))
      (Scale (Add (at_ p (i mod length p)) (Scale (at_ p (i - 1)) (-1))) k).

(** The parameter [k] of the second loop for the index [i] and the target
    [t]. *)
Definition edge_parameter (p : Polygon) (i : nat) (t : float) : float :=
  (t - share p (i - 1)) / (share p i - share p (i - 1)).

(** ** Rounding to the nearest integer *)

Local Open Scope Z_scope.

(** The integer nearest to the rational [N / S], the even one on a tie:
    what [round_nearest_even] computes from a shift record. *)
Definition rne (N S : Z) : Z :=
  let q := N / S in
  let r := N mod S in
  if 2 * r <? S then q
  else if S <? 2 * r then q + 1
  else if Z.even q then q else q + 1.

Local Close Scope Z_scope.
(** * Properties *)

(** ** Binary64 facts, from the specification of the primitive operations *)

Lemma is_finite_spec x : is_finite x = sf_finite (Prim2SF x).
Proof.
  unfold is_finite, is_nan, is_infinity.
  rewrite !eqb_spec, abs_spec.
  change (Prim2SF infinity) with (S754_infinity false).
  destruct (Prim2SF x) as [b|b| |b m e]; simpl; try reflexivity.
  - destruct b; reflexivity.
  - unfold SFeqb; simpl. rewrite Z.compare_refl, Pos.compare_cont_refl.
    destruct b; reflexivity.
Qed.

Lemma is_zero_spec x : is_zero x = sf_zero (Prim2SF x).
Proof.
  unfold is_zero. rewrite eqb_spec. change (Prim2SF zero) with (S754_zero false).
  destruct (Prim2SF x) as [b|b| |b m e]; simpl; try reflexivity; destruct b; reflexivity.
Qed.

Lemma is_nan_spec x : is_nan x = match Prim2SF x with S754_nan => true | _ => false end.
Proof.
  unfold is_nan. rewrite eqb_spec.
  destruct (Prim2SF x) as [b|b| |b m e]; simpl; try reflexivity.
  - destruct b; reflexivity.
  - unfold SFeqb; simpl. rewrite Z.compare_refl, Pos.compare_cont_refl.
    destruct b; reflexivity.
Qed.

Ltac to_spec :=
  rewrite ?is_finite_spec, ?is_zero_spec, ?is_nan_spec, ?eqb_spec, ?ltb_spec, ?leb_spec,
          ?add_spec, ?sub_spec, ?mul_spec, ?div_spec, ?opp_spec in *;
  unfold SF64add, SF64sub, SF64mul, SF64div in *.

Ltac sf_destruct x :=
  destruct (Prim2SF x) as [[]|[]| |[] ? ?]; simpl in *; try discriminate; try reflexivity.

Lemma is_zero_finite x : is_zero x = true -> is_finite x = true.
Proof. to_spec. sf_destruct x. Qed.

Lemma sub_diag x : is_finite x = true -> is_zero (x - x) = true.
Proof.
  to_spec. sf_destruct x; intros _;
  rewrite Z.min_id; unfold shl_align; rewrite Z.sub_diag; cbn [fst];
  change (IntDef.Z.pos_sub ?a ?b) with (Z.pos_sub a b); rewrite Z.pos_sub_diag;
  reflexivity.
Qed.

Lemma mul_zero_l z c : is_zero z = true -> is_finite c = true -> is_zero (z * c) = true.
Proof. to_spec. sf_destruct z; sf_destruct c. Qed.

Lemma mul_zero_r c z : is_finite c = true -> is_zero z = true -> is_zero (c * z) = true.
Proof. to_spec. sf_destruct z; sf_destruct c. Qed.

Lemma add_zero_zero a b : is_zero a = true -> is_zero b = true -> is_zero (a + b) = true.
Proof. to_spec. sf_destruct a; sf_destruct b. Qed.

Lemma sub_zero_zero a b : is_zero a = true -> is_zero b = true -> is_zero (a - b) = true.
Proof. to_spec. sf_destruct a; sf_destruct b. Qed.

Lemma add_zero_r x z : is_finite x = true -> is_zero z = true -> (x + z =? x) = true.
Proof.
  to_spec. destruct (Prim2SF x) as [[]|[]| |[] m e]; simpl; try discriminate;
  destruct (Prim2SF z) as [[]|[]| |[] ? ?]; simpl; try discriminate; try reflexivity;
  intros _ _; unfold SFeqb; simpl; rewrite Z.compare_refl, Pos.compare_cont_refl;
  reflexivity.
Qed.

Lemma add_zero_l z x : is_zero z = true -> is_finite x = true -> (z + x =? x) = true.
Proof.
  to_spec. destruct (Prim2SF x) as [[]|[]| |[] m e]; simpl; try discriminate;
  destruct (Prim2SF z) as [[]|[]| |[] ? ?]; simpl; try discriminate; try reflexivity;
  intros _ _; unfold SFeqb; simpl; rewrite Z.compare_refl, Pos.compare_cont_refl;
  reflexivity.
Qed.

(** Adding a zero keeps a finite number finite. *)
Lemma add_zero_r_finite x z :
  is_finite x = true -> is_zero z = true -> is_finite (x + z) = true.
Proof. to_spec. sf_destruct x; sf_destruct z. Qed.

(** Numbers that compare equal have the same square, bit for bit. *)
Lemma eqb_square x y : (x =? y) = true -> x * x = y * y.
Proof.
  intros H. apply Prim2SF_inj. revert H. to_spec. unfold SFeqb.
  destruct (Prim2SF x) as [[]|[]| |[] m e]; simpl; try discriminate;
  destruct (Prim2SF y) as [[]|[]| |[] m' e']; simpl; try discriminate; try reflexivity;
  (destruct (Z.compare_spec e e') as [->| |]; try discriminate;
   rewrite Pos.compare_cont_spec; simpl;
   destruct (Pos.compare_spec m m') as [->| |]; try discriminate; reflexivity).
Qed.

Lemma eqb_refl_finite x : is_finite x = true -> (x =? x) = true.
Proof.
  to_spec. unfold SFeqb.
  destruct (Prim2SF x) as [[]|[]| |[] m e]; simpl; try discriminate; trivial;
  rewrite Z.compare_refl, Pos.compare_cont_refl; reflexivity.
Qed.

Lemma eqb_finite x y : (x =? y) = true -> is_finite y = true -> is_finite x = true.
Proof. to_spec. unfold SFeqb. sf_destruct x; sf_destruct y. Qed.

Lemma eqb_trans_zero x y z :
  (x =? y) = true -> is_zero z = true -> is_finite y = true -> (x + z =? y) = true.
Proof.
  to_spec. unfold SFeqb.
  destruct (Prim2SF x) as [[]|[]| |[] m e]; simpl; try discriminate;
  destruct (Prim2SF y) as [[]|[]| |[] m' e']; simpl; try discriminate;
  destruct (Prim2SF z) as [[]|[]| |[] ? ?]; simpl; try discriminate; try reflexivity; auto.
Qed.

(** A zero added to a non-zero finite number gives that number back, bit
    for bit. *)
Lemma add_zero_l_exact z x :
  is_zero z = true -> is_finite x = true -> is_zero x = false -> z + x = x.
Proof.
  intros Hz Hx Hn. apply Prim2SF_inj. revert Hz Hx Hn. to_spec.
  sf_destruct x; sf_destruct z.
Qed.

Lemma add_zero_r_exact x z :
  is_finite x = true -> is_zero z = true -> is_zero x = false -> x + z = x.
Proof.
  intros Hx Hz Hn. apply Prim2SF_inj. revert Hz Hx Hn. to_spec.
  sf_destruct x; sf_destruct z.
Qed.

(** ** Rounding: the value of a result against the exact value

    The operations of the specification round a mantissa and an exponent
    through [binary_round_aux].  The lemmas below follow its shifts and
    bound its result from both sides by representable numbers. *)

Local Open Scope Z_scope.

Lemma pow2_pred d : 0 < d -> 2 ^ d = 2 * 2 ^ (d - 1).
Proof.
  intros Hd. replace d with (Z.succ (d - 1)) at 1 by lia.
  rewrite Z.pow_succ_r by lia. reflexivity.
Qed.

Lemma pow2_pos k : 0 < 2 ^ k \/ k < 0.
Proof. destruct (Z.lt_ge_cases k 0); [right; trivial | left; apply Z.pow_pos_nonneg; lia]. Qed.

Lemma digits2_pos_bounds m :
  2 ^ (Zpos (digits2_pos m) - 1) <= Zpos m < 2 ^ (Zpos (digits2_pos m)).
Proof.
  induction m as [m IH|m IH|]; cbn [digits2_pos]; [| |simpl; lia];
    rewrite Pos2Z.inj_succ; set (d := Zpos (digits2_pos m)) in *;
    assert (Hd : 0 < d) by (subst d; lia);
    replace (Z.succ d - 1) with d by lia;
    rewrite (pow2_pred (Z.succ d)) by lia;
    replace (Z.succ d - 1) with d by lia;
    rewrite (pow2_pred d Hd) in *; lia.
Qed.

Lemma shr_1_spec m r s :
  0 <= m ->
  shr_1 (Build_shr_record m r s) = Build_shr_record (Z.div2 m) (Z.odd m) (r || s).
Proof. destruct m as [|[p|p|]|p]; try lia; reflexivity. Qed.

Lemma shr_1_locates mrs N D : locates mrs N D -> locates (shr_1 mrs) N (2 * D).
Proof.
  destruct mrs as [m r s]. unfold locates at 1; cbn [shr_m shr_r shr_s].
  intros (Hm & HD & HN & Hl). rewrite shr_1_spec by trivial.
  unfold locates; cbn [shr_m shr_r shr_s].
  pose proof (Z.div2_odd m) as Hq.
  assert (0 <= Z.div2 m) by (apply Z.div2_nonneg; trivial).
  set (q := Z.div2 m) in *. set (qD := q * D).
  assert (HmD : m * D = 2 * qD + Z.b2z (Z.odd m) * D) by (subst qD; rewrite Hq at 1; ring).
  replace (q * (2 * D)) with (2 * qD) by (subst qD; ring).
  replace ((q + 1) * (2 * D)) with (2 * qD + 2 * D) by (subst qD; ring).
  replace ((2 * q + 1) * (2 * D)) with (4 * qD + 2 * D) by (subst qD; ring).
  replace ((m + 1) * D) with (m * D + D) in * by ring.
  replace ((2 * m + 1) * D) with (2 * (m * D) + D) in * by ring.
  rewrite HmD in *. clearbody qD. clear HmD Hq.
  destruct (Z.odd m), r, s; cbn [Z.b2z orb] in *; lia.
Qed.

Lemma pow2_xO p : 2 ^ Zpos p~0 = 2 ^ Zpos p * 2 ^ Zpos p.
Proof.
  replace (Zpos p~0) with (Zpos p + Zpos p) by lia.
  apply Z.pow_add_r; lia.
Qed.

Lemma pow2_xI p : 2 ^ Zpos p~1 = 2 ^ Zpos p * (2 ^ Zpos p * 2).
Proof.
  replace (Zpos p~1) with (Zpos p + (Zpos p + 1)) by lia.
  rewrite !Z.pow_add_r by lia. reflexivity.
Qed.

Lemma iter_shr_locates p : forall mrs N D,
  locates mrs N D -> locates (iter_pos shr_1 p mrs) N (2 ^ Zpos p * D).
Proof.
  induction p as [p IH|p IH|]; intros mrs N D H; cbn [iter_pos].
  - apply shr_1_locates in H. apply IH in H. apply IH in H.
    rewrite pow2_xI. rewrite <- !Z.mul_assoc. exact H.
  - apply IH in H. apply IH in H.
    rewrite pow2_xO. rewrite <- !Z.mul_assoc. exact H.
  - apply shr_1_locates in H. exact H.
Qed.

Lemma fexp_eq e : fexp prec emax e = Z.max (e - 53) (-1074).
Proof. reflexivity. Qed.

Lemma binary_round_aux_finish sx mx ex lx :
  binary_round_aux prec emax sx mx ex lx =
  finish sx (round_nearest_even (shr_m (fst (shr_fexp prec emax mx ex lx)))
                                (loc_of_shr_record (fst (shr_fexp prec emax mx ex lx))))
            (snd (shr_fexp prec emax mx ex lx)).
Proof.
  unfold binary_round_aux, finish.
  destruct (shr_fexp prec emax mx ex lx) as [mrs' e']. cbn [fst snd].
  destruct (shr_fexp prec emax _ e' loc_Exact) as [mrs'' e'']. reflexivity.
Qed.

Lemma locates_exact m : 0 <= m -> locates (shr_record_of_loc m loc_Exact) m 1.
Proof. unfold locates; simpl. lia. Qed.

Lemma shr_locates mrs e n N D :
  locates mrs N D -> 0 <= n ->
  locates (fst (shr mrs e n)) N (2 ^ n * D) /\ snd (shr mrs e n) = e + n.
Proof.
  intros H Hn. unfold shr. destruct n as [|p|p]; cbn [fst snd]; try lia.
  - split; [|lia]. change (2 ^ 0) with 1. rewrite Z.mul_1_l. exact H.
  - split; [|reflexivity]. apply iter_shr_locates; exact H.
Qed.

Lemma shr_nonpos mrs e n : n <= 0 -> shr mrs e n = (mrs, e).
Proof. destruct n; try reflexivity. lia. Qed.

Lemma locates_div mrs N D : locates mrs N D -> shr_m mrs = N / D.
Proof.
  intros (Hm & HD & HN & _). apply Z.div_unique with (r := N - shr_m mrs * D); lia.
Qed.

Lemma finish_zero sx e1 : finish sx 0 e1 = S754_zero sx.
Proof.
  unfold finish, shr_fexp. cbn [Zdigits2].
  set (n := fexp prec emax (0 + e1) - e1).
  destruct (Z.le_gt_cases n 0) as [Hn|Hn].
  - rewrite shr_nonpos by trivial. reflexivity.
  - destruct (shr_locates (shr_record_of_loc 0 loc_Exact) e1 n 0 1
                (locates_exact 0 (Z.le_refl 0)) ltac:(lia)) as [Hl _].
    destruct (shr _ e1 n) as [mrs e2]. cbn [fst] in Hl.
    destruct Hl as (Hm & HD & HN & _).
    assert (shr_m mrs = 0) by nia. rewrite H. reflexivity.
Qed.

Lemma Zdigits2_le_53 m : 0 < m < 2 ^ 53 -> Zdigits2 m <= 53.
Proof.
  intros [Hm Hlt]. destruct m as [|p|p]; try lia. cbn [Zdigits2].
  pose proof (digits2_pos_bounds p) as [Hlo _].
  destruct (Z.le_gt_cases (Zpos (digits2_pos p)) 53); trivial.
  assert (2 ^ 53 <= 2 ^ (Zpos (digits2_pos p) - 1)) by (apply Z.pow_le_mono_r; lia).
  lia.
Qed.

Lemma finish_small sx m1 e1 :
  0 < m1 < 2 ^ 53 -> -1074 <= e1 ->
  finish sx m1 e1 =
  if e1 <=? 971 then S754_finite sx (Z.to_pos m1) e1 else S754_infinity sx.
Proof.
  intros Hm He. unfold finish, shr_fexp.
  pose proof (Zdigits2_le_53 m1 Hm) as Hd.
  rewrite shr_nonpos by (rewrite fexp_eq; lia).
  cbn [shr_record_of_loc shr_m].
  destruct m1 as [|p|p]; try lia. reflexivity.
Qed.

Lemma finish_carry sx e1 :
  -1074 <= e1 ->
  finish sx (2 ^ 53) e1 =
  if e1 + 1 <=? 971 then S754_finite sx (Z.to_pos (2 ^ 52)) (e1 + 1) else S754_infinity sx.
Proof.
  intros He. unfold finish, shr_fexp.
  change (Zdigits2 (2 ^ 53)) with 54.
  replace (fexp prec emax (54 + e1) - e1) with 1 by (rewrite fexp_eq; lia).
  reflexivity.
Qed.

Lemma round_nearest_even_locates mrs N S :
  locates mrs N S ->
  let m1 := round_nearest_even (shr_m mrs) (loc_of_shr_record mrs) in
  N / S <= m1 <= N / S + 1 /\
  (N mod S = 0 -> m1 = N / S) /\
  (2 * (N mod S) < S -> m1 = N / S) /\
  (S < 2 * (N mod S) -> m1 = N / S + 1).
Proof.
  intros H. pose proof (locates_div _ _ _ H) as Hdiv.
  destruct H as (Hm & HS & HN & Hl).
  assert (Hmod : N mod S = N - shr_m mrs * S).
  { rewrite Z.mod_eq by lia. rewrite Hdiv. ring. }
  rewrite <- Hdiv, Hmod. destruct mrs as [m r s]; cbn [shr_m shr_r shr_s] in *.
  destruct r, s; cbn [loc_of_shr_record round_nearest_even];
    try (destruct (Z.even m)); lia.
Qed.

(** The rounding step on an aligned mantissa: the result is the second
    stage applied to a neighbour [m1] of the exact quotient. *)
Lemma binary_round_aux_spec sx mx ex lx N D :
  locates (shr_record_of_loc (Zpos mx) lx) N D ->
  N < (Zpos mx + 1) * D ->
  ex <= fexp prec emax (Zpos (digits2_pos mx) + ex) ->
  let e' := fexp prec emax (Zpos (digits2_pos mx) + ex) in
  let S := 2 ^ (e' - ex) * D in
  exists m1,
    binary_round_aux prec emax sx (Zpos mx) ex lx = finish sx m1 e' /\
    0 <= m1 <= 2 ^ 53 /\
    N / S <= m1 <= N / S + 1 /\
    (N mod S = 0 -> m1 = N / S) /\
    (2 * (N mod S) < S -> m1 = N / S) /\
    (S < 2 * (N mod S) -> m1 = N / S + 1).
Proof.
  intros Hloc HN Hal e' S.
  rewrite binary_round_aux_finish. unfold shr_fexp. cbn [Zdigits2]. fold e'.
  destruct (shr_locates _ ex (e' - ex) N D Hloc ltac:(lia)) as [Hl He].
  fold S in Hl.
  set (r := shr (shr_record_of_loc (Zpos mx) lx) ex (e' - ex)) in *.
  exists (round_nearest_even (shr_m (fst r)) (loc_of_shr_record (fst r))).
  replace (snd r) with e' by lia.
  split; [reflexivity|].
  pose proof (round_nearest_even_locates _ _ _ Hl) as Hr. cbn zeta in Hr.
  split; [|exact Hr].
  destruct Hr as ([Hlo Hhi] & _).
  pose proof (locates_div _ _ _ Hl) as Hdiv.
  destruct Hl as (Hm & HS & HNS & _).
  split; [lia|].
  (* the quotient is below 2^53 *)
  pose proof (digits2_pos_bounds mx) as [_ Hd].
  assert (Hn : Zpos (digits2_pos mx) <= (e' - ex) + 53).
  { subst e'. rewrite fexp_eq. lia. }
  assert (Hp : 2 ^ Zpos (digits2_pos mx) <= 2 ^ (e' - ex) * 2 ^ 53).
  { rewrite <- Z.pow_add_r by lia. apply Z.pow_le_mono_r; lia. }
  assert (HD : 0 < D) by (destruct Hloc as (_ & HD & _); exact HD).
  assert (H2 : 0 < 2 ^ (e' - ex)) by (apply Z.pow_pos_nonneg; lia).
  assert (shr_m (fst r) < 2 ^ 53); [|lia].
  rewrite Hdiv. apply Z.div_lt_upper_bound; [lia|].
  subst S. nia.
Qed.

Lemma pow2_split e1 e2 : 0 <= e1 <= e2 -> 2 ^ e2 = 2 ^ (e2 - e1) * 2 ^ e1.
Proof. intros H. rewrite <- Z.pow_add_r by lia. f_equal. lia. Qed.

Lemma pow2_gt0 e : 0 <= e -> 0 < 2 ^ e.
Proof. intros. apply Z.pow_pos_nonneg; lia. Qed.

Lemma mval_pos m e : 0 < m -> -2200 <= e -> 0 < mval m e.
Proof. intros. unfold mval. pose proof (pow2_gt0 (e + 2200)). nia. Qed.

Lemma mval_shift m e1 e2 :
  -2200 <= e1 <= e2 -> mval m e2 = mval (m * 2 ^ (e2 - e1)) e1.
Proof.
  intros H. unfold mval. rewrite (pow2_split (e1 + 2200) (e2 + 2200)) by lia.
  replace (e2 + 2200 - (e1 + 2200)) with (e2 - e1) by lia. ring.
Qed.

Lemma valid_finite s m e :
  valid_binary (S754_finite s m e) = true ->
  e = Z.max (Zpos (digits2_pos m) + e - 53) (-1074) /\ e <= 971.
Proof.
  cbn [SpecFloat.valid_binary]. unfold bounded, canonical_mantissa.
  rewrite andb_true_iff, Z.eqb_eq, Z.leb_le, fexp_eq.
  change (emax - prec) with 971. lia.
Qed.

(** Bounds of the value of a valid mantissa. *)
Lemma valid_mval_bounds s m e :
  valid_binary (S754_finite s m e) = true ->
  mval (Zpos m) e < mval (2 ^ 53) e /\
  (-1074 < e -> mval (2 ^ 52) e <= mval (Zpos m) e).
Proof.
  intros Hv. apply valid_finite in Hv as [He _].
  pose proof (digits2_pos_bounds m) as [Hlo Hhi].
  pose proof (pow2_gt0 (e + 2200) ltac:(lia)) as Hp.
  unfold mval. split.
  - assert (2 ^ Zpos (digits2_pos m) <= 2 ^ 53) by (apply Z.pow_le_mono_r; lia). nia.
  - intros Hn. replace (Zpos (digits2_pos m) - 1) with 52 in Hlo by lia. nia.
Qed.

Lemma mval_lt_exp s1 m1 e1 s2 m2 e2 :
  valid_binary (S754_finite s1 m1 e1) = true ->
  valid_binary (S754_finite s2 m2 e2) = true ->
  e1 < e2 -> mval (Zpos m1) e1 < mval (Zpos m2) e2.
Proof.
  intros H1 H2 Hlt.
  pose proof (valid_finite _ _ _ H1) as [He1 _].
  pose proof (valid_mval_bounds _ _ _ H1) as [Hhi _].
  pose proof (valid_mval_bounds _ _ _ H2) as [_ Hlo].
  specialize (Hlo ltac:(lia)).
  assert (mval (2 ^ 53) e1 <= mval (2 ^ 52) e2); [|lia].
  rewrite (mval_shift (2 ^ 52) e1 e2) by lia. unfold mval.
  pose proof (pow2_gt0 (e1 + 2200) ltac:(lia)).
  assert (2 ^ 53 <= 2 ^ 52 * 2 ^ (e2 - e1)); [|nia].
  rewrite <- Z.pow_add_r by lia. apply Z.pow_le_mono_r; lia.
Qed.

Lemma Zcompare_mul_r n m p : 0 < p -> (n * p ?= m * p) = (n ?= m).
Proof.
  intros Hp. destruct (Z.compare_spec n m) as [->|H|H].
  - apply Z.compare_refl.
  - apply Z.compare_lt_iff. nia.
  - apply Z.compare_gt_iff. nia.
Qed.

Lemma compare_mval_pos s1 m1 e1 s2 m2 e2 :
  valid_binary (S754_finite s1 m1 e1) = true ->
  valid_binary (S754_finite s2 m2 e2) = true ->
  match Z.compare e1 e2 with
  | Lt => Lt
  | Gt => Gt
  | Eq => Pos.compare_cont Eq m1 m2
  end = (mval (Zpos m1) e1 ?= mval (Zpos m2) e2).
Proof.
  intros H1 H2. symmetry.
  destruct (Z.compare_spec e1 e2) as [->|Hlt|Hgt].
  - pose proof (valid_finite _ _ _ H2) as [He _].
    unfold mval. rewrite Zcompare_mul_r by (apply pow2_gt0; lia).
    rewrite Pos.compare_cont_spec. cbn [Z.compare]. destruct (m1 ?= m2)%positive; reflexivity.
  - apply Z.compare_lt_iff. eapply mval_lt_exp; eauto.
  - apply Z.compare_gt_iff. eapply mval_lt_exp; eauto.
Qed.

(** On valid finite numbers the comparison of the specification is the
    comparison of the values. *)
Lemma SFcompare_zval a b :
  sf_finite a = true -> sf_finite b = true ->
  valid_binary a = true -> valid_binary b = true ->
  SFcompare a b = Some (zval a ?= zval b).
Proof.
  destruct a as [sa|sa| |sa ma ea]; try discriminate;
  destruct b as [sb|sb| |sb mb eb]; try discriminate; intros _ _ Ha Hb;
  cbn [SFcompare zval].
  - reflexivity.
  - pose proof (valid_finite _ _ _ Hb) as [He _].
    pose proof (mval_pos (Zpos mb) eb ltac:(lia) ltac:(lia)).
    destruct sb; cbn [cond_Zopp]; f_equal; symmetry;
      [apply Z.compare_gt_iff | apply Z.compare_lt_iff]; lia.
  - pose proof (valid_finite _ _ _ Ha) as [He _].
    pose proof (mval_pos (Zpos ma) ea ltac:(lia) ltac:(lia)).
    destruct sa; cbn [cond_Zopp]; f_equal; symmetry;
      [apply Z.compare_lt_iff | apply Z.compare_gt_iff]; lia.
  - pose proof (valid_finite _ _ _ Ha) as [Hea _].
    pose proof (valid_finite _ _ _ Hb) as [Heb _].
    pose proof (mval_pos (Zpos ma) ea ltac:(lia) ltac:(lia)).
    pose proof (mval_pos (Zpos mb) eb ltac:(lia) ltac:(lia)).
    destruct sa, sb; cbn [cond_Zopp]; f_equal.
    + rewrite Z.compare_opp.
      rewrite <- (compare_mval_pos _ _ _ _ _ _ Hb Ha).
      rewrite (Z.compare_antisym ea eb).
      destruct (ea ?= eb); cbn [CompOpp]; trivial.
      rewrite Pos.compare_cont_antisym. reflexivity.
    + symmetry. apply Z.compare_lt_iff. lia.
    + symmetry. apply Z.compare_gt_iff. lia.
    + apply (compare_mval_pos _ _ _ _ _ _ Ha Hb).
Qed.

Lemma pow2_lt_inv a b : 0 <= b -> 2 ^ a < 2 ^ b -> a < b.
Proof.
  intros Hb H. destruct (Z.lt_ge_cases a b); trivial.
  assert (2 ^ b <= 2 ^ a) by (apply Z.pow_le_mono_r; lia). lia.
Qed.

(** A value below a representable bound has a rounding exponent below the
    exponent of the bound. *)
Lemma rounding_exponent_le mx ex sB mB eB :
  -2200 <= ex ->
  valid_binary (S754_finite sB mB eB) = true ->
  mval (Zpos mx) ex <= mval (Zpos mB) eB ->
  fexp prec emax (Zpos (digits2_pos mx) + ex) <= eB.
Proof.
  intros Hex HB Hle.
  pose proof (valid_finite _ _ _ HB) as [HeB _].
  pose proof (digits2_pos_bounds mx) as [Hlo _].
  pose proof (digits2_pos_bounds mB) as [_ Hhi].
  set (d := Zpos (digits2_pos mx)) in *. set (dB := Zpos (digits2_pos mB)) in *.
  assert (Hd : 0 < d) by (subst d; lia). assert (HdB : 0 < dB) by (subst dB; lia).
  assert (H : d - 1 + (ex + 2200) < dB + (eB + 2200)).
  { apply pow2_lt_inv; [lia|].
    rewrite (Z.pow_add_r 2 (d - 1) (ex + 2200)), (Z.pow_add_r 2 dB (eB + 2200)) by lia.
    unfold mval in Hle.
    pose proof (pow2_gt0 (ex + 2200) ltac:(lia)) as Hp.
    pose proof (pow2_gt0 (eB + 2200) ltac:(lia)) as Hq.
    apply Z.le_lt_trans with (Zpos mx * 2 ^ (ex + 2200)).
    - apply Z.mul_le_mono_nonneg_r; lia.
    - apply Z.le_lt_trans with (Zpos mB * 2 ^ (eB + 2200)); trivial.
      apply Z.mul_lt_mono_pos_r; trivial. }
  rewrite fexp_eq. lia.
Qed.

(** Rounding an exact value never passes a representable upper bound. *)
Lemma round_exact_ub sx mx ex sB mB eB :
  ex <= fexp prec emax (Zpos (digits2_pos mx) + ex) ->
  -2200 <= ex ->
  valid_binary (S754_finite sB mB eB) = true ->
  mval (Zpos mx) ex <= mval (Zpos mB) eB ->
  let f := binary_round_aux prec emax sx (Zpos mx) ex loc_Exact in
  f = S754_zero sx \/
  exists m e, f = S754_finite sx m e /\ mval (Zpos m) e <= mval (Zpos mB) eB.
Proof.
  intros Hal Hex HB Hle f.
  pose proof (rounding_exponent_le _ _ _ _ _ Hex HB Hle) as He'.
  pose proof (valid_finite _ _ _ HB) as [HeB HeB'].
  pose proof (valid_mval_bounds _ _ _ HB) as [HBhi _].
  destruct (binary_round_aux_spec sx mx ex loc_Exact (Zpos mx) 1
              (locates_exact (Zpos mx) (Pos2Z.is_nonneg mx)) ltac:(lia) Hal)
    as (m1 & Hf & Hm1 & Hq & Hex0 & _).
  fold f in Hf.
  set (e' := fexp prec emax (Zpos (digits2_pos mx) + ex)) in *.
  assert (He'lo : -1074 <= e') by (subst e'; rewrite fexp_eq; lia).
  set (S := 2 ^ (e' - ex) * 1) in *.
  assert (HS : 0 < S) by (subst S; pose proof (pow2_gt0 (e' - ex)); lia).
  set (MB := Zpos mB * 2 ^ (eB - e')).
  assert (HMB : mval (Zpos mB) eB = mval MB e') by (apply mval_shift; lia).
  assert (Hm1v : mval (Zpos mx) ex = mval (Zpos mx) ex) by reflexivity.
  assert (Hsh : mval MB e' = mval (MB * S) ex).
  { subst S. rewrite Z.mul_1_r. apply mval_shift. lia. }
  assert (HmxMB : Zpos mx <= MB * S).
  { rewrite HMB, Hsh in Hle. unfold mval in Hle.
    pose proof (pow2_gt0 (ex + 2200) ltac:(lia)). nia. }
  assert (Hm1MB : m1 <= MB).
  { assert (Hdiv : Zpos mx / S <= MB) by (apply Z.div_le_upper_bound; lia).
    destruct (Z.eq_dec (Zpos mx / S) MB) as [E|NE]; [|lia].
    rewrite Hex0; [lia|].
    pose proof (Z.mul_div_le (Zpos mx) S HS).
    rewrite Z.mod_eq by lia. rewrite E in *. lia. }
  assert (Hval : mval m1 e' <= mval (Zpos mB) eB).
  { rewrite HMB. unfold mval. pose proof (pow2_gt0 (e' + 2200) ltac:(lia)). nia. }
  destruct (Z.eq_dec m1 0) as [->|Hnz]; [left; rewrite Hf; apply finish_zero|].
  right. destruct (Z.eq_dec m1 (2 ^ 53)) as [->|Hnc].
  - assert (e' < eB).
    { destruct (Z.eq_dec e' eB) as [E|]; [|lia]. exfalso.
      rewrite E in Hval. lia. }
    rewrite finish_carry in Hf by trivial.
    replace (e' + 1 <=? 971) with true in Hf by (symmetry; apply Z.leb_le; lia).
    exists (Z.to_pos (2 ^ 52)), (e' + 1). split; [exact Hf|].
    rewrite Z2Pos.id by reflexivity.
    rewrite (mval_shift (2 ^ 52) e' (e' + 1)) by lia.
    replace (e' + 1 - e') with 1 by lia. exact Hval.
  - rewrite finish_small in Hf by lia.
    replace (e' <=? 971) with true in Hf by (symmetry; apply Z.leb_le; lia).
    exists (Z.to_pos m1), e'. split; [exact Hf|].
    rewrite Z2Pos.id by lia. exact Hval.
Qed.

(** Rounding never falls below a representable lower bound of the value
    being rounded, whatever the location. *)
Lemma round_lb sx mx ex lx N D sA mA eA :
  locates (shr_record_of_loc (Zpos mx) lx) N D ->
  ex <= fexp prec emax (Zpos (digits2_pos mx) + ex) ->
  -2200 <= ex ->
  valid_binary (S754_finite sA mA eA) = true ->
  mval (Zpos mA) eA * D <= mval N ex ->
  let f := binary_round_aux prec emax sx (Zpos mx) ex lx in
  f = S754_infinity sx \/
  exists m e, f = S754_finite sx m e /\ mval (Zpos mA) eA <= mval (Zpos m) e.
Proof.
  intros Hloc Hal Hex HA Hle f.
  pose proof (valid_finite _ _ _ HA) as [HeA HeA'].
  pose proof (valid_mval_bounds _ _ _ HA) as [HAhi _].
  assert (HND : Zpos mx * D <= N < (Zpos mx + 1) * D).
  { destruct Hloc as (_ & _ & H & _). destruct lx as [|[]]; exact H. }
  assert (HD : 0 < D) by (destruct Hloc as (_ & H & _); exact H).
  destruct (binary_round_aux_spec sx mx ex lx N D Hloc (proj2 HND) Hal)
    as (m1 & Hf & Hm1 & Hq & _).
  fold f in Hf.
  set (e' := fexp prec emax (Zpos (digits2_pos mx) + ex)) in *.
  assert (He'lo : -1074 <= e') by (subst e'; rewrite fexp_eq; lia).
  set (S := 2 ^ (e' - ex) * D) in *.
  pose proof (pow2_gt0 (e' - ex) ltac:(lia)) as Hn.
  assert (HS : 0 < S) by (subst S; nia).
  pose proof (pow2_gt0 (ex + 2200) ltac:(lia)) as Hu.
  pose proof (pow2_gt0 (e' + 2200) ltac:(lia)) as Hu'.
  assert (Hval : mval (Zpos mA) eA <= mval m1 e').
  { destruct (Z.le_gt_cases e' eA) as [Hc|Hc].
    - set (MA := Zpos mA * 2 ^ (eA - e')).
      assert (HMA : mval (Zpos mA) eA = mval MA e') by (apply mval_shift; lia).
      assert (Hsh : mval MA e' = mval (MA * 2 ^ (e' - ex)) ex) by (apply mval_shift; lia).
      rewrite HMA. rewrite HMA, Hsh in Hle. unfold mval in *.
      assert (MA * S <= N) by (subst S; nia).
      assert (MA <= N / S) by (apply Z.div_le_lower_bound; lia).
      nia.
    - assert (Hd : e' - ex = Zpos (digits2_pos mx) - 1 - 52).
      { subst e'. rewrite fexp_eq in *. lia. }
      pose proof (digits2_pos_bounds mx) as [Hlo _].
      assert (Hsplit : 2 ^ (Zpos (digits2_pos mx) - 1) = 2 ^ 52 * 2 ^ (e' - ex)).
      { rewrite <- Z.pow_add_r by lia. f_equal. lia. }
      assert (2 ^ 52 * S <= N) by (subst S; nia).
      assert (2 ^ 52 <= N / S) by (apply Z.div_le_lower_bound; lia).
      assert (mval (2 ^ 53) eA <= mval (2 ^ 52) e').
      { rewrite (mval_shift (2 ^ 52) eA e') by lia. unfold mval.
        pose proof (pow2_gt0 (eA + 2200) ltac:(lia)).
        assert (2 ^ 53 <= 2 ^ 52 * 2 ^ (e' - eA)); [|nia].
        rewrite <- Z.pow_add_r by lia. apply Z.pow_le_mono_r; lia. }
      assert (mval (2 ^ 52) e' <= mval m1 e') by (unfold mval; nia).
      lia. }
  pose proof (mval_pos (Zpos mA) eA ltac:(lia) ltac:(lia)) as HApos.
  assert (Hm1pos : 0 < m1) by (unfold mval in Hval; nia).
  destruct (Z.eq_dec m1 (2 ^ 53)) as [E|Hnc].
  - rewrite E in *. rewrite finish_carry in Hf by trivial.
    destruct (e' + 1 <=? 971); [right|left; exact Hf].
    exists (Z.to_pos (2 ^ 52)), (e' + 1). split; [exact Hf|].
    rewrite Z2Pos.id by reflexivity.
    rewrite (mval_shift (2 ^ 52) e' (e' + 1)) by lia.
    replace (e' + 1 - e') with 1 by lia. exact Hval.
  - rewrite finish_small in Hf by lia.
    destruct (e' <=? 971); [right|left; exact Hf].
    exists (Z.to_pos m1), e'. split; [exact Hf|].
    rewrite Z2Pos.id by lia. exact Hval.
Qed.

Lemma iter_xO_spec m d :
  Zpos (Pos.iter xO m d) = Zpos m * 2 ^ Zpos d /\
  Zpos (digits2_pos (Pos.iter xO m d)) = Zpos (digits2_pos m) + Zpos d.
Proof.
  induction d as [|d [IH1 IH2]] using Pos.peano_ind.
  - cbn [Pos.iter digits2_pos]. rewrite Pos2Z.inj_succ. change (2 ^ 1) with 2. lia.
  - rewrite Pos.iter_succ. cbn [digits2_pos].
    rewrite Pos2Z.inj_xO, !Pos2Z.inj_succ, IH1, IH2.
    rewrite Z.pow_succ_r by lia. lia.
Qed.

Lemma shl_align_spec mx ex ex' :
  let mz := fst (shl_align mx ex ex') in
  let ez := snd (shl_align mx ex ex') in
  ez = Z.min ex ex' /\
  Zpos mz = Zpos mx * 2 ^ (ex - ez) /\
  Zpos (digits2_pos mz) = Zpos (digits2_pos mx) + (ex - ez).
Proof.
  unfold shl_align. destruct (ex' - ex) as [|d|d] eqn:E; cbn [fst snd].
  - replace (Z.min ex ex') with ex by lia. rewrite Z.sub_diag. simpl (2 ^ 0). lia.
  - replace (Z.min ex ex') with ex by lia. rewrite Z.sub_diag. simpl (2 ^ 0). lia.
  - replace (Z.min ex ex') with ex' by lia.
    replace (ex - ex') with (Zpos d) by lia.
    pose proof (iter_xO_spec mx d). tauto.
Qed.

(** [binary_round] is the rounding step on an aligned mantissa of the same
    value. *)
Lemma binary_round_aligned sx mx ex :
  -2200 <= ex ->
  exists mz ez,
    binary_round prec emax sx mx ex = binary_round_aux prec emax sx (Zpos mz) ez loc_Exact /\
    ez <= fexp prec emax (Zpos (digits2_pos mz) + ez) /\
    -2200 <= ez /\
    mval (Zpos mz) ez = mval (Zpos mx) ex.
Proof.
  intros Hex. unfold binary_round.
  pose proof (shl_align_spec mx ex (fexp prec emax (Zpos (digits2_pos mx) + ex)))
    as (He & Hm & Hd).
  destruct (shl_align mx ex _) as [mz ez]. cbn [fst snd] in *.
  exists mz, ez. split; [reflexivity|].
  assert (Hs : Zpos (digits2_pos mz) + ez = Zpos (digits2_pos mx) + ex) by lia.
  rewrite Hs. rewrite fexp_eq in *. repeat split; try lia.
  rewrite Hm. symmetry. apply mval_shift. lia.
Qed.

Lemma binary_round_ub sx mx ex sB mB eB :
  -2200 <= ex ->
  valid_binary (S754_finite sB mB eB) = true ->
  mval (Zpos mx) ex <= mval (Zpos mB) eB ->
  let f := binary_round prec emax sx mx ex in
  f = S754_zero sx \/
  exists m e, f = S754_finite sx m e /\ mval (Zpos m) e <= mval (Zpos mB) eB.
Proof.
  intros Hex HB Hle.
  destruct (binary_round_aligned sx mx ex Hex) as (mz & ez & -> & Hal & Hez & Hv).
  rewrite <- Hv in Hle. apply (round_exact_ub sx mz ez sB mB eB); trivial.
Qed.

Lemma binary_round_lb sx mx ex sA mA eA :
  -2200 <= ex ->
  valid_binary (S754_finite sA mA eA) = true ->
  mval (Zpos mA) eA <= mval (Zpos mx) ex ->
  let f := binary_round prec emax sx mx ex in
  f = S754_infinity sx \/
  exists m e, f = S754_finite sx m e /\ mval (Zpos mA) eA <= mval (Zpos m) e.
Proof.
  intros Hex HA Hle.
  destruct (binary_round_aligned sx mx ex Hex) as (mz & ez & -> & Hal & Hez & Hv).
  rewrite <- Hv in Hle.
  apply (round_lb sx mz ez loc_Exact (Zpos mz) 1 sA mA eA); trivial.
  - apply locates_exact. lia.
  - lia.
Qed.

(** The product of two valid mantissas is aligned. *)
Lemma product_aligned sa ma ea sb mb eb :
  valid_binary (S754_finite sa ma ea) = true ->
  valid_binary (S754_finite sb mb eb) = true ->
  ea + eb <= fexp prec emax (Zpos (digits2_pos (ma * mb)) + (ea + eb)).
Proof.
  intros Ha Hb.
  pose proof (valid_finite _ _ _ Ha) as [Hea _].
  pose proof (valid_finite _ _ _ Hb) as [Heb _].
  pose proof (digits2_pos_bounds ma) as [Hla _].
  pose proof (digits2_pos_bounds mb) as [Hlb _].
  pose proof (digits2_pos_bounds (ma * mb)) as [_ Hh].
  set (da := Zpos (digits2_pos ma)) in *. set (db := Zpos (digits2_pos mb)) in *.
  set (d := Zpos (digits2_pos (ma * mb))) in *.
  assert (Hda : 0 < da) by (subst da; lia). assert (Hdb : 0 < db) by (subst db; lia).
  assert (Hd : da + db - 2 < d).
  { apply pow2_lt_inv; [subst d; lia|].
    replace (da + db - 2) with ((da - 1) + (db - 1)) by lia.
    rewrite Z.pow_add_r by lia. rewrite Pos2Z.inj_mul in Hh.
    pose proof (pow2_gt0 (da - 1) ltac:(lia)). pose proof (pow2_gt0 (db - 1) ltac:(lia)).
    apply Z.le_lt_trans with (Zpos ma * Zpos mb); trivial.
    apply Z.mul_le_mono_nonneg; lia. }
  rewrite fexp_eq. lia.
Qed.

Lemma zval_nonneg_cases f :
  sf_finite f = true -> valid_binary f = true -> 0 <= zval f ->
  (exists s, f = S754_zero s) \/ (exists m e, f = S754_finite false m e).
Proof.
  destruct f as [s|s| |[] m e]; try discriminate; intros _ Hv Hz; eauto.
  exfalso. pose proof (valid_finite _ _ _ Hv) as [He _].
  pose proof (mval_pos (Zpos m) e ltac:(lia) ltac:(lia)).
  cbn [zval cond_Zopp] in Hz. lia.
Qed.

Lemma zval_finite_pos m e :
  valid_binary (S754_finite false m e) = true -> 0 < zval (S754_finite false m e).
Proof.
  intros Hv. pose proof (valid_finite _ _ _ Hv) as [He _].
  cbn [zval cond_Zopp]. apply mval_pos; lia.
Qed.

Lemma zval_pos_cases f :
  sf_finite f = true -> valid_binary f = true -> 0 < zval f ->
  exists m e, f = S754_finite false m e.
Proof.
  intros Hf Hv Hz. destruct (zval_nonneg_cases f Hf Hv ltac:(lia)) as [[s ->]|H]; trivial.
  simpl in Hz. lia.
Qed.

Lemma mval_mul ma ea mb eb :
  -2200 <= ea + eb -> -2200 <= ea -> -2200 <= eb ->
  mval ma ea * mval mb eb = mval (ma * mb) (ea + eb) * 2 ^ 2200.
Proof.
  intros. unfold mval.
  replace (ea + 2200) with ((ea + eb + 2200) + (- eb)) by lia.
  destruct (Z.le_gt_cases 0 eb).
  - replace (ea + eb + 2200 + - eb) with (ea + 2200) by lia.
    replace (ea + eb + 2200) with ((ea + 2200) + eb) by lia.
    rewrite (Z.pow_add_r 2 (ea + 2200) eb), (Z.pow_add_r 2 eb 2200) by lia. ring.
  - replace (ea + eb + 2200 + - eb) with ((ea + eb + 2200) + (- eb)) by lia.
    rewrite (Z.pow_add_r 2 (ea + eb + 2200) (- eb)) by lia.
    replace (2 ^ 2200) with (2 ^ (eb + 2200) * 2 ^ (- eb)).
    + ring.
    + rewrite <- Z.pow_add_r by lia. f_equal. lia.
Qed.

(** The product of two non-negative finite numbers stays below every
    representable bound of the exact product. *)
Lemma SFmul_nonneg_ub a b B :
  valid_binary a = true -> valid_binary b = true -> valid_binary B = true ->
  sf_finite a = true -> sf_finite b = true -> sf_finite B = true ->
  0 <= zval a -> 0 <= zval b ->
  zval a * zval b <= zval B * 2 ^ 2200 ->
  sf_finite (SF64mul a b) = true /\ 0 <= zval (SF64mul a b) <= zval B.
Proof.
  intros Va Vb VB Fa Fb FB Na Nb Hle.
  assert (HB0 : 0 <= zval B) by nia.
  destruct (zval_nonneg_cases a Fa Va Na) as [[sa ->]|(ma & ea & ->)];
  destruct (zval_nonneg_cases b Fb Vb Nb) as [[sb ->]|(mb & eb & ->)];
    try (cbn; split; [reflexivity|lia]).
  pose proof (zval_finite_pos _ _ Va). pose proof (zval_finite_pos _ _ Vb).
  destruct (zval_pos_cases B FB VB ltac:(nia)) as (mB & eB & ->).
  pose proof (valid_finite _ _ _ Va) as [Hea _].
  pose proof (valid_finite _ _ _ Vb) as [Heb _].
  cbn [zval cond_Zopp] in *.
  rewrite mval_mul in Hle by lia.
  assert (Hle' : mval (Zpos (ma * mb)) (ea + eb) <= mval (Zpos mB) eB).
  { rewrite Pos2Z.inj_mul. pose proof (pow2_gt0 2200 ltac:(lia)). nia. }
  unfold SF64mul. cbn [SFmul xorb].
  destruct (round_exact_ub false (ma * mb) (ea + eb) false mB eB
              (product_aligned _ _ _ _ _ _ Va Vb) ltac:(lia) VB Hle')
    as [->|(m & e & -> & Hm)]; cbn [sf_finite zval cond_Zopp].
  - split; [reflexivity|lia].
  - split; [reflexivity|]. split; [|exact Hm].
    unfold mval. pose proof (Z.pow_nonneg 2 (e + 2200)). nia.
Qed.

Lemma aligned_sum ma ea mb eb :
  -2200 <= ea -> -2200 <= eb ->
  let ez := Z.min ea eb in
  mval (Zpos (fst (shl_align ma ea ez)) + Zpos (fst (shl_align mb eb ez))) ez
  = mval (Zpos ma) ea + mval (Zpos mb) eb /\
  mval (Zpos (fst (shl_align ma ea ez)) - Zpos (fst (shl_align mb eb ez))) ez
  = mval (Zpos ma) ea - mval (Zpos mb) eb.
Proof.
  intros Ha Hb ez.
  pose proof (shl_align_spec ma ea ez) as (E1 & M1 & _).
  pose proof (shl_align_spec mb eb ez) as (E2 & M2 & _).
  cbn zeta in *. rewrite M1, M2, E1, E2.
  replace (Z.min ea ez) with ez by lia. replace (Z.min eb ez) with ez by lia.
  rewrite (mval_shift (Zpos ma) ez ea), (mval_shift (Zpos mb) ez eb) by lia.
  unfold mval. split; ring.
Qed.

Lemma SFadd_finite_pos ma ea mb eb :
  SF64add (S754_finite false ma ea) (S754_finite false mb eb) =
  binary_round prec emax false
    (fst (shl_align ma ea (Z.min ea eb)) + fst (shl_align mb eb (Z.min ea eb)))
    (Z.min ea eb).
Proof. reflexivity. Qed.

(** The sum of two non-negative finite numbers stays below every
    representable bound of the exact sum. *)
Lemma SFadd_nonneg_ub a b B :
  valid_binary a = true -> valid_binary b = true -> valid_binary B = true ->
  sf_finite a = true -> sf_finite b = true -> sf_finite B = true ->
  0 <= zval a -> 0 <= zval b ->
  zval a + zval b <= zval B ->
  sf_finite (SF64add a b) = true /\ 0 <= zval (SF64add a b) <= zval B.
Proof.
  intros Va Vb VB Fa Fb FB Na Nb Hle.
  destruct (zval_nonneg_cases a Fa Va Na) as [[sa ->]|(ma & ea & ->)];
  destruct (zval_nonneg_cases b Fb Vb Nb) as [[sb ->]|(mb & eb & ->)].
  - destruct sa, sb; cbn in *; split; trivial; lia.
  - cbn in *. split; trivial; lia.
  - cbn in *. split; trivial; lia.
  - pose proof (zval_finite_pos _ _ Va). pose proof (zval_finite_pos _ _ Vb).
    destruct (zval_pos_cases B FB VB ltac:(lia)) as (mB & eB & ->).
    pose proof (valid_finite _ _ _ Va) as [Hea _].
    pose proof (valid_finite _ _ _ Vb) as [Heb _].
    rewrite SFadd_finite_pos. cbn [zval cond_Zopp] in *.
    destruct (aligned_sum ma ea mb eb ltac:(lia) ltac:(lia)) as [Hs _].
    cbn zeta in Hs. rewrite <- Pos2Z.inj_add in Hs.
    destruct (binary_round_ub false _ (Z.min ea eb) false mB eB ltac:(lia) VB
                ltac:(rewrite Hs; exact Hle))
      as [->|(m & e & -> & Hm)]; cbn [sf_finite zval cond_Zopp].
    + split; [reflexivity|lia].
    + split; [reflexivity|]. split; [|exact Hm].
      unfold mval. pose proof (Z.pow_nonneg 2 (e + 2200)). nia.
Qed.

(** The sum of two non-negative finite numbers does not fall below a
    representable lower bound of the exact sum. *)
Lemma SFadd_nonneg_lb a b A :
  valid_binary a = true -> valid_binary b = true -> valid_binary A = true ->
  sf_finite a = true -> sf_finite b = true -> sf_finite A = true ->
  0 <= zval a -> 0 <= zval b ->
  zval A <= zval a + zval b ->
  SF64add a b = S754_infinity false \/
  (sf_finite (SF64add a b) = true /\ zval A <= zval (SF64add a b)).
Proof.
  intros Va Vb VA Fa Fb FA Na Nb Hle.
  destruct (zval_nonneg_cases a Fa Va Na) as [[sa ->]|(ma & ea & ->)];
  destruct (zval_nonneg_cases b Fb Vb Nb) as [[sb ->]|(mb & eb & ->)].
  - right. destruct sa, sb; cbn in *; split; trivial; lia.
  - right. cbn in *. split; trivial; lia.
  - right. cbn in *. split; trivial; lia.
  - pose proof (zval_finite_pos _ _ Va). pose proof (zval_finite_pos _ _ Vb).
    pose proof (valid_finite _ _ _ Va) as [Hea _].
    pose proof (valid_finite _ _ _ Vb) as [Heb _].
    rewrite SFadd_finite_pos. cbn [zval cond_Zopp] in *.
    destruct (aligned_sum ma ea mb eb ltac:(lia) ltac:(lia)) as [Hs _].
    cbn zeta in Hs. rewrite <- Pos2Z.inj_add in Hs.
    destruct (Z.le_gt_cases (zval A) 0) as [HA0|HA0].
    + (* any finite rounding of a positive sum is above a non-positive bound *)
      destruct (binary_round_lb false _ (Z.min ea eb) false ma ea ltac:(lia) Va
                  ltac:(rewrite Hs; lia))
        as [->|(m & e & -> & Hm)]; [left; reflexivity|right].
      cbn [sf_finite zval cond_Zopp]. split; [reflexivity|]. lia.
    + destruct (zval_pos_cases A FA VA HA0) as (mA & eA & ->).
      cbn [zval cond_Zopp] in *.
      destruct (binary_round_lb false _ (Z.min ea eb) false mA eA ltac:(lia) VA
                  ltac:(rewrite Hs; exact Hle))
        as [->|(m & e & -> & Hm)]; [left; reflexivity|right].
      cbn [sf_finite zval cond_Zopp]. split; [reflexivity|exact Hm].
Qed.

(** Rounding to nearest: an exact value less than half a unit above a
    normal number does not round above it. *)
Lemma round_exact_ub_near sx mx ex sB mB eB :
  ex <= fexp prec emax (Zpos (digits2_pos mx) + ex) ->
  -2200 <= ex ->
  valid_binary (S754_finite sB mB eB) = true ->
  2 ^ 52 <= Zpos mB ->
  2 * mval (Zpos mx) ex < mval (2 * Zpos mB + 1) eB ->
  let f := binary_round_aux prec emax sx (Zpos mx) ex loc_Exact in
  f = S754_zero sx \/
  exists m e, f = S754_finite sx m e /\ mval (Zpos m) e <= mval (Zpos mB) eB.
Proof.
  intros Hal Hex HB Hn Hlt f.
  destruct (Z.le_gt_cases (mval (Zpos mx) ex) (mval (Zpos mB) eB)) as [Hle|Hgt];
    [apply (round_exact_ub sx mx ex sB mB eB); trivial|].
  right.
  pose proof (valid_finite _ _ _ HB) as [HeB HeB'].
  pose proof (valid_mval_bounds _ _ _ HB) as [HBhi _].
  pose proof (digits2_pos_bounds mx) as [Hlo Hhi].
  pose proof (digits2_pos_bounds mB) as [_ HhiB].
  pose proof (pow2_gt0 (ex + 2200) ltac:(lia)) as Hu.
  pose proof (pow2_gt0 (eB + 2200) ltac:(lia)) as HuB.
  set (d := Zpos (digits2_pos mx)) in *.
  assert (Hd0 : 0 < d) by (subst d; lia).
  assert (HdB : Zpos (digits2_pos mB) <= 53) by lia.
  assert (HmB : Zpos mB < 2 ^ 53).
  { apply Z.lt_le_trans with (2 ^ Zpos (digits2_pos mB)); trivial.
    apply Z.pow_le_mono_r; lia. }
  (* the rounding exponent is the exponent of the bound *)
  assert (Hup : d - 1 + (ex + 2200) < 53 + (eB + 2200)).
  { apply pow2_lt_inv; [lia|].
    rewrite (Z.pow_add_r 2 (d - 1) (ex + 2200)), (Z.pow_add_r 2 53 (eB + 2200)) by lia.
    unfold mval in *. nia. }
  assert (Hdn : 52 + (eB + 2200) < d + (ex + 2200)).
  { apply pow2_lt_inv; [lia|].
    rewrite (Z.pow_add_r 2 52 (eB + 2200)), (Z.pow_add_r 2 d (ex + 2200)) by lia.
    unfold mval in *. nia. }
  assert (He' : fexp prec emax (d + ex) = eB) by (rewrite fexp_eq; lia).
  destruct (binary_round_aux_spec sx mx ex loc_Exact (Zpos mx) 1
              (locates_exact (Zpos mx) (Pos2Z.is_nonneg mx)) ltac:(lia) Hal)
    as (m1 & Hf & Hm1 & Hq & _ & Hdown & _).
  fold f in Hf. fold d in Hf, Hq, Hdown. rewrite He' in *.
  set (S := 2 ^ (eB - ex) * 1) in *.
  pose proof (pow2_gt0 (eB - ex) ltac:(lia)) as Hs.
  assert (HS : S = 2 ^ (eB - ex)) by (subst S; lia).
  assert (Hsh : forall m, mval m eB = mval (m * S) ex).
  { intros m. rewrite HS. apply mval_shift. lia. }
  rewrite (Hsh (Zpos mB)) in Hgt. rewrite (Hsh (2 * Zpos mB + 1)) in Hlt.
  unfold mval in Hgt, Hlt.
  assert (H1 : Zpos mB * S < Zpos mx) by nia.
  assert (H2 : 2 * Zpos mx < (2 * Zpos mB + 1) * S) by nia.
  assert (Hdiv : Zpos mx / S = Zpos mB).
  { symmetry. apply Z.div_unique with (r := Zpos mx - Zpos mB * S); lia. }
  assert (Hmod : Zpos mx mod S = Zpos mx - Zpos mB * S).
  { rewrite Z.mod_eq by lia. rewrite Hdiv. ring. }
  rewrite Hdiv, Hmod in Hdown. specialize (Hdown ltac:(lia)). subst m1.
  rewrite finish_small in Hf by lia.
  replace (eB <=? 971) with true in Hf by (symmetry; apply Z.leb_le; lia).
  exists mB, eB. rewrite Hf. split; [reflexivity|lia].
Qed.

Lemma SFmul_nonneg_ub_near a b sB mB eB :
  valid_binary a = true -> valid_binary b = true ->
  valid_binary (S754_finite sB mB eB) = true ->
  sf_finite a = true -> sf_finite b = true ->
  0 <= zval a -> 0 <= zval b ->
  2 ^ 52 <= Zpos mB ->
  2 * (zval a * zval b) < mval (2 * Zpos mB + 1) eB * 2 ^ 2200 ->
  sf_finite (SF64mul a b) = true /\ 0 <= zval (SF64mul a b) <= mval (Zpos mB) eB.
Proof.
  intros Va Vb VB Fa Fb Na Nb Hn Hlt.
  pose proof (valid_finite _ _ _ VB) as [HeB _].
  pose proof (mval_pos (Zpos mB) eB ltac:(lia) ltac:(lia)) as HBpos.
  destruct (zval_nonneg_cases a Fa Va Na) as [[sa ->]|(ma & ea & ->)];
  destruct (zval_nonneg_cases b Fb Vb Nb) as [[sb ->]|(mb & eb & ->)];
    try (unfold SF64mul; cbn [SFmul sf_finite zval]; split; [reflexivity|lia]).
  pose proof (valid_finite _ _ _ Va) as [Hea _].
  pose proof (valid_finite _ _ _ Vb) as [Heb _].
  cbn [zval cond_Zopp] in *.
  rewrite mval_mul in Hlt by lia.
  assert (Hlt' : 2 * mval (Zpos (ma * mb)) (ea + eb) < mval (2 * Zpos mB + 1) eB).
  { rewrite Pos2Z.inj_mul. pose proof (pow2_gt0 2200 ltac:(lia)). nia. }
  unfold SF64mul. cbn [SFmul xorb].
  destruct (round_exact_ub_near false (ma * mb) (ea + eb) sB mB eB
              (product_aligned _ _ _ _ _ _ Va Vb) ltac:(lia) VB Hn Hlt')
    as [->|(m & e & -> & Hm)]; cbn [sf_finite zval cond_Zopp].
  - split; [reflexivity|lia].
  - split; [reflexivity|]. split; [|exact Hm].
    unfold mval. pose proof (Z.pow_nonneg 2 (e + 2200)). nia.
Qed.

(** A valid number below 1 is at most the largest number below 1. *)
Lemma zval_below_one f :
  valid_binary f = true -> sf_finite f = true ->
  0 <= zval f < 2 ^ 2200 -> zval f <= (2 ^ 53 - 1) * 2 ^ 2147.
Proof.
  intros Vf Ff [Hlo Hhi].
  destruct (zval_nonneg_cases f Ff Vf Hlo) as [[s ->]|(m & e & ->)].
  - cbn [zval]. pose proof (pow2_gt0 2147 ltac:(lia)). pose proof (pow2_gt0 53 ltac:(lia)). nia.
  - pose proof (valid_finite _ _ _ Vf) as [He _].
    pose proof (valid_mval_bounds _ _ _ Vf) as [Hm53 Hm52].
    cbn [zval cond_Zopp] in *.
    assert (Hexp : e <= -53).
    { destruct (Z.le_gt_cases e (-53)); trivial. exfalso.
      specialize (Hm52 ltac:(lia)).
      assert (2 ^ 2200 <= mval (2 ^ 52) e); [|lia].
      unfold mval. replace 2200 with (52 + 2148) at 1 by reflexivity.
      rewrite (Z.pow_add_r 2 52 2148) by lia.
      apply Z.mul_le_mono_nonneg_l; [apply Z.pow_nonneg; lia|].
      apply Z.pow_le_mono_r; lia. }
    unfold mval in *.
    pose proof (pow2_gt0 (e + 2200) ltac:(lia)).
    assert (Zpos m <= 2 ^ 53 - 1) by nia.
    apply Z.mul_le_mono_nonneg; try lia.
    apply Z.pow_le_mono_r; lia.
Qed.

Lemma mval_cond_Zopp s m e : mval (cond_Zopp s m) e = cond_Zopp s (mval m e).
Proof. unfold mval. destruct s; cbn [cond_Zopp]; ring. Qed.

Lemma mval_sub m1 m2 e : mval (m1 - m2) e = mval m1 e - mval m2 e.
Proof. unfold mval. ring. Qed.

Lemma aligned_mantissa m e ez :
  -2200 <= ez <= e -> mval (Zpos (fst (shl_align m e ez))) ez = mval (Zpos m) e.
Proof.
  intros H. pose proof (shl_align_spec m e ez) as (E & M & _). cbn zeta in *.
  rewrite M, E. replace (Z.min e ez) with ez by lia.
  symmetry. apply mval_shift. lia.
Qed.

(** A negative value rounds to a number that is not above zero. *)
Lemma binary_round_neg m e :
  -2200 <= e -> SFleb (binary_round prec emax true m e) (S754_zero false) = true.
Proof.
  intros He.
  destruct (binary_round_aligned true m e He) as (mz & ez & -> & Hal & Hez & _).
  destruct (binary_round_aux_spec true mz ez loc_Exact (Zpos mz) 1
              (locates_exact (Zpos mz) (Pos2Z.is_nonneg mz)) ltac:(lia) Hal)
    as (m1 & -> & Hm1 & _).
  set (e' := fexp prec emax (Zpos (digits2_pos mz) + ez)).
  assert (He' : -1074 <= e') by (subst e'; rewrite fexp_eq; lia).
  destruct (Z.eq_dec m1 0) as [->|Hnz]; [rewrite finish_zero; reflexivity|].
  destruct (Z.eq_dec m1 (2 ^ 53)) as [->|Hnc].
  - rewrite finish_carry by trivial. destruct (e' + 1 <=? 971); reflexivity.
  - rewrite finish_small by lia. destruct (e' <=? 971); reflexivity.
Qed.

(** [a - b] is not above zero when [a] is not above [b]. *)
Lemma SFsub_le_zero a b :
  valid_binary a = true -> valid_binary b = true -> sf_finite b = true ->
  SFleb a b = true -> SFleb (SF64sub a b) (S754_zero false) = true.
Proof.
  intros Va Vb Fb Hle.
  destruct a as [sa|[]| |sa ma ea].
  - (* zero *)
    assert (Hz : zval (S754_zero sa) <= zval b).
    { unfold SFleb in Hle. rewrite SFcompare_zval in Hle by trivial.
      destruct (Z.compare_spec (zval (S754_zero sa)) (zval b)); try discriminate; lia. }
    destruct b as [sb|sb| |sb mb eb]; try discriminate.
    + destruct sa, sb; reflexivity.
    + pose proof (valid_finite _ _ _ Vb) as [He _].
      pose proof (mval_pos (Zpos mb) eb ltac:(lia) ltac:(lia)).
      destruct sb; cbn [zval cond_Zopp] in Hz; [lia|]. reflexivity.
  - destruct b as [sb|sb| |sb mb eb]; try discriminate Fb; reflexivity.
  - destruct b as [sb|sb| |sb mb eb]; try discriminate Fb;
      cbv [SFleb SFcompare] in Hle; discriminate Hle.
  - destruct b; cbv [SFleb SFcompare] in Hle; discriminate Hle.
  - assert (Hz : zval (S754_finite sa ma ea) <= zval b).
    { unfold SFleb in Hle. rewrite SFcompare_zval in Hle by trivial.
      destruct (Z.compare_spec (zval (S754_finite sa ma ea)) (zval b)); try discriminate; lia. }
    pose proof (valid_finite _ _ _ Va) as [Hea _].
    pose proof (mval_pos (Zpos ma) ea ltac:(lia) ltac:(lia)) as Hpa.
    destruct b as [sb|sb| |sb mb eb]; try discriminate.
    + destruct sa; cbn [zval cond_Zopp] in Hz; [reflexivity|lia].
    + pose proof (valid_finite _ _ _ Vb) as [Heb _].
      unfold SF64sub. cbn [SFsub].
      set (ez := Z.min ea eb).
      set (z := cond_Zopp sa (Zpos (fst (shl_align ma ea ez))) -
                cond_Zopp sb (Zpos (fst (shl_align mb eb ez)))).
      assert (Hzv : mval z ez = zval (S754_finite sa ma ea) - zval (S754_finite sb mb eb)).
      { subst z. rewrite mval_sub, !mval_cond_Zopp, !aligned_mantissa by (subst ez; lia).
        reflexivity. }
      assert (Hz0 : z <= 0).
      { unfold mval in Hzv. pose proof (pow2_gt0 (ez + 2200) ltac:(subst ez; lia)). nia. }
      destruct z as [|pz|pz]; try lia; cbn [binary_normalize]; [reflexivity|].
      apply binary_round_neg. subst ez. lia.
Qed.

(** The location computed by a division locates the quotient. *)
Lemma new_location_locates q r m2 :
  0 <= q -> 0 <= r < m2 ->
  locates (shr_record_of_loc q (new_location m2 r)) (q * m2 + r) m2.
Proof.
  intros Hq Hr. unfold new_location, new_location_even, new_location_odd.
  destruct (Z.even m2) eqn:Ev.
  - destruct (Z.eqb_spec r 0) as [->|Hr0].
    + unfold locates; cbn [shr_record_of_loc shr_m shr_r shr_s]; lia.
    + destruct (Z.compare_spec (2 * r) m2); unfold locates; cbn [shr_record_of_loc shr_m shr_r shr_s]; lia.
  - assert (Hodd : Z.odd m2 = true) by (rewrite <- Z.negb_even, Ev; reflexivity).
    apply Z.odd_spec in Hodd as [k Hk].
    destruct (Z.eqb_spec r 0) as [->|Hr0].
    + unfold locates; cbn [shr_record_of_loc shr_m shr_r shr_s]; lia.
    + destruct (Z.compare_spec (2 * r + 1) m2); unfold locates; cbn [shr_record_of_loc shr_m shr_r shr_s]; lia.
Qed.

Lemma Zdigits2_pos_bounds q :
  0 < q -> 2 ^ (Zdigits2 q - 1) <= q < 2 ^ Zdigits2 q.
Proof.
  destruct q as [|p|p]; try lia. intros _. apply digits2_pos_bounds.
Qed.

(** The quotient of two valid mantissas, as [SFdiv_core_binary] returns
    it. *)
Lemma SFdiv_core_spec m1 e1 m2 e2 :
  let d1 := Zpos (digits2_pos m1) in
  let d2 := Zpos (digits2_pos m2) in
  let e' := Z.min (fexp prec emax (d1 + e1 - (d2 + e2))) (e1 - e2) in
  let N := Zpos m1 * 2 ^ (e1 - e2 - e') in
  SFdiv_core_binary prec emax (Zpos m1) e1 (Zpos m2) e2
  = (N / Zpos m2, e', new_location (Zpos m2) (N mod Zpos m2)).
Proof.
  intros d1 d2 e' N. unfold SFdiv_core_binary. cbn [Zdigits2].
  fold d1 d2. fold e'.
  assert (Hs : 0 <= e1 - e2 - e') by (subst e'; lia).
  replace (match e1 - e2 - e' with
           | 0 => Zpos m1
           | Zpos _ => Z.shiftl (Zpos m1) (e1 - e2 - e')
           | Zneg _ => 0
           end) with N.
  - unfold Z.div, Z.modulo. destruct (Z.div_eucl N (Zpos m2)); reflexivity.
  - subst N. destruct (e1 - e2 - e') as [|s|s] eqn:E; try lia.
    rewrite Z.shiftl_mul_pow2 by lia. reflexivity.
Qed.

(** A quotient of positive numbers does not fall below a representable
    lower bound of the exact quotient. *)
Lemma SFdiv_pos_lb mx ex my ey sA mA eA :
  valid_binary (S754_finite false mx ex) = true ->
  valid_binary (S754_finite false my ey) = true ->
  valid_binary (S754_finite sA mA eA) = true ->
  mval (Zpos mA) eA * mval (Zpos my) ey <= mval (Zpos mx) ex * 2 ^ 2200 ->
  let f := SF64div (S754_finite false mx ex) (S754_finite false my ey) in
  f = S754_infinity false \/
  exists m e, f = S754_finite false m e /\ mval (Zpos mA) eA <= mval (Zpos m) e.
Proof.
  intros Vx Vy VA Hle f. subst f. unfold SF64div. cbn [SFdiv xorb].
  rewrite SFdiv_core_spec.
  pose proof (valid_finite _ _ _ Vx) as [Hex Hex'].
  pose proof (valid_finite _ _ _ Vy) as [Hey Hey'].
  pose proof (valid_finite _ _ _ VA) as [HeA _].
  set (d1 := Zpos (digits2_pos mx)) in *. set (d2 := Zpos (digits2_pos my)) in *.
  set (e' := Z.min (fexp prec emax (d1 + ex - (d2 + ey))) (ex - ey)).
  set (s := ex - ey - e').
  assert (Hs : 0 <= s) by (subst s e'; lia).
  set (N := Zpos mx * 2 ^ s).
  pose proof (pow2_gt0 s Hs) as H2s.
  assert (HN : 0 < N) by (subst N; nia).
  set (q := N / Zpos my). set (r := N mod Zpos my).
  assert (Hqr : N = q * Zpos my + r) by (subst q r; rewrite Z.mul_comm; apply Z.div_mod; lia).
  assert (Hr : 0 <= r < Zpos my) by (subst r; apply Z.mod_pos_bound; lia).
  assert (Hq0 : 0 <= q) by (subst q; apply Z.div_pos; lia).
  assert (He'lo : -2200 <= e') by (subst e'; rewrite fexp_eq; lia).
  pose proof (digits2_pos_bounds mx) as [Hlx Hhx].
  pose proof (digits2_pos_bounds my) as [Hly Hhy].
  fold d1 in Hlx, Hhx. fold d2 in Hly, Hhy.
  assert (Hd1 : 0 < d1) by (subst d1; lia). assert (Hd2 : 0 < d2) by (subst d2; lia).
  (* the bound in terms of the numerator *)
  pose proof (mval_pos (Zpos mA) eA ltac:(lia) ltac:(lia)) as HApos.
  assert (E1 : 2 ^ (ex + 2200) * 2 ^ 2200 = 2 ^ (ex - ey + 2200) * 2 ^ (ey + 2200)).
  { rewrite <- !Z.pow_add_r by lia. f_equal. lia. }
  assert (E2 : 2 ^ s * 2 ^ (e' + 2200) = 2 ^ (ex - ey + 2200)).
  { rewrite <- Z.pow_add_r by lia. f_equal. subst s. lia. }
  pose proof (pow2_gt0 (ey + 2200) ltac:(lia)) as HP.
  pose proof (pow2_gt0 (e' + 2200) ltac:(lia)) as HP'.
  assert (HleN : mval (Zpos mA) eA * Zpos my <= mval N e').
  { unfold mval in Hle |- *. subst N.
    rewrite <- (Z.mul_assoc (Zpos mx)), E2.
    apply (Z.mul_le_mono_pos_r _ _ (2 ^ (ey + 2200))); trivial.
    rewrite <- (Z.mul_assoc (Zpos mx)), <- E1.
    rewrite <- !Z.mul_assoc in Hle |- *. exact Hle. }
  (* above the subnormal range the quotient has 53 digits or more *)
  assert (Hnormal : -1074 < e' -> 2 ^ 52 <= q).
  { intros Hn.
    assert (Hs' : d2 - d1 + 53 <= s) by (subst s e'; rewrite fexp_eq in *; lia).
    subst q. apply Z.div_le_lower_bound; [lia|].
    apply Z.le_trans with (2 ^ d2 * 2 ^ 52).
    { apply Z.mul_le_mono_nonneg_r; [apply Z.pow_nonneg|]; lia. }
    subst N. rewrite <- Z.pow_add_r by lia.
    apply Z.le_trans with (2 ^ (d1 - 1) * 2 ^ s).
    - rewrite <- Z.pow_add_r by lia. apply Z.pow_le_mono_r; lia.
    - apply Z.mul_le_mono_nonneg_r; lia. }
  assert (Hqpos : 0 < q).
  { destruct (Z.le_gt_cases e' (-1074)) as [Hsub|Hn]; [|specialize (Hnormal Hn); lia].
    destruct (Z.eq_dec q 0) as [Hq|]; [exfalso|lia].
    assert (HNlt : N < Zpos my) by lia.
    assert (H1 : mval (Zpos mA) eA < 2 ^ (e' + 2200)).
    { apply (Z.mul_lt_mono_pos_r (Zpos my)); [lia|].
      apply Z.le_lt_trans with (mval N e'); trivial.
      unfold mval. rewrite (Z.mul_comm (2 ^ (e' + 2200))).
      apply Z.mul_lt_mono_pos_r; trivial. }
    assert (H2 : 2 ^ (e' + 2200) <= 2 ^ (eA + 2200)) by (apply Z.pow_le_mono_r; lia).
    assert (H3 : 2 ^ (eA + 2200) <= mval (Zpos mA) eA).
    { unfold mval. rewrite <- (Z.mul_1_l (2 ^ (eA + 2200))) at 1.
      apply Z.mul_le_mono_nonneg_r; [apply Z.pow_nonneg|]; lia. }
    lia. }
  destruct q as [|qp|qp] eqn:Eq; try lia.
  assert (Hal : e' <= fexp prec emax (Zpos (digits2_pos qp) + e')).
  { rewrite fexp_eq. destruct (Z.le_gt_cases e' (-1074)) as [Hsub|Hn]; [lia|].
    specialize (Hnormal Hn).
    pose proof (digits2_pos_bounds qp) as [_ Hhq].
    assert (52 < Zpos (digits2_pos qp)) by (apply pow2_lt_inv; lia).
    lia. }
  fold N. fold r.
  replace (N / Zpos my) with (Zpos qp) by (symmetry; exact Eq).
  apply (round_lb false qp e' _ N (Zpos my) sA mA eA); trivial.
  rewrite Hqr. apply new_location_locates; lia.
Qed.

(** Scaling by a factor of magnitude at most 1 keeps a finite number
    finite. *)
Lemma SFmul_le_one_finite t a :
  valid_binary t = true -> valid_binary a = true ->
  sf_finite t = true -> sf_finite a = true ->
  Z.abs (zval t) <= 2 ^ 2200 ->
  sf_finite (SF64mul t a) = true.
Proof.
  intros Vt Va Ft Fa Ht. unfold SF64mul.
  destruct t as [st|st| |st mt et]; try discriminate;
  destruct a as [sa|sa| |sa ma ea]; try discriminate; try reflexivity.
  cbn [SFmul].
  pose proof (valid_finite _ _ _ Vt) as [Het _].
  pose proof (valid_finite _ _ _ Va) as [Hea _].
  pose proof (mval_pos (Zpos mt) et ltac:(lia) ltac:(lia)) as Hpt.
  pose proof (mval_pos (Zpos ma) ea ltac:(lia) ltac:(lia)) as Hpa.
  assert (Hmt : mval (Zpos mt) et <= 2 ^ 2200).
  { cbn [zval] in Ht. destruct st; cbn [cond_Zopp] in Ht; lia. }
  pose proof (mval_mul (Zpos mt) et (Zpos ma) ea ltac:(lia) ltac:(lia) ltac:(lia)) as Hm.
  assert (Hle : mval (Zpos (mt * ma)) (et + ea) <= mval (Zpos ma) ea).
  { rewrite Pos2Z.inj_mul.
    apply (Z.mul_le_mono_pos_r _ _ (2 ^ 2200)); [apply pow2_gt0; lia|].
    rewrite <- Hm. rewrite (Z.mul_comm (mval (Zpos ma) ea)).
    apply Z.mul_le_mono_nonneg_r; lia. }
  destruct (round_exact_ub (xorb st sa) (mt * ma) (et + ea) sa ma ea
              (product_aligned _ _ _ _ _ _ Vt Va) ltac:(lia) Va Hle)
    as [->|(m & e & -> & _)]; reflexivity.
Qed.

Lemma Zdigits2_upper mx : 0 <= mx -> mx < 2 ^ Zdigits2 mx.
Proof.
  destruct mx as [|p|p]; try lia; intros _; [reflexivity|].
  apply digits2_pos_bounds.
Qed.

(** The rounding step, for a mantissa that may be zero. *)
Lemma binary_round_aux_spec_Z sx mx ex lx N D :
  0 <= mx ->
  locates (shr_record_of_loc mx lx) N D ->
  ex <= fexp prec emax (Zdigits2 mx + ex) ->
  let e' := fexp prec emax (Zdigits2 mx + ex) in
  let S := 2 ^ (e' - ex) * D in
  exists m1,
    binary_round_aux prec emax sx mx ex lx = finish sx m1 e' /\
    0 <= m1 <= 2 ^ 53 /\
    N / S <= m1 <= N / S + 1 /\
    (N mod S = 0 -> m1 = N / S).
Proof.
  intros Hmx Hloc Hal e' S.
  assert (HN : mx * D <= N < (mx + 1) * D).
  { destruct Hloc as (_ & _ & H & _). destruct lx as [|[]]; exact H. }
  rewrite binary_round_aux_finish. unfold shr_fexp. fold e'.
  destruct (shr_locates _ ex (e' - ex) N D Hloc ltac:(lia)) as [Hl He].
  fold S in Hl.
  set (r := shr (shr_record_of_loc mx lx) ex (e' - ex)) in *.
  exists (round_nearest_even (shr_m (fst r)) (loc_of_shr_record (fst r))).
  replace (snd r) with e' by lia.
  split; [reflexivity|].
  pose proof (round_nearest_even_locates _ _ _ Hl) as Hr. cbn zeta in Hr.
  destruct Hr as ([Hlo Hhi] & Hexact & _).
  pose proof (locates_div _ _ _ Hl) as Hdiv.
  destruct Hl as (Hm & HS & HNS & _).
  assert (HD : 0 < D) by (destruct Hloc as (_ & HD & _); exact HD).
  assert (H2 : 0 < 2 ^ (e' - ex)) by (apply Z.pow_pos_nonneg; lia).
  assert (Hlt : shr_m (fst r) < 2 ^ 53).
  { pose proof (Zdigits2_upper mx Hmx) as Hd.
    assert (Hn : Zdigits2 mx <= (e' - ex) + 53) by (subst e'; rewrite fexp_eq; lia).
    assert (Hp : 2 ^ Zdigits2 mx <= 2 ^ (e' - ex) * 2 ^ 53).
    { rewrite <- Z.pow_add_r by lia. apply Z.pow_le_mono_r; lia. }
    rewrite Hdiv. apply Z.div_lt_upper_bound; [lia|].
    apply Z.lt_le_trans with ((mx + 1) * D); [lia|].
    subst S. rewrite (Z.mul_comm (2 ^ (e' - ex) * D)), Z.mul_assoc.
    apply Z.mul_le_mono_nonneg_r; lia. }
  repeat split; trivial; lia.
Qed.

(** Rounding never passes a representable upper bound of the value being
    rounded, whatever the location. *)
Lemma round_ub sx mx ex lx N D sB mB eB :
  0 <= mx ->
  locates (shr_record_of_loc mx lx) N D ->
  ex <= fexp prec emax (Zdigits2 mx + ex) ->
  -2200 <= ex ->
  valid_binary (S754_finite sB mB eB) = true ->
  mval N ex <= mval (Zpos mB) eB * D ->
  let f := binary_round_aux prec emax sx mx ex lx in
  f = S754_zero sx \/
  exists m e, f = S754_finite sx m e /\ mval (Zpos m) e <= mval (Zpos mB) eB.
Proof.
  intros Hmx Hloc Hal Hex HB Hle f.
  pose proof (valid_finite _ _ _ HB) as [HeB HeB'].
  pose proof (valid_mval_bounds _ _ _ HB) as [HBhi _].
  assert (HN : mx * D <= N < (mx + 1) * D).
  { destruct Hloc as (_ & _ & H & _). destruct lx as [|[]]; exact H. }
  assert (HD : 0 < D) by (destruct Hloc as (_ & H & _); exact H).
  pose proof (pow2_gt0 (ex + 2200) ltac:(lia)) as Hu.
  assert (He' : fexp prec emax (Zdigits2 mx + ex) <= eB).
  { destruct mx as [|p|p]; try lia.
    - cbn [Zdigits2] in *. rewrite fexp_eq in *. lia.
    - cbn [Zdigits2]. apply (rounding_exponent_le p ex sB mB eB); trivial.
      apply (Z.mul_le_mono_pos_r _ _ D); trivial.
      apply Z.le_trans with (mval N ex); trivial.
      unfold mval. rewrite <- Z.mul_assoc, (Z.mul_comm (2 ^ (ex + 2200))), Z.mul_assoc.
      apply Z.mul_le_mono_nonneg_r; lia. }
  destruct (binary_round_aux_spec_Z sx mx ex lx N D Hmx Hloc Hal)
    as (m1 & Hf & Hm1 & Hq & Hex0).
  fold f in Hf.
  set (e' := fexp prec emax (Zdigits2 mx + ex)) in *.
  assert (He'lo : -1074 <= e') by (subst e'; rewrite fexp_eq; lia).
  set (S := 2 ^ (e' - ex) * D) in *.
  pose proof (pow2_gt0 (e' - ex) ltac:(lia)) as H2n.
  assert (HS : 0 < S) by (subst S; apply Z.mul_pos_pos; trivial).
  set (MB := Zpos mB * 2 ^ (eB - e')).
  assert (HMB : mval (Zpos mB) eB = mval MB e') by (apply mval_shift; lia).
  assert (Hsh : mval MB e' = mval (MB * 2 ^ (e' - ex)) ex) by (apply mval_shift; lia).
  assert (HNMB : N <= MB * S).
  { rewrite HMB, Hsh in Hle. unfold mval in Hle.
    apply (Z.mul_le_mono_pos_r _ _ (2 ^ (ex + 2200))); trivial.
    subst S. replace (MB * (2 ^ (e' - ex) * D) * 2 ^ (ex + 2200))
      with (MB * 2 ^ (e' - ex) * 2 ^ (ex + 2200) * D) by ring. exact Hle. }
  assert (Hm1MB : m1 <= MB).
  { assert (Hdiv : N / S <= MB) by (apply Z.div_le_upper_bound; lia).
    destruct (Z.eq_dec (N / S) MB) as [E|NE]; [|lia].
    rewrite Hex0; [lia|].
    pose proof (Z.mul_div_le N S HS).
    rewrite Z.mod_eq by lia. rewrite E in *. lia. }
  pose proof (pow2_gt0 (e' + 2200) ltac:(lia)) as Hu'.
  assert (Hval : mval m1 e' <= mval (Zpos mB) eB).
  { rewrite HMB. unfold mval. apply Z.mul_le_mono_nonneg_r; lia. }
  destruct (Z.eq_dec m1 0) as [->|Hnz]; [left; rewrite Hf; apply finish_zero|].
  right. destruct (Z.eq_dec m1 (2 ^ 53)) as [->|Hnc].
  - assert (e' < eB).
    { destruct (Z.eq_dec e' eB) as [E|]; [|lia]. exfalso.
      rewrite E in Hval. lia. }
    rewrite finish_carry in Hf by trivial.
    replace (e' + 1 <=? 971) with true in Hf by (symmetry; apply Z.leb_le; lia).
    exists (Z.to_pos (2 ^ 52)), (e' + 1). split; [exact Hf|].
    rewrite Z2Pos.id by reflexivity.
    rewrite (mval_shift (2 ^ 52) e' (e' + 1)) by lia.
    replace (e' + 1 - e') with 1 by lia. exact Hval.
  - rewrite finish_small in Hf by lia.
    replace (e' <=? 971) with true in Hf by (symmetry; apply Z.leb_le; lia).
    exists (Z.to_pos m1), e'. split; [exact Hf|].
    rewrite Z2Pos.id by lia. exact Hval.
Qed.

(** A quotient of positive numbers does not pass a representable upper
    bound of the exact quotient. *)
Lemma SFdiv_pos_ub mx ex my ey sB mB eB :
  valid_binary (S754_finite false mx ex) = true ->
  valid_binary (S754_finite false my ey) = true ->
  valid_binary (S754_finite sB mB eB) = true ->
  mval (Zpos mx) ex * 2 ^ 2200 <= mval (Zpos mB) eB * mval (Zpos my) ey ->
  let f := SF64div (S754_finite false mx ex) (S754_finite false my ey) in
  f = S754_zero false \/
  exists m e, f = S754_finite false m e /\ mval (Zpos m) e <= mval (Zpos mB) eB.
Proof.
  intros Vx Vy VB Hle f. subst f. unfold SF64div. cbn [SFdiv xorb].
  rewrite SFdiv_core_spec.
  pose proof (valid_finite _ _ _ Vx) as [Hex Hex'].
  pose proof (valid_finite _ _ _ Vy) as [Hey Hey'].
  set (d1 := Zpos (digits2_pos mx)) in *. set (d2 := Zpos (digits2_pos my)) in *.
  set (e' := Z.min (fexp prec emax (d1 + ex - (d2 + ey))) (ex - ey)).
  set (s := ex - ey - e').
  assert (Hs : 0 <= s) by (subst s e'; lia).
  set (N := Zpos mx * 2 ^ s).
  pose proof (pow2_gt0 s Hs) as H2s.
  assert (HN : 0 < N) by (subst N; apply Z.mul_pos_pos; lia).
  set (q := N / Zpos my). set (r := N mod Zpos my).
  assert (Hqr : N = q * Zpos my + r) by (subst q r; rewrite Z.mul_comm; apply Z.div_mod; lia).
  assert (Hr : 0 <= r < Zpos my) by (subst r; apply Z.mod_pos_bound; lia).
  assert (Hq0 : 0 <= q) by (subst q; apply Z.div_pos; lia).
  assert (He'lo : -2200 <= e') by (subst e'; rewrite fexp_eq; lia).
  pose proof (digits2_pos_bounds mx) as [Hlx Hhx].
  pose proof (digits2_pos_bounds my) as [Hly Hhy].
  fold d1 in Hlx, Hhx. fold d2 in Hly, Hhy.
  assert (Hd1 : 0 < d1) by (subst d1; lia). assert (Hd2 : 0 < d2) by (subst d2; lia).
  assert (E1 : 2 ^ (ex + 2200) * 2 ^ 2200 = 2 ^ (ex - ey + 2200) * 2 ^ (ey + 2200)).
  { rewrite <- !Z.pow_add_r by lia. f_equal. lia. }
  assert (E2 : 2 ^ s * 2 ^ (e' + 2200) = 2 ^ (ex - ey + 2200)).
  { rewrite <- Z.pow_add_r by lia. f_equal. subst s. lia. }
  pose proof (pow2_gt0 (ey + 2200) ltac:(lia)) as HP.
  assert (HleN : mval N e' <= mval (Zpos mB) eB * Zpos my).
  { unfold mval in Hle |- *. subst N.
    rewrite <- (Z.mul_assoc (Zpos mx)), E2.
    apply (Z.mul_le_mono_pos_r _ _ (2 ^ (ey + 2200))); trivial.
    rewrite <- (Z.mul_assoc (Zpos mx)), <- E1.
    rewrite <- !Z.mul_assoc in Hle |- *. exact Hle. }
  assert (Hal : e' <= fexp prec emax (Zdigits2 q + e')).
  { rewrite fexp_eq. destruct (Z.le_gt_cases e' (-1074)) as [Hsub|Hn]; [lia|].
    assert (Hs' : d2 - d1 + 53 <= s) by (subst s e'; rewrite fexp_eq in *; lia).
    assert (H52 : 2 ^ 52 <= q).
    { subst q. apply Z.div_le_lower_bound; [lia|].
      apply Z.le_trans with (2 ^ d2 * 2 ^ 52).
      { apply Z.mul_le_mono_nonneg_r; [apply Z.pow_nonneg|]; lia. }
      subst N. rewrite <- Z.pow_add_r by lia.
      apply Z.le_trans with (2 ^ (d1 - 1) * 2 ^ s).
      - rewrite <- Z.pow_add_r by lia. apply Z.pow_le_mono_r; lia.
      - apply Z.mul_le_mono_nonneg_r; lia. }
    pose proof (Zdigits2_upper q Hq0) as Hhq.
    assert (52 < Zdigits2 q).
    { apply pow2_lt_inv; [|lia]. destruct q; cbn [Zdigits2]; lia. }
    lia. }
  fold N. fold q. fold r.
  apply (round_ub false q e' _ N (Zpos my) sB mB eB); trivial.
  rewrite Hqr. apply new_location_locates; lia.
Qed.

Local Close Scope Z_scope.

(** ** The bounds on primitive floats *)

Lemma fcompare x y :
  is_finite x = true -> is_finite y = true ->
  SFcompare (Prim2SF x) (Prim2SF y) = Some (fval x ?= fval y)%Z.
Proof.
  rewrite !is_finite_spec. intros Hx Hy.
  apply SFcompare_zval; trivial; apply Prim2SF_valid.
Qed.

Lemma leb_fval x y :
  is_finite x = true -> is_finite y = true -> (x <=? y) = (fval x <=? fval y)%Z.
Proof.
  intros Hx Hy. rewrite leb_spec. unfold SFleb. rewrite fcompare by trivial.
  unfold Z.leb. destruct (fval x ?= fval y)%Z; reflexivity.
Qed.

Lemma ltb_fval x y :
  is_finite x = true -> is_finite y = true -> (x <? y) = (fval x <? fval y)%Z.
Proof.
  intros Hx Hy. rewrite ltb_spec. unfold SFltb. rewrite fcompare by trivial.
  unfold Z.ltb. destruct (fval x ?= fval y)%Z; reflexivity.
Qed.

Lemma eqb_fval x y :
  is_finite x = true -> is_finite y = true -> (x =? y) = (fval x =? fval y)%Z.
Proof.
  intros Hx Hy. rewrite eqb_spec. unfold SFeqb. rewrite fcompare by trivial.
  destruct (Z.compare_spec (fval x) (fval y)) as [E|L|L]; symmetry.
  - apply Z.eqb_eq; trivial.
  - apply Z.eqb_neq; lia.
  - apply Z.eqb_neq; lia.
Qed.

Lemma mul_nonneg_ub x y B :
  is_finite x = true -> is_finite y = true -> is_finite B = true ->
  (0 <= fval x)%Z -> (0 <= fval y)%Z ->
  (fval x * fval y <= fval B * 2 ^ 2200)%Z ->
  is_finite (x * y) = true /\ (0 <= fval (x * y) <= fval B)%Z.
Proof.
  unfold fval. rewrite !is_finite_spec, mul_spec. intros.
  apply SFmul_nonneg_ub; trivial; apply Prim2SF_valid.
Qed.

Lemma add_nonneg_ub x y B :
  is_finite x = true -> is_finite y = true -> is_finite B = true ->
  (0 <= fval x)%Z -> (0 <= fval y)%Z ->
  (fval x + fval y <= fval B)%Z ->
  is_finite (x + y) = true /\ (0 <= fval (x + y) <= fval B)%Z.
Proof.
  unfold fval. rewrite !is_finite_spec, add_spec. intros.
  apply SFadd_nonneg_ub; trivial; apply Prim2SF_valid.
Qed.

Lemma add_nonneg_lb x y A :
  is_finite x = true -> is_finite y = true -> is_finite A = true ->
  (0 <= fval x)%Z -> (0 <= fval y)%Z ->
  (fval A <= fval x + fval y)%Z ->
  (A <=? x + y) = true.
Proof.
  intros Hx Hy HA Nx Ny Hle.
  destruct (SFadd_nonneg_lb (Prim2SF x) (Prim2SF y) (Prim2SF A)) as [Hinf|[Hf Hv]];
    try apply Prim2SF_valid; try (rewrite <- is_finite_spec; assumption); trivial.
  - rewrite leb_spec, add_spec, Hinf. rewrite is_finite_spec in HA.
    destruct (Prim2SF A) as [[]|[]| |[] ? ?]; try discriminate; reflexivity.
  - rewrite <- add_spec in Hf, Hv. rewrite <- is_finite_spec in Hf.
    rewrite leb_fval by trivial. apply Z.leb_le. exact Hv.
Qed.

Lemma between_finite a r b :
  is_finite a = true -> is_finite b = true ->
  (a <=? r) = true -> (r <? b) = true -> is_finite r = true.
Proof.
  rewrite !is_finite_spec, leb_spec, ltb_spec. unfold SFleb, SFltb.
  destruct (Prim2SF a) as [[]|[]| |[] ? ?]; cbn [sf_finite]; try discriminate;
  destruct (Prim2SF b) as [[]|[]| |[] ? ?]; cbn [sf_finite]; try discriminate;
  destruct (Prim2SF r) as [[]|[]| |[] ? ?]; cbn [sf_finite SFcompare];
    try discriminate; reflexivity.
Qed.

(** A draw of [0, 1): finite, with a value in [0, 2^2200). *)
Lemma unit_interval_fval r :
  (0 <=? r) = true -> (r <? 1) = true ->
  is_finite r = true /\ (0 <= fval r < 2 ^ 2200)%Z.
Proof.
  intros H0 H1.
  assert (Hf : is_finite r = true) by (apply (between_finite 0 r 1); trivial).
  split; trivial.
  rewrite leb_fval in H0 by trivial. rewrite ltb_fval in H1 by trivial.
  apply Z.leb_le in H0. apply Z.ltb_lt in H1.
  change (fval 0) with 0%Z in H0.
  assert (E : fval 1 = (2 ^ 2200)%Z) by (vm_compute; reflexivity).
  rewrite E in H1. split; assumption.
Qed.

(** A draw scaled by a width and moved by an origin stays between the
    origin and any representable number above origin plus width. *)
Lemma scaled_draw_bounds r width x B :
  (0 <=? r) = true -> (r <? 1) = true ->
  is_finite width = true -> is_finite x = true -> is_finite B = true ->
  (0 <= fval width)%Z -> (0 <= fval x)%Z ->
  (fval width + fval x <= fval B)%Z ->
  (x <=? r * width + x) = true /\ (r * width + x <=? B) = true.
Proof.
  intros H0 H1 Fw Fx FB Nw Nx Hsum.
  destruct (unit_interval_fval r H0 H1) as [Fr [Nr Hr]].
  destruct (mul_nonneg_ub r width width Fr Fw Fw Nr Nw) as [Ft [Nt Ht]].
  { rewrite (Z.mul_comm (fval width)).
    apply Z.mul_le_mono_nonneg_r; [exact Nw | apply Z.lt_le_incl; exact Hr]. }
  split.
  - apply add_nonneg_lb; trivial. lia.
  - destruct (add_nonneg_ub (r * width) x B Ft Fx FB Nt Nx ltac:(lia)) as [Fs [_ Hs]].
    rewrite leb_fval by trivial. apply Z.leb_le. exact Hs.
Qed.

Lemma mul_nonneg_ub_near x y B mB eB :
  is_finite x = true -> is_finite y = true ->
  Prim2SF B = S754_finite false mB eB ->
  (0 <= fval x)%Z -> (0 <= fval y)%Z ->
  (2 ^ 52 <= Zpos mB)%Z ->
  (2 * (fval x * fval y) < mval (2 * Zpos mB + 1) eB * 2 ^ 2200)%Z ->
  is_finite (x * y) = true /\ (0 <= fval (x * y) <= fval B)%Z.
Proof.
  unfold fval. rewrite !is_finite_spec, mul_spec. intros Fx Fy HB Nx Ny Hn Hlt.
  rewrite HB. cbn [zval cond_Zopp].
  apply (SFmul_nonneg_ub_near _ _ false mB eB); trivial; try apply Prim2SF_valid.
  rewrite <- HB. apply Prim2SF_valid.
Qed.

(** The vertical coordinate of a vertex of the run's path stays strictly
    below 700: the product with 600 rounds to the number before 600 at
    most. *)
Lemma draw_times_600_plus_100 r :
  (0 <=? r) = true -> (r <? 1) = true -> (r * 600 + 100 <? 700) = true.
Proof.
  intros H0 H1.
  destruct (unit_interval_fval r H0 H1) as [Fr [Nr Hr]].
  assert (Hr' : (fval r <= (2 ^ 53 - 1) * 2 ^ 2147)%Z).
  { apply zval_below_one; [apply Prim2SF_valid | rewrite <- is_finite_spec; trivial | split; trivial]. }
  set (B1 := 0x1.2bfffffffffffp+9). set (B2 := 0x1.5dfffffffffffp+9).
  destruct (mul_nonneg_ub_near r 600 B1 5277655813324799 (-43) Fr eq_refl eq_refl Nr)
    as [Ft [Nt Ht]].
  - vm_compute. discriminate.
  - vm_compute. discriminate.
  - apply Z.le_lt_trans with (2 * ((2 ^ 53 - 1) * 2 ^ 2147 * fval 600))%Z.
    + apply Z.mul_le_mono_nonneg_l; [lia|].
      apply Z.mul_le_mono_nonneg_r; [vm_compute; discriminate | exact Hr'].
    + vm_compute. reflexivity.
  - destruct (add_nonneg_ub (r * 600) 100 B2 Ft eq_refl eq_refl Nt) as [Fs [_ Hs]].
    + vm_compute. discriminate.
    + apply Z.le_trans with (fval B1 + fval 100)%Z; [lia|]. vm_compute. discriminate.
    + rewrite ltb_fval by trivial. apply Z.ltb_lt.
      apply Z.le_lt_trans with (fval B2); trivial. vm_compute. reflexivity.
Qed.

(** ** Numbers that are not negative *)

Lemma finish_not_neg m e : sf_not_neg (finish false m e) = true.
Proof.
  unfold finish. destruct (shr_fexp prec emax m e loc_Exact) as [mrs e2].
  destruct (shr_m mrs); trivial. destruct (e2 <=? emax - prec)%Z; reflexivity.
Qed.

Lemma binary_round_aux_not_neg m e l :
  sf_not_neg (binary_round_aux prec emax false m e l) = true.
Proof. rewrite binary_round_aux_finish. apply finish_not_neg. Qed.

Lemma binary_round_not_neg m e : sf_not_neg (binary_round prec emax false m e) = true.
Proof.
  unfold binary_round. destruct (shl_align m e _) as [mz ez].
  apply binary_round_aux_not_neg.
Qed.

Lemma mul_self_not_neg x : not_neg (x * x) = true.
Proof.
  unfold not_neg. rewrite mul_spec. unfold SF64mul.
  destruct (Prim2SF x) as [[]|[]| |[] m e]; cbn [SFmul xorb sf_not_neg]; trivial;
    apply binary_round_aux_not_neg.
Qed.

Lemma add_not_neg a b : not_neg a = true -> not_neg b = true -> not_neg (a + b) = true.
Proof.
  unfold not_neg. rewrite add_spec. unfold SF64add.
  destruct (Prim2SF a) as [[]|[]| |[] ma ea]; cbn [sf_not_neg]; try discriminate;
  destruct (Prim2SF b) as [[]|[]| |[] mb eb]; cbn [sf_not_neg SFadd]; try discriminate;
    trivial; intros _ _; apply binary_round_not_neg.
Qed.

Lemma sqrt_not_neg x : not_neg x = true -> not_neg (sqrt x) = true.
Proof.
  unfold not_neg. rewrite sqrt_spec. unfold SF64sqrt.
  destruct (Prim2SF x) as [[]|[]| |[] m e]; cbn [SFsqrt sf_not_neg]; trivial.
  intros _. destruct (SFsqrt_core_binary prec emax (Zpos m) e) as [[mz ez] lz].
  apply binary_round_aux_not_neg.
Qed.

Lemma Len_not_neg v : not_neg (Len v) = true.
Proof.
  unfold Len. apply sqrt_not_neg, add_not_neg; apply mul_self_not_neg.
Qed.

(** A sum of two numbers that are not negative is zero only if both are. *)
Lemma add_zero_inv a b :
  not_neg a = true -> not_neg b = true -> is_zero (a + b) = true ->
  is_zero a = true /\ is_zero b = true.
Proof.
  unfold not_neg. rewrite !is_zero_spec. intros Na Nb Hz.
  pose proof (Prim2SF_valid a) as Va. pose proof (Prim2SF_valid b) as Vb.
  rewrite add_spec in Hz.
  destruct (Prim2SF a) as [sa|[]| |[] ma ea] eqn:Ea; cbn [sf_not_neg] in Na; try discriminate;
  destruct (Prim2SF b) as [sb|[]| |[] mb eb] eqn:Eb; cbn [sf_not_neg] in Nb; try discriminate;
    try (split; reflexivity);
    try (destruct sa; discriminate Hz); try (destruct sb; discriminate Hz);
    try discriminate Hz.
  exfalso.
  destruct (SFadd_nonneg_lb (S754_finite false ma ea) (S754_finite false mb eb)
              (S754_finite false ma ea)) as [Hi|[Hf Hv]]; trivial;
    try (pose proof (zval_finite_pos _ _ Va); pose proof (zval_finite_pos _ _ Vb); lia).
  - rewrite Hi in Hz. discriminate.
  - pose proof (zval_finite_pos _ _ Va) as Hp.
    destruct (SF64add _ _); try discriminate. cbn [zval cond_Zopp] in Hv, Hp. lia.
Qed.


(** ** Comparisons and special values *)

Lemma sub_le_zero x y :
  is_finite y = true -> (x <=? y) = true -> (x - y <=? 0) = true.
Proof.
  rewrite is_finite_spec, !leb_spec, sub_spec.
  change (Prim2SF 0) with (S754_zero false).
  intros Fy Hle. apply SFsub_le_zero; trivial; apply Prim2SF_valid.
Qed.

Lemma leb_lt_or_eq x y : (x <=? y) = true -> (x <? y) = true \/ (x =? y) = true.
Proof.
  rewrite leb_spec, ltb_spec, eqb_spec. unfold SFleb, SFltb, SFeqb.
  destruct (SFcompare (Prim2SF x) (Prim2SF y)) as [[]|]; try discriminate; auto.
Qed.

Lemma not_ltb_cases a x :
  is_finite a = true -> (a <? x) = false -> (x <=? a) = true \/ is_nan x = true.
Proof.
  intros Fa Hlt.
  destruct (is_finite x) eqn:Fx.
  - left. rewrite ltb_fval in Hlt by trivial. rewrite leb_fval by trivial.
    apply Z.ltb_ge in Hlt. apply Z.leb_le. exact Hlt.
  - revert Fa Fx Hlt. rewrite !is_finite_spec, is_nan_spec, ltb_spec, leb_spec.
    unfold SFltb, SFleb.
    destruct (Prim2SF a) as [[]|[]| |[] ? ?]; cbn [sf_finite]; try discriminate;
    destruct (Prim2SF x) as [[]|[]| |[] ? ?]; cbn [sf_finite SFcompare];
      try discriminate; auto.
Qed.

Lemma sub_nan_l x y : is_nan x = true -> is_nan (x - y) = true.
Proof.
  rewrite !is_nan_spec, sub_spec. unfold SF64sub.
  destruct (Prim2SF x); try discriminate. reflexivity.
Qed.

(** NaN and -Inf divided by ten do not compare greater than zero. *)
Lemma div10_not_pos v :
  is_nan v = true \/ v = neg_infinity -> (0 <? v / 10) = false.
Proof.
  intros [Hn| ->]; [|reflexivity].
  rewrite is_nan_spec in Hn. rewrite ltb_spec, div_spec. unfold SF64div, SFltb.
  destruct (Prim2SF v); try discriminate. reflexivity.
Qed.

(** [series_log] has the special cases of [math.Log]. *)
Lemma series_log_special :
  (forall x, (x <=? 0) = true -> is_nan (series_log x) = true \/ series_log x = neg_infinity) /\
  (forall x, is_nan x = true -> is_nan (series_log x) = true).
Proof.
  split; intros x Hx; unfold series_log.
  - destruct (is_nan x); [left; reflexivity|].
    destruct (leb_lt_or_eq _ _ Hx) as [-> | E]; [left; reflexivity|].
    destruct (x <? 0); [left; reflexivity|]. rewrite E. right; reflexivity.
  - rewrite Hx. reflexivity.
Qed.

Lemma fval_pos_spec x :
  is_finite x = true -> (0 < fval x)%Z -> exists m e, Prim2SF x = S754_finite false m e.
Proof.
  rewrite is_finite_spec. intros Fx Hx.
  apply zval_pos_cases; trivial. apply Prim2SF_valid.
Qed.

Lemma div_pos_lb x y A :
  is_finite x = true -> is_finite y = true -> is_finite A = true ->
  (0 < fval x)%Z -> (0 < fval y)%Z -> (0 < fval A)%Z ->
  (fval A * fval y <= fval x * 2 ^ 2200)%Z ->
  (A <=? x / y) = true.
Proof.
  intros Fx Fy FA Px Py PA Hle.
  destruct (fval_pos_spec x Fx Px) as (mx & ex & Ex).
  destruct (fval_pos_spec y Fy Py) as (my & ey & Ey).
  destruct (fval_pos_spec A FA PA) as (mA & eA & EA).
  pose proof (Prim2SF_valid x) as Vx. pose proof (Prim2SF_valid y) as Vy.
  pose proof (Prim2SF_valid A) as VA. pose proof (Prim2SF_valid (x / y)) as Vq.
  unfold fval in Hle. rewrite Ex, Ey, EA in *. cbn [zval cond_Zopp] in Hle.
  rewrite leb_spec, EA. rewrite div_spec, Ex, Ey in *.
  destruct (SFdiv_pos_lb mx ex my ey false mA eA Vx Vy VA Hle) as [->|(m & e & E & Hm)].
  - reflexivity.
  - rewrite E in *. unfold SFleb. rewrite SFcompare_zval by trivial.
    cbn [zval cond_Zopp].
    destruct (Z.compare_spec (mval (Zpos mA) eA) (mval (Zpos m) e)); trivial. lia.
Qed.

Lemma ltb_leb_trans a b c :
  is_finite a = true -> is_finite b = true ->
  (a <? b) = true -> (b <=? c) = true -> (a <? c) = true.
Proof.
  intros Fa Fb Hab Hbc.
  destruct (is_finite c) eqn:Fc.
  - rewrite ltb_fval in * by trivial. rewrite leb_fval in Hbc by trivial.
    apply Z.ltb_lt in Hab. apply Z.leb_le in Hbc. apply Z.ltb_lt. lia.
  - clear Hab. revert Fa Fb Fc Hbc. rewrite !is_finite_spec, ltb_spec, leb_spec.
    unfold SFltb, SFleb.
    destruct (Prim2SF a) as [[]|[]| |[] ? ?]; cbn [sf_finite]; try discriminate;
    destruct (Prim2SF b) as [[]|[]| |[] ? ?]; cbn [sf_finite]; try discriminate;
    destruct (Prim2SF c) as [[]|[]| |[] ? ?]; cbn [sf_finite SFcompare];
      try discriminate; reflexivity.
Qed.

(** A number that is at least one half, divided by ten, is positive. *)
Lemma half_div10_pos v : (0x1p-1 <=? v) = true -> (0 <? v / 10) = true.
Proof.
  intros Hv. destruct (is_finite v) eqn:Fv.
  - rewrite leb_fval in Hv by trivial. apply Z.leb_le in Hv.
    assert (H5 : (0 < fval 0x1p-1)%Z) by (vm_compute; reflexivity).
    apply (ltb_leb_trans 0 0x1p-5); trivial.
    apply div_pos_lb; trivial; try reflexivity; try lia.
    apply Z.le_trans with (fval 0x1p-1 * 2 ^ 2200)%Z.
    + vm_compute. discriminate.
    + apply Z.mul_le_mono_nonneg_r; [apply Z.pow_nonneg; lia | exact Hv].
  - revert Fv Hv. rewrite is_finite_spec, leb_spec, ltb_spec, div_spec.
    unfold SFleb, SFltb, SF64div.
    change (Prim2SF 0x1p-1) with (S754_finite false 4503599627370496 (-53)).
    change (Prim2SF 10) with (S754_finite false 5629499534213120 (-49)).
    change (Prim2SF 0) with (S754_zero false).
    destruct (Prim2SF v) as [[]|[]| |[] ? ?]; cbn [sf_finite SFcompare SFdiv xorb];
      try discriminate; reflexivity.
Qed.

Lemma mul_le_one_finite t a :
  (abs t <=? 1) = true -> is_finite a = true -> is_finite (t * a) = true.
Proof.
  intros Ht Fa.
  assert (Fabs : is_finite (abs t) = true).
  { revert Ht. rewrite is_finite_spec, leb_spec, abs_spec. unfold SFleb.
    change (Prim2SF 1) with (S754_finite false 4503599627370496 (-52)).
    destruct (Prim2SF t) as [[]|[]| |[] ? ?]; cbn [SFabs sf_finite SFcompare];
      try discriminate; reflexivity. }
  rewrite leb_fval in Ht by trivial. apply Z.leb_le in Ht.
  replace (fval 1) with (2 ^ 2200)%Z in Ht by (vm_compute; reflexivity).
  unfold fval in Ht. rewrite abs_spec in Ht.
  rewrite is_finite_spec, abs_spec in Fabs.
  rewrite is_finite_spec in *. rewrite mul_spec.
  pose proof (Prim2SF_valid t) as Vt.
  apply SFmul_le_one_finite; trivial; try apply Prim2SF_valid.
  - destruct (Prim2SF t); try discriminate; reflexivity.
  - destruct (Prim2SF t) as [st|st| |st m e]; cbn [SFabs zval cond_Zopp] in *;
      try discriminate; try (apply Z.pow_nonneg; lia).
    pose proof (valid_finite _ _ _ Vt) as [He _].
    pose proof (mval_pos (Zpos m) e ltac:(lia) ltac:(lia)).
    destruct st; cbn [cond_Zopp]; lia.
Qed.

(** ** Sums and quotients of numbers that are not negative *)

Lemma add_comm x y : x + y = y + x.
Proof.
  apply Prim2SF_inj. rewrite !add_spec. unfold SF64add.
  destruct (Prim2SF x) as [[]|[]| |sx mx ex]; destruct (Prim2SF y) as [[]|[]| |sy my ey];
    cbn [SFadd]; try reflexivity.
  rewrite (Z.min_comm ey ex), Z.add_comm. reflexivity.
Qed.

Lemma not_neg_fval x : not_neg x = true -> (0 <= fval x)%Z.
Proof.
  unfold not_neg, fval. pose proof (Prim2SF_valid x) as V.
  destruct (Prim2SF x) as [[]|[]| |[] m e]; cbn [sf_not_neg zval]; try discriminate;
    try lia.
  intros _. pose proof (zval_finite_pos _ _ V) as H. cbn [zval] in H. lia.
Qed.

(** A finite sum of two numbers that are not negative has finite terms, each
    at most the sum. *)
Lemma add_finite_inv a b :
  not_neg a = true -> not_neg b = true -> is_finite (a + b) = true ->
  is_finite a = true /\ is_finite b = true /\ (fval a <= fval (a + b))%Z.
Proof.
  intros Na Nb Hf.
  pose proof (not_neg_fval a Na) as Pa. pose proof (not_neg_fval b Nb) as Pb.
  assert (Fab : is_finite a = true /\ is_finite b = true).
  { revert Na Nb Hf. unfold not_neg. rewrite !is_finite_spec, add_spec. unfold SF64add.
    destruct (Prim2SF a) as [[]|[]| |[] ? ?]; cbn [sf_not_neg]; try discriminate;
    destruct (Prim2SF b) as [[]|[]| |[] ? ?]; cbn [sf_not_neg SFadd sf_finite];
      try discriminate; auto. }
  destruct Fab as [Fa Fb]. repeat split; trivial.
  assert (H : (a <=? a + b) = true) by (apply add_nonneg_lb; trivial; lia).
  rewrite leb_fval in H by trivial. apply Z.leb_le. exact H.
Qed.

Lemma eqb_eq_nonzero x y : (x =? y) = true -> is_zero y = false -> x = y.
Proof.
  intros H Hz. apply Prim2SF_inj. revert H Hz. rewrite eqb_spec, is_zero_spec.
  unfold SFeqb.
  destruct (Prim2SF x) as [[]|[]| |[] m e]; destruct (Prim2SF y) as [[]|[]| |[] m' e'];
    cbn [SFcompare sf_zero]; try discriminate; try reflexivity;
    (destruct (Z.compare_spec e e') as [->| |]; try discriminate;
     rewrite Pos.compare_cont_spec; cbn [Pos.switch_Eq];
     destruct (Pos.compare_spec m m') as [->| |]; try discriminate; reflexivity).
Qed.

(** The clamp of [Interpolate] sends every argument from 1 on to 1. *)
Lemma clamp_from_one v : (1 <=? v) = true -> Min 1 (Max 0 v) = 1.
Proof.
  intros Hv. destruct (is_finite v) eqn:Fv.
  - pose proof Hv as Hv'. rewrite leb_fval in Hv' by trivial. apply Z.leb_le in Hv'.
    assert (H1 : (0 < fval 1)%Z) by (vm_compute; reflexivity).
    assert (E1 : (v =? infinity) = false).
    { revert Fv. rewrite is_finite_spec, eqb_spec. unfold SFeqb.
      change (Prim2SF infinity) with (S754_infinity false).
      destruct (Prim2SF v) as [[]|[]| |[] ? ?]; cbn [sf_finite SFcompare];
        try discriminate; reflexivity. }
    assert (E2 : is_nan v = false).
    { revert Fv. rewrite is_finite_spec, is_nan_spec.
      destruct (Prim2SF v); try discriminate; reflexivity. }
    assert (E3 : (0 =? v) = false).
    { rewrite eqb_fval by trivial. apply Z.eqb_neq. change (fval 0) with 0%Z. lia. }
    assert (E4 : (v <? 0) = false).
    { rewrite ltb_fval by trivial. apply Z.ltb_ge. change (fval 0) with 0%Z. lia. }
    assert (E5 : (v =? neg_infinity) = false).
    { revert Fv. rewrite is_finite_spec, eqb_spec. unfold SFeqb.
      change (Prim2SF neg_infinity) with (S754_infinity true).
      destruct (Prim2SF v) as [[]|[]| |[] ? ?]; cbn [sf_finite SFcompare];
        try discriminate; reflexivity. }
    unfold Max. change (0 =? infinity) with false. change (is_nan 0) with false.
    rewrite E1, E2, E3, E4. cbn [orb andb].
    rewrite andb_false_r.
    unfold Min. change (1 =? neg_infinity) with false. change (is_nan 1) with false.
    change (1 =? 0) with false.
    rewrite E5, E2. cbn [orb andb].
    destruct (1 <? v) eqn:E6; trivial.
    rewrite ltb_fval in E6 by trivial. apply Z.ltb_ge in E6.
    apply eqb_eq_nonzero; [|reflexivity].
    rewrite eqb_fval by trivial. apply Z.eqb_eq. lia.
  - assert (v = infinity).
    { apply Prim2SF_inj. revert Fv Hv. rewrite is_finite_spec, leb_spec. unfold SFleb.
      change (Prim2SF 1) with (S754_finite false 4503599627370496 (-52)).
      change (Prim2SF infinity) with (S754_infinity false).
      destruct (Prim2SF v) as [[]|[]| |[] ? ?]; cbn [sf_finite SFcompare];
        try discriminate; reflexivity. }
    subst v. reflexivity.
Qed.

(** A quotient of a non-negative number by a number at least as large
    does not compare greater than 1. *)
Lemma div_le_one x L :
  is_finite x = true -> is_finite L = true ->
  (0 <= fval x <= fval L)%Z -> (0 < fval L)%Z ->
  (1 <? x / L) = false.
Proof.
  intros Fx FL [Hx0 HxL] HL.
  destruct (fval_pos_spec L FL HL) as (mL & eL & EL).
  pose proof (Prim2SF_valid x) as Vx. pose proof (Prim2SF_valid L) as VL.
  pose proof (Prim2SF_valid (x / L)) as Vq.
  rewrite ltb_spec. rewrite div_spec in *. rewrite EL in *.
  change (Prim2SF 1) with (S754_finite false 4503599627370496 (-52)).
  assert (V1 : valid_binary (S754_finite false 4503599627370496 (-52)) = true)
    by reflexivity.
  assert (E1 : (mval 4503599627370496 (-52) = 2 ^ 2200)%Z) by (vm_compute; reflexivity).
  destruct (Z.eq_dec (fval x) 0) as [Hz|Hnz].
  - rewrite is_finite_spec in Fx. unfold fval in Hz, Hx0.
    destruct (zval_nonneg_cases _ Fx Vx Hx0) as [[s E]|(m & e & E)]; rewrite E in *.
    + destruct s; reflexivity.
    + pose proof (zval_finite_pos _ _ Vx). lia.
  - destruct (fval_pos_spec x Fx ltac:(lia)) as (mx & ex & Ex).
    unfold fval in *. rewrite Ex, ?EL in *. cbn [zval cond_Zopp] in *.
    destruct (SFdiv_pos_ub mx ex mL eL false 4503599627370496 (-52) Vx VL V1)
      as [E|(m & e & E & Hm)].
    + rewrite E1. rewrite (Z.mul_comm (2 ^ 2200)).
      apply Z.mul_le_mono_nonneg_r; [apply Z.pow_nonneg; lia | exact HxL].
    + rewrite E. reflexivity.
    + rewrite E in *. unfold SFltb. rewrite SFcompare_zval by trivial.
      cbn [zval cond_Zopp].
      destruct (Z.compare_spec (mval 4503599627370496 (-52)) (mval (Zpos m) e));
        trivial. lia.
Qed.
(** ** Rotation about the point itself (C9) *)

Section Rotation.
Context `{GoMath}.

Lemma zero_terms_sum a b c s :
  is_zero a = true -> is_zero b = true ->
  is_finite c = true -> is_finite s = true ->
  is_zero (a * c + b * s) = true /\ is_zero (a * c - b * s) = true.
Proof.
  intros Ha Hb Hc Hs.
  pose proof (mul_zero_l a c Ha Hc). pose proof (mul_zero_l b s Hb Hs).
  split; [apply add_zero_zero | apply sub_zero_zero]; assumption.
Qed.

(** C9. For every vector [v] with finite coordinates and every angle whose
    cosine and sine are finite, [RotateAround v v angle] equals [v] under
    Go's [==]: a point is a fixed point of the rotation about itself.  The
    coordinates come back bit for bit, except that a zero coordinate may
    come back as a zero of the other sign. *)
Theorem C9_rotate_around_self (v : Vector) (angle : float) :
  finite_vec v = true ->
  is_finite (Cos angle) = true -> is_finite (Sin angle) = true ->
  veq (RotateAround v v angle) v = true /\
  (is_zero (X v) = false -> X (RotateAround v v angle) = X v) /\
  (is_zero (Y v) = false -> Y (RotateAround v v angle) = Y v).
Proof.
  unfold finite_vec, veq, RotateAround. destruct v as [x y]; cbn [X Y].
  intros Hv Hc Hs. apply andb_prop in Hv as [Hx Hy].
  pose proof (sub_diag x Hx) as Zx. pose proof (sub_diag y Hy) as Zy.
  destruct (zero_terms_sum _ _ _ _ Zx Zy Hc Hs) as [Sx _].
  destruct (zero_terms_sum _ _ _ _ Zy Zx Hc Hs) as [_ Sy].
  repeat split.
  - apply andb_true_intro; split; apply add_zero_l; trivial.
  - intros Hn. apply add_zero_l_exact; trivial.
  - intros Hn. apply add_zero_l_exact; trivial.
Qed.
End Rotation.

Lemma C9_rotate_around_self_witness :
  veq (@RotateAround seriesMath (mkVector 3 (-4)) (mkVector 3 (-4)) 0x1.8p+0)
      (mkVector 3 (-4)) = true.
Proof.
  apply (@C9_rotate_around_self seriesMath (mkVector 3 (-4)) 0x1.8p+0);
    vm_compute; reflexivity.
Defined.

(** ** The integrator at a zero time step (C8) *)

Section UpdateZero.
Context `{GoMath}.

(** The displacement of a tick of length zero: every coordinate of the
    rotated vector is a zero. *)
Lemma rotated_zero_displacement (v : Vector) (rot : float) :
  finite_vec v = true ->
  is_finite (Cos rot) = true -> is_finite (Sin rot) = true ->
  zero_vec (RotateAround (Scale v 0) Null rot) = true.
Proof.
  unfold finite_vec, zero_vec, RotateAround, Scale, Null. destruct v as [x y]; cbn [X Y].
  intros Hv Hc Hs. apply andb_prop in Hv as [Hx Hy].
  assert (Z0 : is_zero 0 = true) by reflexivity.
  pose proof (mul_zero_l 0 x Z0 Hx) as Zx. pose proof (mul_zero_l 0 y Z0 Hy) as Zy.
  pose proof (sub_zero_zero _ _ Zx Z0) as Dx. pose proof (sub_zero_zero _ _ Z0 Zy) as Dy.
  destruct (zero_terms_sum _ _ _ _ Dx Dy Hc Hs) as [Sx _].
  destruct (zero_terms_sum _ _ _ _ Dy Dx Hc Hs) as [_ Sy].
  apply andb_true_intro; split; apply add_zero_zero; trivial.
Qed.

(** C8.  For every vehicle state with finite position, velocity and
    acceleration, a friction factor of magnitude at most 1 and a heading
    with a finite cosine and sine, [Update car 0] leaves position and
    velocity unchanged (under Go's [==]; bit for bit in every non-zero
    coordinate), multiplies the acceleration by [Tension], and leaves
    rotation, mass, size, bounds, tension and sensitivity as they are. *)
Theorem C8_update_zero (car : CarModel) :
  finite_vec (Position car) = true ->
  finite_vec (Velocity car) = true ->
  finite_vec (Acceleration car) = true ->
  (abs (Tension car) <=? 1) = true ->
  is_finite (Cos (Rotation car)) = true -> is_finite (Sin (Rotation car)) = true ->
  let car' := Update car 0 in
  veq (Position car') (Position car) = true /\
  veq (Velocity car') (Velocity car) = true /\
  (is_zero (X (Position car)) = false -> X (Position car') = X (Position car)) /\
  (is_zero (Y (Position car)) = false -> Y (Position car') = Y (Position car)) /\
  (is_zero (X (Velocity car)) = false -> X (Velocity car') = X (Velocity car)) /\
  (is_zero (Y (Velocity car)) = false -> Y (Velocity car') = Y (Velocity car)) /\
  Acceleration car' = Scale (Acceleration car) (Tension car) /\
  Rotation car' = Rotation car /\ Mass car' = Mass car /\ Size car' = Size car /\
  Bounds car' = Bounds car /\ Tension car' = Tension car /\
  Sensitivity car' = Sensitivity car.
Proof.
  intros Hp Hv Hacc Ht Hc Hs car'. subst car'. unfold Update. cbn.
  assert (Ha : finite_vec (Scale (Acceleration car) (Tension car)) = true).
  { apply andb_prop in Hacc as [Hx Hy]. unfold finite_vec, Scale; cbn [X Y].
    apply andb_true_intro; split; apply mul_le_one_finite; trivial. }
  set (acc := Scale (Acceleration car) (Tension car)) in *.
  assert (Z0 : is_zero 0 = true) by reflexivity.
  apply andb_prop in Ha as [Hax Hay].
  pose proof (mul_zero_l 0 _ Z0 Hax) as Zx. pose proof (mul_zero_l 0 _ Z0 Hay) as Zy.
  pose proof Hv as Hv'. apply andb_prop in Hv' as [Hvx Hvy].
  pose proof Hp as Hp'. apply andb_prop in Hp' as [Hpx Hpy].
  assert (Hv2 : finite_vec (Add (Velocity car) (Scale acc 0)) = true).
  { unfold finite_vec, Add, Scale; cbn [X Y].
    apply andb_true_intro; split; apply add_zero_r_finite; trivial. }
  pose proof (rotated_zero_displacement _ (Rotation car) Hv2 Hc Hs) as Hd.
  apply andb_prop in Hd as [Hdx Hdy].
  repeat split; try reflexivity.
  - unfold veq, Add; cbn [X Y].
    apply andb_true_intro; split; apply add_zero_r; trivial.
  - unfold veq, Add, Scale; cbn [X Y].
    apply andb_true_intro; split; apply add_zero_r; trivial.
  - intros Hn. apply add_zero_r_exact; trivial.
  - intros Hn. apply add_zero_r_exact; trivial.
  - intros Hn. apply add_zero_r_exact; trivial.
  - intros Hn. apply add_zero_r_exact; trivial.
Qed.
End UpdateZero.

Lemma C8_update_zero_witness :
  let car := mkCar (mkVector 100 50) (mkVector 7 (-3)) (mkVector 2 1) (mkVector 4 5)
                   [] 1 0x1.8p+0 0x1.fff2e48e8a71ep-1 50 in
  veq (Position (@Update seriesMath car 0)) (Position car) = true /\
  veq (Velocity (@Update seriesMath car 0)) (Velocity car) = true.
Proof.
  intros car.
  pose proof (@C8_update_zero seriesMath car) as W.
  split; apply W; vm_compute; reflexivity.
Defined.

(** ** The brake ignores its argument (C10) *)

(** C10. For every vehicle state and any two magnitudes [d1] and [d2],
    [Break car d1] and [Break car d2] are the same state: the acceleration
    scaled by [Tension / Sensitivity] and the velocity by [Tension],
    whatever the commanded magnitude -- also the [brakeSignal] that [Feed]
    passes. *)
Theorem C10_break_ignores_magnitude (car : CarModel) (d1 d2 : float) :
  Break car d1 = Break car d2 /\
  Acceleration (Break car d1) = Scale (Acceleration car) (Tension car / Sensitivity car) /\
  Velocity (Break car d1) = Scale (Velocity car) (Tension car) /\
  Position (Break car d1) = Position car /\ Rotation (Break car d1) = Rotation car.
Proof. repeat split. Qed.

(** ** Interpolation on a degenerate polygon (C4) *)

Lemma all_zero_repeat n : all_zero (repeat 0 n).
Proof. induction n; constructor; trivial. Qed.

Lemma all_zero_get l i : all_zero l -> is_zero (get_at l i) = true.
Proof.
  unfold get_at. intros Hl. revert i.
  induction Hl; intros [|i]; simpl; trivial.
Qed.

Lemma all_zero_set l i x : all_zero l -> is_zero x = true -> all_zero (set_at l i x).
Proof.
  intros Hl Hx. revert i.
  induction Hl; intros [|i]; simpl; constructor; trivial. apply IHHl.
Qed.

Lemma div_zero_zero a b : is_zero a = true -> is_zero b = true -> is_nan (a / b) = true.
Proof. to_spec. sf_destruct a; sf_destruct b. Qed.

Lemma ltb_nan x y : is_nan y = true -> (x <? y) = false.
Proof.
  to_spec. unfold SFltb.
  destruct (Prim2SF y); try discriminate. intros _.
  destruct (Prim2SF x); reflexivity.
Qed.

(** The first loop keeps every partial sum at zero while the edges it
    measures have length zero. *)
Lemma measure_loop_zero (p : Polygon) (pointCount : nat) :
  forall todo i connections len,
    (forall j, (i <= j < i + todo)%nat ->
       is_zero (Len (Add (at_ p ((j + 1) mod pointCount)) (Scale (at_ p j) (-1)))) = true) ->
    all_zero connections -> is_zero len = true ->
    all_zero (fst (measure_loop p pointCount todo i connections len)) /\
    is_zero (snd (measure_loop p pointCount todo i connections len)) = true.
Proof.
  induction todo as [|todo IH]; intros i connections len He Hc Hl; simpl.
  - split; assumption.
  - assert (Hd := He i ltac:(lia)).
    apply IH.
    + intros j Hj. apply He. lia.
    + apply all_zero_set; trivial.
      apply add_zero_zero; trivial. apply all_zero_get; trivial.
    + apply add_zero_zero; trivial.
Qed.

(** With a zero perimeter every quotient is NaN and no segment is chosen. *)
Lemma search_loop_zero (p : Polygon) (pointCount : nat) connections len target :
  all_zero connections -> is_zero len = true ->
  forall todo i, search_loop p pointCount todo i connections len target = None.
Proof.
  intros Hc Hl. induction todo as [|todo IH]; intros i; simpl; trivial.
  rewrite ltb_nan; [apply IH|].
  apply div_zero_zero; trivial. apply all_zero_get; trivial.
Qed.

Lemma Interpolate_zero_edges (p : Polygon) (v : float) :
  (forall i, (i < length p)%nat -> is_zero (edge_length p i) = true) ->
  Interpolate p v = Null.
Proof.
  intros He. unfold Interpolate.
  destruct (measure_loop p (length p) (length p) 0 (repeat 0 (length p + 1)) 0)
    as [connections len] eqn:E.
  destruct (measure_loop_zero p (length p) (length p) 0 (repeat 0 (length p + 1)) 0)
    as [Hc Hl].
  - intros j Hj. apply He. lia.
  - apply all_zero_repeat.
  - reflexivity.
  - rewrite E in Hc, Hl; cbn [fst snd] in Hc, Hl.
    rewrite search_loop_zero; trivial.
Qed.

(** The first loop with a perimeter of zero has only met edges of length
    zero. *)
Lemma measure_loop_zero_inv (p : Polygon) (pointCount : nat) :
  forall todo i connections len,
    not_neg len = true ->
    is_zero (snd (measure_loop p pointCount todo i connections len)) = true ->
    is_zero len = true /\
    forall j, (i <= j < i + todo)%nat ->
      is_zero (Len (Add (at_ p ((j + 1) mod pointCount)) (Scale (at_ p j) (-1)))) = true.
Proof.
  induction todo as [|todo IH]; intros i connections len Hn Hz; simpl in Hz.
  - split; trivial. intros j Hj. lia.
  - apply IH in Hz; [|apply add_not_neg; trivial; apply Len_not_neg].
    destruct Hz as [Hs He].
    apply add_zero_inv in Hs as [Hl Hd]; trivial; [|apply Len_not_neg].
    split; trivial. intros j Hj.
    destruct (Nat.eq_dec j i) as [->|Hne]; trivial. apply He. lia.
Qed.

(** C4 (as the code has it).  For every polygon whose perimeter, as
    [Interpolate] computes it, is zero -- the empty polygon, a single
    vertex, coincident vertices -- [Interpolate p v] is the origin [Null]
    for every [v]: the quotients by the zero perimeter are NaN, no
    comparison succeeds, and the fall-through value is returned.  No NaN
    reaches the result, but the result is the origin, not the first
    vertex. *)
Theorem C4_zero_perimeter_gives_origin (p : Polygon) (v : float) :
  is_zero (perimeter p) = true ->
  Interpolate p v = Null /\
  (forall i, (i < length p)%nat -> is_zero (edge_length p i) = true).
Proof.
  intros Hz. unfold perimeter in Hz.
  apply measure_loop_zero_inv in Hz as [_ He]; [|reflexivity].
  assert (He' : forall i, (i < length p)%nat -> is_zero (edge_length p i) = true).
  { intros i Hi. apply He. lia. }
  split; trivial. apply Interpolate_zero_edges; trivial.
Qed.

Lemma C4_zero_perimeter_gives_origin_witness :
  Interpolate [mkVector 5 5; mkVector 5 5] 0x1p-1 = Null.
Proof.
  apply (C4_zero_perimeter_gives_origin [mkVector 5 5; mkVector 5 5] 0x1p-1).
  reflexivity.
Defined.

(** A single vertex away from the origin: the perimeter is zero and the
    interpolation returns the origin, which is not that vertex. *)
Lemma C4_first_vertex_not_returned :
  is_zero (perimeter [mkVector 5 5]) = true /\
  Interpolate [mkVector 5 5] 0x1p-1 = Null /\
  veq (Interpolate [mkVector 5 5] 0x1p-1) (at_ [mkVector 5 5] 0) = false.
Proof. repeat split. Qed.

(** ** Interpolation at the ends of the parameter range (C1) *)

Lemma set_at_length l i x : length (set_at l i x) = length l.
Proof. revert i. induction l as [|h t IH]; intros [|i]; simpl; auto. Qed.

Lemma get_set_same l i x : (i < length l)%nat -> get_at (set_at l i x) i = x.
Proof.
  unfold get_at. revert i. induction l as [|h t IH]; intros [|i] Hi; simpl in *;
    try lia; trivial. apply IH. lia.
Qed.

Lemma get_set_other l i j x : i <> j -> get_at (set_at l i x) j = get_at l j.
Proof.
  unfold get_at. revert i j. induction l as [|h t IH]; intros [|i] [|j] Hij; simpl;
    trivial; try lia. apply IH. lia.
Qed.

(** When the perimeter is finite, every entry of [connections] is a finite
    number between zero and the perimeter. *)
Lemma measure_loop_bounded (p : Polygon) (pointCount : nat) :
  forall todo i connections len,
    not_neg len = true ->
    length connections = (pointCount + 1)%nat -> (i + todo = pointCount)%nat ->
    get_at connections i = len ->
    (forall j, not_neg (get_at connections j) = true) ->
    (is_finite len = true ->
     forall j, is_finite (get_at connections j) = true /\
               (fval (get_at connections j) <= fval len)%Z) ->
    is_finite (snd (measure_loop p pointCount todo i connections len)) = true ->
    forall j,
      is_finite (get_at (fst (measure_loop p pointCount todo i connections len)) j) = true /\
      (0 <= fval (get_at (fst (measure_loop p pointCount todo i connections len)) j)
         <= fval (snd (measure_loop p pointCount todo i connections len)))%Z.
Proof.
  induction todo as [|todo IH]; intros i connections len Nl Hlen Hi Hget Hnn Hb Hf j.
  - cbn [measure_loop fst snd] in *. destruct (Hb Hf j) as [Fj Lj].
    repeat split; trivial. apply not_neg_fval, Hnn.
  - cbn [measure_loop] in *.
    set (d := Len (Add (at_ p ((i + 1) mod pointCount)) (Scale (at_ p i) (-1)))) in *.
    assert (Nd : not_neg d = true) by apply Len_not_neg.
    assert (Hx : d + get_at connections i = len + d) by (rewrite Hget; apply add_comm).
    rewrite Hx in *.
    apply IH; trivial.
    + apply add_not_neg; trivial.
    + rewrite set_at_length. exact Hlen.
    + lia.
    + apply get_set_same. lia.
    + intros k. destruct (Nat.eq_dec (i + 1) k) as [<-|Hne].
      * rewrite get_set_same by lia. apply add_not_neg; trivial.
      * rewrite get_set_other by trivial. apply Hnn.
    + intros Hf2 k.
      destruct (add_finite_inv len d Nl Nd Hf2) as (Fl & _ & Hle).
      destruct (Nat.eq_dec (i + 1) k) as [<-|Hne].
      * rewrite get_set_same by lia. split; trivial. lia.
      * rewrite get_set_other by trivial. destruct (Hb Fl k) as [Fk Lk].
        split; trivial. lia.
Qed.

Lemma search_loop_none (p : Polygon) (pointCount : nat) connections len target :
  (forall j, (target <? get_at connections j / len) = false) ->
  forall todo i, search_loop p pointCount todo i connections len target = None.
Proof.
  intros H. induction todo as [|todo IH]; intros i; cbn [search_loop]; trivial.
  rewrite H. apply IH.
Qed.

Lemma get_at_repeat_zero n j : get_at (repeat 0 n) j = 0.
Proof.
  unfold get_at. revert j. induction n as [|n IH]; intros [|j]; simpl; trivial.
Qed.

(** C1 (the defect).  For every polygon with a finite perimeter and every
    argument from 1 on, [Interpolate] returns the origin [Null], not the
    first vertex: the argument is clamped to 1, every quotient
    [connections[i]/length] is at most 1, so no comparison
    [target < connections[i]/length] succeeds and the loop falls through. *)
Theorem C1_interpolate_one_is_origin (p : Polygon) (v : float) :
  is_finite (perimeter p) = true -> (1 <=? v) = true -> Interpolate p v = Null.
Proof.
  intros Hf Hv.
  destruct (is_zero (perimeter p)) eqn:Hz.
  { unfold perimeter in Hz.
    apply measure_loop_zero_inv in Hz as [_ He]; [|reflexivity].
    apply Interpolate_zero_edges. intros i Hi. apply He. lia. }
  unfold Interpolate. rewrite (clamp_from_one v Hv).
  pose proof (measure_loop_bounded p (length p) (length p) 0
                (repeat 0 (length p + 1)) 0 eq_refl) as Hb.
  unfold perimeter in Hf, Hz.
  destruct (measure_loop p (length p) (length p) 0 (repeat 0 (length p + 1)) 0)
    as [connections len] eqn:E.
  cbn [fst snd] in *.
  rewrite search_loop_none; trivial.
  intros j.
  destruct (Hb (repeat_length _ _) eq_refl (get_at_repeat_zero _ _)) with (j := j)
    as [Fj [Lj Uj]]; trivial.
  - intros k. rewrite get_at_repeat_zero. reflexivity.
  - intros _ k. rewrite get_at_repeat_zero. split; [reflexivity|]. vm_compute. discriminate.
  - apply div_le_one; trivial; [lia|].
    assert (Hn : (0 <= fval len)%Z) by lia.
    destruct (Z.eq_dec (fval len) 0) as [E0|]; [|lia]. exfalso.
    revert Hf Hz E0. unfold fval. rewrite is_finite_spec, is_zero_spec.
    pose proof (Prim2SF_valid len) as V.
    destruct (Prim2SF len) as [[]|[]| |s m e]; cbn [sf_finite sf_zero zval];
      try discriminate. intros _ _ E0.
    pose proof (valid_finite _ _ _ V) as [He _].
    pose proof (mval_pos (Zpos m) e ltac:(lia) ltac:(lia)).
    destruct s; cbn [cond_Zopp] in E0; lia.
Qed.

(** On the polygon (1,0), (3,0), whose perimeter is 4, [Interpolate p 0] is
    the first vertex and [Interpolate p t] for the largest [t] below 1 is
    next to it, but [Interpolate p 1] is the origin; so on the triangles
    (1,1), (4,1), (4,5) and (1,1), (2,2), (0,5). *)
Lemma C1_interpolate_one_is_origin_witness :
  let p := [mkVector 1 0; mkVector 3 0] in
  let q := [mkVector 1 1; mkVector 4 1; mkVector 4 5] in
  let r := [mkVector 1 1; mkVector 2 2; mkVector 0 5] in
  (Interpolate p 1 = Null /\ Interpolate p 2 = Null /\ Interpolate p infinity = Null /\
   Interpolate q 1 = Null /\ Interpolate r 1 = Null) /\
  perimeter p = 4 /\
  Interpolate p 0 = mkVector 1 0 /\
  Interpolate p 0x1.fffffffffffffp-1 = mkVector 0x1.0000000000002p+0 0 /\
  veq (Interpolate p 1) (at_ p 0) = false /\
  perimeter q = 12 /\ Interpolate q 0 = mkVector 1 1 /\
  Interpolate r 0 = mkVector 1 1.
Proof.
  intros p q r. split.
  - split; [|split; [|split; [|split]]];
      apply C1_interpolate_one_is_origin; reflexivity.
  - repeat split.
Defined.

(** ** Mass is never checked (C5) *)

Lemma div_by_zero_times_zero m d :
  is_zero m = true -> is_finite d = true -> is_nan (1 / m * (d * 0)) = true.
Proof.
  intros Hm Hd.
  assert (Hz : is_zero (d * 0) = true) by (apply mul_zero_r; trivial).
  revert Hm Hz. to_spec. change (Prim2SF 1) with (S754_finite false 4503599627370496 (-52)).
  destruct (Prim2SF m) as [[]|[]| |[] ? ?]; simpl; try discriminate;
  destruct (SFmul prec emax (Prim2SF d) (Prim2SF 0)) as [[]|[]| |[] ? ?];
  simpl; try discriminate; reflexivity.
Qed.

Lemma add_nan_r x y : is_nan y = true -> is_nan (x + y) = true.
Proof. to_spec. destruct (Prim2SF y); try discriminate. sf_destruct x. Qed.

(** C5 (as the code has it).  Neither [NewCar] nor [ApplyForce] checks the
    mass: for every mass both return, and [ApplyForce] adds the force scaled
    by [1 / Mass].  With a zero mass the result is not finite: after
    [Accelerate car delta], for every finite [delta], the second coordinate
    of the acceleration is NaN. *)
Theorem C5_mass_is_not_checked (car : CarModel) (f : Vector) (delta : float) :
  (forall mass x y width height,
     call_NewCar mass x y width height = Returns (NewCar mass x y width height)) /\
  call_ApplyForce car f = Returns (ApplyForce car f) /\
  Acceleration (ApplyForce car f) = Add (Acceleration car) (Scale f (1 / Mass car)) /\
  (is_zero (Mass car) = true -> is_finite delta = true ->
   is_nan (Y (Acceleration (Accelerate car delta))) = true).
Proof.
  repeat split. intros Hm Hd.
  unfold Accelerate, ApplyForce, Scale, Add, UnitX; cbn.
  apply add_nan_r, div_by_zero_times_zero; trivial.
Qed.

Lemma C5_mass_is_not_checked_witness :
  is_nan (Y (Acceleration (Accelerate (NewCar 0 0 0 100 50) 0x1.999999999999ap-4))) = true.
Proof.
  apply (C5_mass_is_not_checked (NewCar 0 0 0 100 50) Null 0x1.999999999999ap-4);
    reflexivity.
Defined.

(** A car of mass zero is built, takes a force and ends with the
    acceleration (+Inf, NaN): nothing aborts. *)
Lemma C5_zero_mass_is_silent :
  let car := NewCar 0 0 0 100 50 in
  (Mass car <=? 0) = true /\
  call_NewCar 0 0 0 100 50 = Returns car /\
  call_ApplyForce car (Scale UnitX 0x1.999999999999ap-4)
    = Returns (set_Acceleration car (mkVector infinity nan)) /\
  call_ApplyForce car (Scale UnitX 0x1.999999999999ap-4) <> Panics.
Proof. repeat split. discriminate. Qed.

(** ** The throttle and the brake of the controller (C3, C7) *)

Section Controller.
Context `{GoMath}.

Lemma Feed_events (ctrl : CarModel) (delta : float) (p : Vector) :
  let tr := snd (Feed ctrl delta p) in
  filter is_log tr = [EvLog (Len (toTarget ctrl p) - 30)] /\
  filter is_accelerate tr =
    (if 0 <? throttleSignal ctrl p then [EvAccelerate 0x1.999999999999ap-4] else []) /\
  filter is_break tr =
    (if 0 <? brakeSignal ctrl p then [EvBreak (brakeSignal ctrl p)] else []) /\
  filter is_pedal tr =
    (if 0 <? throttleSignal ctrl p then [EvAccelerate 0x1.999999999999ap-4] else []) ++
    (if 0 <? brakeSignal ctrl p then [EvBreak (brakeSignal ctrl p)] else []).
Proof.
  unfold Feed, throttleSignal, brakeSignal, toTarget.
  set (d := Add p (Scale (Add (Position ctrl) (TurnCenter ctrl)) (-1))).
  set (a := AngleBetween d _).
  destruct (0 <? a); [|destruct (a <? 0)];
    destruct (0 <? Log (Len d - 30) / 10); destruct (0 <? - Len d + 100);
    repeat split.
Qed.

(** With the special cases of Go's [math.Log] -- NaN below zero and on
    NaN, -Inf at zero -- the throttle signal is positive only when the
    distance exceeds 30. *)
Lemma throttle_needs_distance (ctrl : CarModel) (p : Vector) :
  (forall x, (x <=? 0) = true -> is_nan (Log x) = true \/ Log x = neg_infinity) ->
  (forall x, is_nan x = true -> is_nan (Log x) = true) ->
  (0 <? throttleSignal ctrl p) = true -> (30 <? Len (toTarget ctrl p)) = true.
Proof.
  intros Hneg Hnan Hpos. unfold throttleSignal in Hpos.
  destruct (30 <? Len (toTarget ctrl p)) eqn:E; trivial. exfalso.
  destruct (not_ltb_cases 30 _ eq_refl E) as [Hle|Hn].
  - apply (sub_le_zero _ 30 eq_refl) in Hle. apply Hneg in Hle.
    rewrite (div10_not_pos _ Hle) in Hpos. discriminate.
  - apply (sub_nan_l _ 30), Hnan in Hn.
    rewrite (div10_not_pos _ (or_introl Hn)) in Hpos. discriminate.
Qed.

(** C3 (as the code has it).  [Feed] has no guard on the distance: every
    call evaluates [math.Log] once, on [|toTarget| - 30], whatever the
    distance, and [Accelerate(0.1)] fires exactly when the resulting
    [throttleSignal] compares greater than zero.  With the special cases of
    Go's [math.Log] that happens only when [|toTarget| > 30]. *)
Theorem C3_throttle_is_not_guarded (ctrl : CarModel) (delta : float) (p : Vector) :
  filter is_log (snd (Feed ctrl delta p)) = [EvLog (Len (toTarget ctrl p) - 30)] /\
  (In (EvAccelerate 0x1.999999999999ap-4) (snd (Feed ctrl delta p)) <->
   (0 <? throttleSignal ctrl p) = true) /\
  (forall d, In (EvAccelerate d) (snd (Feed ctrl delta p)) -> d = 0x1.999999999999ap-4) /\
  ((forall x, (x <=? 0) = true -> is_nan (Log x) = true \/ Log x = neg_infinity) ->
   (forall x, is_nan x = true -> is_nan (Log x) = true) ->
   (In (EvAccelerate 0x1.999999999999ap-4) (snd (Feed ctrl delta p)) <->
    (30 <? Len (toTarget ctrl p)) = true /\ (0 <? throttleSignal ctrl p) = true)).
Proof.
  destruct (Feed_events ctrl delta p) as (Hl & Ha & _).
  split; [exact Hl|].
  assert (Hin : forall d, In (EvAccelerate d) (snd (Feed ctrl delta p)) <->
                          In (EvAccelerate d) (filter is_accelerate (snd (Feed ctrl delta p)))).
  { intros d. rewrite filter_In. simpl. tauto. }
  assert (Hfire : In (EvAccelerate 0x1.999999999999ap-4) (snd (Feed ctrl delta p)) <->
                  (0 <? throttleSignal ctrl p) = true).
  { rewrite Hin, Ha. destruct (0 <? throttleSignal ctrl p); simpl; intuition discriminate. }
  split; [exact Hfire|]. split.
  - intros d. rewrite Hin, Ha. destruct (0 <? throttleSignal ctrl p); simpl.
    + intros [E|[]]. congruence.
    + intros [].
  - intros Hneg Hnan. rewrite Hfire. split; [|tauto].
    intros Hpos. split; trivial. apply throttle_needs_distance; trivial.
Qed.

(** C7.  The car built by [NewCar 1 0 0 100 50] (position (0,0), rotation
    0, velocity (0,0)) and the target (50,0): the pivot is (30,25), so
    [|toTarget|] is the square root of 1025, about 32.02, which exceeds 30,
    and [math.Log] is called on about 2.0156.  Whenever [math.Log] returns
    at least one half there (the logarithm is about 0.70), the throttle
    signal is positive, the brake signal, about 67.98, is positive too, and
    one call of [Feed] gives both commands, [Accelerate(0.1)] and then
    [Break(brakeSignal)], whatever the steering does. *)
Theorem C7_throttle_and_brake_together (delta : float) :
  let car := NewCar 1 0 0 100 50 in
  let target := mkVector 50 0 in
  (0x1p-1 <=? Log 0x1.01ffe003ff6p+1) = true ->
  Position car = mkVector 0 0 /\ Rotation car = 0 /\ Velocity car = mkVector 0 0 /\
  (30 <? Len (toTarget car target)) = true /\
  Len (toTarget car target) - 30 = 0x1.01ffe003ff6p+1 /\
  (0 <? throttleSignal car target) = true /\
  (0 <? brakeSignal car target) = true /\
  filter is_pedal (snd (Feed car delta target))
    = [EvAccelerate 0x1.999999999999ap-4; EvBreak (brakeSignal car target)] /\
  Acceleration (fst (Feed car delta target))
    = Acceleration (Break (Accelerate car 0x1.999999999999ap-4) (brakeSignal car target)) /\
  Velocity (fst (Feed car delta target))
    = Velocity (Break (Accelerate car 0x1.999999999999ap-4) (brakeSignal car target)).
Proof.
  intros car target Hlog. apply half_div10_pos in Hlog.
  assert (Hd : Len (toTarget car target) - 30 = 0x1.01ffe003ff6p+1) by reflexivity.
  assert (Hb : (0 <? brakeSignal car target) = true) by reflexivity.
  assert (Ht : (0 <? throttleSignal car target) = true).
  { unfold throttleSignal. rewrite Hd. exact Hlog. }
  destruct (Feed_events car delta target) as (_ & _ & _ & Hp).
  rewrite Ht, Hb in Hp.
  repeat split; trivial;
    unfold Feed; fold (toTarget car target); fold (brakeSignal car target);
    rewrite Hd, Hlog, Hb;
    set (a := AngleBetween _ _);
    (destruct (0 <? a); [|destruct (a <? 0)]); reflexivity.
Qed.
End Controller.

Lemma C7_throttle_and_brake_together_witness :
  filter is_pedal (snd (@Feed seriesMath (NewCar 1 0 0 100 50) 0x1p-6 (mkVector 50 0)))
  = [EvAccelerate 0x1.999999999999ap-4;
     EvBreak (brakeSignal (NewCar 1 0 0 100 50) (mkVector 50 0))].
Proof.
  apply (@C7_throttle_and_brake_together seriesMath 0x1p-6). vm_compute. reflexivity.
Defined.

Lemma C3_throttle_is_not_guarded_witness :
  In (EvAccelerate 0x1.999999999999ap-4)
     (snd (@Feed seriesMath (NewCar 1 0 0 100 50) 0x1p-6 (mkVector 50 0))) <->
  (30 <? Len (toTarget (NewCar 1 0 0 100 50) (mkVector 50 0))) = true /\
  (0 <? @throttleSignal seriesMath (NewCar 1 0 0 100 50) (mkVector 50 0)) = true.
Proof.
  apply (@C3_throttle_is_not_guarded seriesMath (NewCar 1 0 0 100 50) 0x1p-6 (mkVector 50 0));
    apply series_log_special.
Defined.

(** With the target on the pivot the distance is 0, not above 30, and
    [math.Log] is still called, on -30. *)
Lemma C3_log_evaluated_within_30 :
  let car := NewCar 1 0 0 100 50 in
  let p := mkVector 30 25 in
  (Len (toTarget car p) <=? 30) = true /\
  In (EvLog (-30)) (snd (@Feed seriesMath car 0x1p-6 p)).
Proof. split; [reflexivity | vm_compute; tauto]. Qed.

(** ** Repeated updates without a force (C2) *)

Section Coasting.
Context `{GoMath}.

Lemma Len_veq (u v : Vector) : veq u v = true -> Len u = Len v.
Proof.
  unfold veq, Len. intros E. apply andb_prop in E as [Ex Ey].
  rewrite (eqb_square _ _ Ex), (eqb_square _ _ Ey). reflexivity.
Qed.

(** While the acceleration is zero, [Update] keeps it zero and keeps the
    velocity equal to a given finite vector. *)
Lemma Updates_without_acceleration (v0 : Vector) (delta : float) :
  finite_vec v0 = true -> is_finite delta = true ->
  forall n car,
    zero_vec (Acceleration car) = true -> is_finite (Tension car) = true ->
    veq (Velocity car) v0 = true ->
    zero_vec (Acceleration (Updates n car delta)) = true /\
    veq (Velocity (Updates n car delta)) v0 = true.
Proof.
  intros Hv0 Hd. apply andb_prop in Hv0 as [Hx0 Hy0].
  induction n as [|n IH]; intros car Ha Ht Hv; simpl; [split; assumption|].
  apply andb_prop in Ha as [Hax Hay]. apply andb_prop in Hv as [Hvx Hvy].
  assert (Hax' : is_zero (Tension car * X (Acceleration car)) = true)
    by (apply mul_zero_r; trivial).
  assert (Hay' : is_zero (Tension car * Y (Acceleration car)) = true)
    by (apply mul_zero_r; trivial).
  apply IH; unfold Update; cbn.
  - apply andb_true_intro; split; assumption.
  - assumption.
  - apply andb_true_intro; split; apply eqb_trans_zero; trivial;
      apply mul_zero_r; trivial.
Qed.

Lemma veq_refl (v : Vector) : finite_vec v = true -> veq v v = true.
Proof.
  unfold finite_vec, veq. intros Hv. apply andb_prop in Hv as [Hx Hy].
  apply andb_true_intro; split; apply eqb_refl_finite; trivial.
Qed.

(** C2 (as the code has it).  [Update] applies the friction factor to the
    acceleration only.  For every vehicle whose acceleration is zero, with
    a finite velocity, friction factor and time step, any number of updates
    leaves the velocity unchanged: the speed is constant, so it is
    non-increasing but converges to zero only if it starts there. *)
Theorem C2_speed_is_constant_when_coasting (car : CarModel) (delta : float) (n : nat) :
  zero_vec (Acceleration car) = true -> finite_vec (Velocity car) = true ->
  is_finite (Tension car) = true -> is_finite delta = true ->
  veq (Velocity (Updates n car delta)) (Velocity car) = true /\
  speed car delta n = Len (Velocity car) /\
  zero_vec (Acceleration (Updates n car delta)) = true.
Proof.
  intros Ha Hv Ht Hd.
  destruct (Updates_without_acceleration (Velocity car) delta Hv Hd n car Ha Ht
              (veq_refl _ Hv)) as [Ha' Hv'].
  repeat split; trivial. apply Len_veq; trivial.
Qed.
End Coasting.

Lemma C2_speed_is_constant_when_coasting_witness :
  let car := set_Velocity (NewCar 1 0 0 100 50) (mkVector 3 4) in
  @speed seriesMath car 0x1p-6 1000 = 5.
Proof.
  intros car.
  apply (@C2_speed_is_constant_when_coasting seriesMath car 0x1p-6 1000); reflexivity.
Defined.

(** A car coasting at speed 1 with friction factor 0.9999 keeps speed 1 for
    ever, and a car at rest with a residual acceleration speeds up in its
    first update. *)
Lemma C2_speed_does_not_decay :
  let coasting := set_Velocity (NewCar 1 0 0 100 50) (mkVector 1 0) in
  let pushed := set_Acceleration (NewCar 1 0 0 100 50) (mkVector 1 0) in
  (Tension coasting <? 1) = true /\
  ~ @speeds_converge_to_zero seriesMath coasting 1 /\
  ~ @speeds_non_increasing seriesMath pushed 1.
Proof.
  intros coasting pushed. split; [reflexivity|]. split.
  - intros Hc. destruct (Hc 0x1p-1 eq_refl) as [N HN].
    specialize (HN N (le_n N)). unfold speed in HN.
    destruct (@Updates_without_acceleration seriesMath (mkVector 1 0) 1 eq_refl eq_refl
                N coasting eq_refl eq_refl eq_refl) as [_ Hv].
    rewrite (Len_veq _ _ Hv) in HN. discriminate HN.
  - intros Hm. specialize (Hm 0%nat). vm_compute in Hm. discriminate Hm.
Qed.

(** ** The random path (C6) *)

Section RandomPath.
Context `{RandSource}.

Lemma fill_vertices_length (x y width height : float) :
  forall todo s, length (fst (fill_vertices todo x y width height s)) = todo.
Proof.
  induction todo as [|todo IH]; intros s; simpl; trivial.
  destruct (Float64 s) as [rx s1]. destruct (Float64 s1) as [ry s2].
  specialize (IH s2). destruct (fill_vertices todo x y width height s2) as [rest s3].
  simpl in *. congruence.
Qed.
End RandomPath.

(** The largest draw puts the first vertex on the right edge of the
    rectangle, at X = 1100. *)
Lemma C6_vertex_on_the_right_edge :
  @unit_draws tableRand /\
  exists p, @generateRandomPath tableRand 0 8 100 100 1000 600 = Returns p /\
            length p = 8%nat /\
            X (at_ p 0) = 1100 /\
            in_box 100 100 1000 600 (at_ p 0) = false.
Proof.
  split.
  - intros s. unfold tableRand, Float64, table_draw; cbn [fst].
    destruct (s mod 4)%Z as [|[q|[r|r|]|]|q]; split; reflexivity.
  - eexists. split; [reflexivity|]. repeat split.
Qed.

Section RandomPathBounds.
Context `{RandSource}.

(** What holds of every vertex built from two draws of [0, 1) holds of
    every vertex of the path. *)
Lemma fill_vertices_Forall (P : Vector -> Prop) (x y width height : float) :
  unit_draws ->
  (forall rx ry,
     (0 <=? rx) = true -> (rx <? 1) = true -> (0 <=? ry) = true -> (ry <? 1) = true ->
     P (mkVector (rx * width + x) (ry * height + y))) ->
  forall todo s, Forall P (fst (fill_vertices todo x y width height s)).
Proof.
  intros Hu HP. induction todo as [|todo IH]; intros s; simpl; [constructor|].
  destruct (Hu s) as [Hx0 Hx1]. destruct (Float64 s) as [rx s1]. cbn [fst] in *.
  destruct (Hu s1) as [Hy0 Hy1]. destruct (Float64 s1) as [ry s2]. cbn [fst] in *.
  specialize (IH s2). destruct (fill_vertices todo x y width height s2) as [rest s3].
  cbn [fst] in *. constructor; auto.
Qed.

(** C6 (as the code has it).  [generateRandomPath] takes no random source:
    it seeds the process-wide one with the clock ([now], in seconds), so
    the path is a function of that second alone and two calls that read the
    same second return the same path.  With draws in [0, 1), the call
    [generateRandomPath(8, 100, 100, 1000, 600)] returns 8 vertices, each
    with [100 <= X <= 1100] and [100 <= Y < 700]: the right edge
    [X = 1100] is not excluded. *)
Theorem C6_random_path_in_box_or_right_edge (now : Z) :
  unit_draws ->
  exists p,
    generateRandomPath now 8 100 100 1000 600 = Returns p /\
    length p = 8%nat /\
    Forall (fun v => in_box_or_right_edge 100 100 1000 600 v = true) p /\
    (forall now', now' = now -> generateRandomPath now' 8 100 100 1000 600 = Returns p).
Proof.
  intros Hu. eexists. split; [reflexivity|].
  cbn [Z.to_nat Pos.to_nat Pos.iter_op Nat.add NewPolygon].
  split; [apply fill_vertices_length|]. split; [|intros now' ->; reflexivity].
  apply fill_vertices_Forall; trivial.
  intros rx ry Hx0 Hx1 Hy0 Hy1. unfold in_box_or_right_edge; cbn [X Y].
  replace (100 + 1000) with 1100 by reflexivity.
  replace (100 + 600) with 700 by reflexivity.
  destruct (scaled_draw_bounds rx 1000 100 1100 Hx0 Hx1) as [-> ->];
    try reflexivity; try (vm_compute; discriminate).
  destruct (scaled_draw_bounds ry 600 100 700 Hy0 Hy1) as [-> _];
    try reflexivity; try (vm_compute; discriminate).
  rewrite draw_times_600_plus_100 by trivial. reflexivity.
Qed.
End RandomPathBounds.

Lemma C6_random_path_in_box_or_right_edge_witness :
  exists p, @generateRandomPath tableRand 0 8 100 100 1000 600 = Returns p /\
            Forall (fun v => in_box_or_right_edge 100 100 1000 600 v = true) p.
Proof.
  assert (Hu : @unit_draws tableRand).
  { intros s. unfold tableRand, Float64, table_draw; cbn [fst].
    destruct (s mod 4)%Z as [|[q|[r|r|]|]|q]; split; reflexivity. }
  destruct (@C6_random_path_in_box_or_right_edge tableRand 0 Hu) as (p & Hp & _ & Hbox & _).
  exists p. split; assumption.
Defined.

(** * Further properties of the code *)

(** ** [Interpolate] stays inside its slices *)

Lemma index_nth {A : Type} (l : list A) (i : nat) (d : A) :
  (i < length l)%nat -> index l (Z.of_nat i) = Returns (nth i l d).
Proof.
  intros Hi. unfold index.
  destruct (Z.ltb_spec (Z.of_nat i) 0) as [Hneg|_]; [lia|].
  rewrite Nat2Z.id.
  destruct (nth_error l i) as [a|] eqn:Hn.
  - now rewrite (nth_error_nth l i d Hn).
  - apply nth_error_None in Hn. lia.
Qed.

Lemma store_set_at (l : list float) (i : nat) (x : float) :
  (i < length l)%nat -> store l (Z.of_nat i) x = Returns (set_at l i x).
Proof.
  intros Hi. unfold store.
  destruct (Z.leb_spec 0 (Z.of_nat i)) as [_|Hneg]; [|lia].
  destruct (Z.ltb_spec (Z.of_nat i) (Z.of_nat (length l))) as [_|Hge]; [|lia].
  simpl. now rewrite Nat2Z.id.
Qed.

Lemma remainder_mod (a n : nat) :
  (0 < n)%nat -> remainder (Z.of_nat a) (Z.of_nat n) = Returns (Z.of_nat (a mod n)).
Proof.
  intros Hn. unfold remainder.
  destruct (Z.eqb_spec (Z.of_nat n) 0) as [H0|_]; [lia|].
  rewrite Z.rem_mod_nonneg by lia. now rewrite Nat2Z.inj_mod.
Qed.

Lemma measure_loop_checked_ok (p : Polygon) : forall todo i connections len,
  length connections = (length p + 1)%nat -> (i + todo = length p)%nat ->
  measure_loop_checked p (Z.of_nat (length p)) todo (Z.of_nat i) connections len
  = Returns (measure_loop p (length p) todo i connections len).
Proof.
  induction todo as [|todo IH]; intros i connections len Hc Hi; [reflexivity|].
  cbn [measure_loop_checked measure_loop].
  replace (Z.of_nat i + 1)%Z with (Z.of_nat (i + 1)) by lia.
  rewrite remainder_mod by lia. cbn [bind].
  assert (Hj : ((i + 1) mod length p < length p)%nat) by (apply Nat.mod_upper_bound; lia).
  rewrite (index_nth p _ Null Hj). cbn [bind].
  rewrite (index_nth p i Null) by lia. cbn [bind].
  rewrite (index_nth connections i 0) by lia. cbn [bind].
  rewrite store_set_at by lia. cbn [bind].
  apply IH; [now rewrite set_at_length | lia].
Qed.

Lemma measure_loop_length (p : Polygon) : forall pointCount todo i connections len,
  length (fst (measure_loop p pointCount todo i connections len)) = length connections.
Proof.
  induction todo as [|todo IH]; intros i connections len; [reflexivity|].
  cbn [measure_loop]. rewrite IH. apply set_at_length.
Qed.

Lemma search_loop_checked_ok (p : Polygon) : forall todo i connections len target,
  length connections = (length p + 1)%nat ->
  (1 <= i)%nat -> (i + todo = length p + 1)%nat ->
  search_loop_checked p (Z.of_nat (length p)) todo (Z.of_nat i) connections len target
  = Returns (search_loop p (length p) todo i connections len target).
Proof.
  induction todo as [|todo IH]; intros i connections len target Hc H1 Hi; [reflexivity|].
  cbn [search_loop_checked search_loop].
  rewrite (index_nth connections i 0) by lia. cbn [bind].
  fold (get_at connections i).
  destruct (target <? get_at connections i / len).
  - replace (Z.of_nat i - 1)%Z with (Z.of_nat (i - 1)) by lia.
    rewrite (index_nth connections (i - 1) 0) by lia. cbn [bind].
    rewrite (index_nth p (i - 1) Null) by lia. cbn [bind].
    rewrite remainder_mod by lia. cbn [bind].
    assert (Hj : (i mod length p < length p)%nat) by (apply Nat.mod_upper_bound; lia).
    rewrite (index_nth p _ Null Hj). cbn [bind].
    reflexivity.
  - replace (Z.of_nat i + 1)%Z with (Z.of_nat (i + 1)) by lia.
    apply IH; lia.
Qed.

(** X1.  A call of [Interpolate] never panics: for every polygon, the empty
    one included, and every argument, NaN and the infinities included,
    every slice index stays in range and no remainder is taken by zero; the
    call returns the value [Interpolate p v]. *)
Theorem X1_interpolate_never_panics (p : Polygon) (v : float) :
  call_Interpolate p v = Returns (Interpolate p v).
Proof.
  unfold call_Interpolate, Interpolate.
  assert (Hr : length (repeat 0 (length p + 1)) = (length p + 1)%nat)
    by apply repeat_length.
  pose proof (measure_loop_checked_ok p (length p) 0 _ 0 Hr (eq_refl _)) as Hm1.
  change (Z.of_nat 0) with 0%Z in Hm1. rewrite Hm1. cbn [bind].
  pose proof (measure_loop_length p (length p) (length p) 0 (repeat 0 (length p + 1)) 0) as Hl.
  destruct (measure_loop p (length p) (length p) 0 (repeat 0 (length p + 1)) 0)
    as [connections len] eqn:Hm.
  cbn [fst snd] in *.
  pose proof (search_loop_checked_ok p (length p) 1 connections len (Min 1 (Max 0 v))
                (eq_trans Hl Hr)
                (le_n 1) (Nat.add_comm 1 (length p))) as Hs1.
  change (Z.of_nat 1) with 1%Z in Hs1. rewrite Hs1. cbn [bind].
  now destruct (search_loop p (length p) (length p) 1 connections len (Min 1 (Max 0 v))).
Qed.

(** ** The parameter range of [Interpolate] *)

Lemma ltb_nan_l x y : is_nan x = true -> (x <? y) = false.
Proof.
  to_spec. unfold SFltb.
  destruct (Prim2SF x); try discriminate. intros _. reflexivity.
Qed.

Lemma is_nan_eq x : is_nan x = true -> x = nan.
Proof.
  intros H. apply Prim2SF_inj. rewrite is_nan_spec in H.
  destruct (Prim2SF x); try discriminate. reflexivity.
Qed.

(** The clamp of [Interpolate] sends every argument up to 0 to +0. *)
Lemma clamp_to_zero v : (v <=? 0) = true -> Min 1 (Max 0 v) = 0.
Proof.
  intros Hv.
  assert (HM : Max 0 v = 0).
  { destruct (is_finite v) eqn:Fv.
    - pose proof Hv as Hv'. rewrite leb_fval in Hv' by trivial. apply Z.leb_le in Hv'.
      change (fval 0) with 0%Z in Hv'.
      assert (E1 : (v =? infinity) = false).
      { revert Fv. rewrite is_finite_spec, eqb_spec. unfold SFeqb.
        change (Prim2SF infinity) with (S754_infinity false).
        destruct (Prim2SF v) as [[]|[]| |[] ? ?]; cbn [sf_finite SFcompare];
          try discriminate; reflexivity. }
      assert (E2 : is_nan v = false).
      { revert Fv. rewrite is_finite_spec, is_nan_spec.
        destruct (Prim2SF v); try discriminate; reflexivity. }
      unfold Max. change (0 =? infinity) with false. change (is_nan 0) with false.
      change (0 =? 0) with true. change (signbit 0) with false.
      rewrite E1, E2. cbn [orb andb].
      destruct (0 =? v) eqn:E3; trivial.
      rewrite eqb_fval in E3 by trivial. apply Z.eqb_neq in E3.
      change (fval 0) with 0%Z in E3.
      assert (E4 : (v <? 0) = true).
      { rewrite ltb_fval by trivial. apply Z.ltb_lt. change (fval 0) with 0%Z. lia. }
      now rewrite E4.
    - assert (v = neg_infinity).
      { apply Prim2SF_inj. revert Fv Hv. rewrite is_finite_spec, leb_spec. unfold SFleb.
        change (Prim2SF 0) with (S754_zero false).
        change (Prim2SF neg_infinity) with (S754_infinity true).
        destruct (Prim2SF v) as [[]|[]| |[] ? ?]; cbn [sf_finite SFcompare];
          try discriminate; reflexivity. }
      subst v. reflexivity. }
  rewrite HM. reflexivity.
Qed.

Lemma clamp_nan v : is_nan v = true -> is_nan (Min 1 (Max 0 v)) = true.
Proof. intros H. rewrite (is_nan_eq v H). reflexivity. Qed.

(** X2.  [Interpolate] clamps its argument to [0, 1]: every argument up to
    0 (negative numbers, -Inf, both zeros) gives the value at 0, every
    argument from 1 on (+Inf included) gives the value at 1, and a NaN
    argument selects no segment and gives the origin [Null]. *)
Theorem X2_interpolate_clamps_its_argument (p : Polygon) (v : float) :
  ((v <=? 0) = true -> Interpolate p v = Interpolate p 0) /\
  ((1 <=? v) = true -> Interpolate p v = Interpolate p 1) /\
  (is_nan v = true -> Interpolate p v = Null).
Proof.
  split; [|split]; intros Hv; unfold Interpolate.
  - rewrite (clamp_to_zero v Hv), (clamp_to_zero 0 eq_refl). reflexivity.
  - rewrite (clamp_from_one v Hv), (clamp_from_one 1 eq_refl). reflexivity.
  - destruct (measure_loop p (length p) (length p) 0 (repeat 0 (length p + 1)) 0)
      as [connections len].
    rewrite search_loop_none; trivial.
    intros j. apply ltb_nan_l, clamp_nan, Hv.
Qed.

Lemma X2_interpolate_clamps_its_argument_witness :
  let p := [mkVector 1 1; mkVector 4 1; mkVector 4 5] in
  Interpolate p (-3) = mkVector 1 1 /\
  Interpolate p neg_infinity = mkVector 1 1 /\
  Interpolate p 7 = Interpolate p 1 /\
  Interpolate p nan = Null.
Proof.
  intros p.
  destruct (X2_interpolate_clamps_its_argument p (-3)) as [H1 _].
  destruct (X2_interpolate_clamps_its_argument p neg_infinity) as [H2 _].
  destruct (X2_interpolate_clamps_its_argument p 7) as [_ [H3 _]].
  destruct (X2_interpolate_clamps_its_argument p nan) as [_ [_ H4]].
  split; [|split; [|split]].
  - rewrite (H1 eq_refl). reflexivity.
  - rewrite (H2 eq_refl). reflexivity.
  - exact (H3 eq_refl).
  - exact (H4 eq_refl).
Defined.

(** ** [Interpolate] at the start of the range *)

Lemma zero_div_nonzero z y :
  is_zero z = true -> is_zero y = false -> is_nan y = false -> is_zero (z / y) = true.
Proof.
  to_spec. unfold SFdiv.
  destruct (Prim2SF z) as [sz|sz| |sz mz ez]; cbn [sf_zero]; try discriminate.
  destruct (Prim2SF y) as [sy|sy| |sy my ey]; cbn [sf_zero]; try discriminate; reflexivity.
Qed.

Lemma zero_div_not_pos z y : is_zero z = true -> (0 <? z / y) = false.
Proof.
  to_spec. unfold SFdiv, SFltb. change (Prim2SF 0) with (S754_zero false).
  destruct (Prim2SF z) as [sz|sz| |sz mz ez]; cbn [sf_zero]; try discriminate.
  destruct (Prim2SF y) as [sy|sy| |sy my ey]; reflexivity.
Qed.

Lemma pos_not_zero_nan y : (0 <? y) = true -> is_zero y = false /\ is_nan y = false.
Proof.
  to_spec. unfold SFltb. change (Prim2SF 0) with (S754_zero false).
  destruct (Prim2SF y) as [sy|sy| |sy my ey]; cbn [SFcompare sf_zero];
    try discriminate; auto.
Qed.

Lemma sub_zero_r_pos b a : (0 <? b) = true -> is_zero a = true -> (0 <? b - a) = true.
Proof.
  to_spec. unfold SFltb, SFsub. change (Prim2SF 0) with (S754_zero false).
  destruct (Prim2SF a) as [sa|sa| |sa ma ea]; cbn [sf_zero]; try discriminate.
  destruct (Prim2SF b) as [sb|[]| |[] mb eb]; cbn [SFcompare]; try discriminate; auto.
Qed.

Lemma sqrt_finite_inv x : is_finite (sqrt x) = true -> is_finite x = true.
Proof.
  rewrite !is_finite_spec, sqrt_spec. unfold SF64sqrt, SFsqrt.
  destruct (Prim2SF x) as [sx|[]| |[] mx ex]; cbn [sf_finite]; try discriminate; auto.
Qed.

Lemma add_finite_both a b :
  is_finite (a + b) = true -> is_finite a = true /\ is_finite b = true.
Proof.
  to_spec. unfold SFadd.
  destruct (Prim2SF a) as [sa|[]| |sa ma ea]; destruct (Prim2SF b) as [sb|[]| |sb mb eb];
    cbn [sf_finite]; try discriminate; auto.
Qed.

Lemma mul_finite_both a b :
  is_finite (a * b) = true -> is_finite a = true /\ is_finite b = true.
Proof.
  to_spec. unfold SFmul.
  destruct (Prim2SF a) as [sa|sa| |sa ma ea]; destruct (Prim2SF b) as [sb|sb| |sb mb eb];
    cbn [sf_finite]; try discriminate; auto.
Qed.

(** A vector of finite length has finite coordinates. *)
Lemma Len_finite_inv v : is_finite (Len v) = true -> finite_vec v = true.
Proof.
  unfold Len, finite_vec. intros H.
  apply sqrt_finite_inv, add_finite_both in H as [Hx Hy].
  apply mul_finite_both in Hx as [Hx _]. apply mul_finite_both in Hy as [Hy _].
  now rewrite Hx, Hy.
Qed.

(** The entries of [connections] up to the loop variable are not written. *)
Lemma measure_loop_low (p : Polygon) (pointCount : nat) : forall todo i connections len j,
  (j <= i)%nat ->
  get_at (fst (measure_loop p pointCount todo i connections len)) j = get_at connections j.
Proof.
  induction todo as [|todo IH]; intros i connections len j Hj; [reflexivity|].
  cbn [measure_loop]. rewrite IH by lia. apply get_set_other. lia.
Qed.

Lemma measure_loop_first (p : Polygon) (pointCount todo : nat) connections len :
  (0 < todo)%nat -> (1 < length connections)%nat ->
  get_at (fst (measure_loop p pointCount todo 0 connections len)) 1
  = Len (Add (at_ p (1 mod pointCount)) (Scale (at_ p 0) (-1))) + get_at connections 0.
Proof.
  intros Ht Hc. destruct todo as [|todo]; [lia|].
  cbn [measure_loop]. change (0 + 1)%nat with 1%nat.
  rewrite measure_loop_low by lia. now rewrite get_set_same.
Qed.

Lemma search_loop_first (p : Polygon) (pointCount todo : nat) connections len target :
  (0 < todo)%nat -> (target <? get_at connections 1 / len) = true ->
  search_loop p pointCount todo 1 connections len target
  = Some (Add (at_ p 0)
              (Scale (Add (at_ p (1 mod pointCount)) (Scale (at_ p 0) (-1)))
                     ((target - get_at connections 0 / len)
                      / (get_at connections 1 / len - get_at connections 0 / len)))).
Proof.
  intros Ht Hc. destruct todo as [|todo]; [lia|].
  cbn [search_loop]. rewrite Hc. reflexivity.
Qed.

(** X3.  When the perimeter is finite and the first edge has a positive
    share of it -- [connections[1]/length] compares greater than 0 -- the
    value of [Interpolate] at 0, and so at every argument up to 0, is the
    first vertex (under Go's [==]). *)
Theorem X3_interpolate_starts_at_first_vertex (p : Polygon) (v : float) :
  is_finite (perimeter p) = true ->
  (0 <? edge_length p 0 / perimeter p) = true ->
  (v <=? 0) = true ->
  veq (Interpolate p v) (at_ p 0) = true.
Proof.
  intros Hf Hpos Hv.
  assert (Hlen : (0 < length p)%nat).
  { destruct p; [discriminate Hpos | cbn [length]; lia]. }
  assert (Hz : is_zero (perimeter p) = false).
  { destruct (is_zero (perimeter p)) eqn:Hz; trivial. exfalso.
    unfold perimeter in Hz.
    apply measure_loop_zero_inv in Hz as [_ He]; [|reflexivity].
    specialize (He 0%nat ltac:(lia)).
    fold (edge_length p 0) in He.
    rewrite (zero_div_not_pos _ _ He) in Hpos. discriminate. }
  assert (Hd0 : is_zero (edge_length p 0) = false).
  { destruct (is_zero (edge_length p 0)) eqn:E; trivial.
    rewrite (zero_div_not_pos _ _ E) in Hpos. discriminate. }
  unfold Interpolate. rewrite (clamp_to_zero v Hv).
  pose proof (measure_loop_bounded p (length p) (length p) 0
                (repeat 0 (length p + 1)) 0 eq_refl (repeat_length _ _) eq_refl
                (get_at_repeat_zero _ _)) as Hb.
  pose proof (measure_loop_low p (length p) (length p) 0
                (repeat 0 (length p + 1)) 0 0 (le_n 0)) as Hc0.
  rewrite get_at_repeat_zero in Hc0.
  pose proof (measure_loop_first p (length p) (length p) (repeat 0 (length p + 1)) 0 Hlen)
    as Hc1.
  rewrite repeat_length, get_at_repeat_zero in Hc1.
  specialize (Hc1 ltac:(lia)).
  change (Len (Add (at_ p (1 mod length p)) (Scale (at_ p 0) (-1))))
    with (edge_length p 0) in Hc1.
  unfold perimeter in Hf, Hz, Hpos.
  destruct (measure_loop p (length p) (length p) 0 (repeat 0 (length p + 1)) 0)
    as [connections len] eqn:E.
  cbn [fst snd] in *.
  assert (Hall : forall j, is_finite (get_at connections j) = true).
  { intros j. apply Hb; trivial.
    - intros k. rewrite get_at_repeat_zero. reflexivity.
    - intros _ k. rewrite get_at_repeat_zero. split; [reflexivity|].
      vm_compute. discriminate. }
  assert (Fd : is_finite (edge_length p 0) = true).
  { specialize (Hall 1%nat). rewrite Hc1 in Hall. now apply add_finite_both in Hall. }
  assert (Hc1' : get_at connections 1 = edge_length p 0).
  { rewrite Hc1. apply add_zero_r_exact; trivial. }
  rewrite (search_loop_first p (length p) (length p) connections len 0 Hlen)
    by (rewrite Hc1'; exact Hpos).
  rewrite Hc1', Hc0.
  set (a := 0 / len). set (b := edge_length p 0 / len) in *.
  assert (Fl : is_nan len = false).
  { revert Hf. rewrite is_finite_spec, is_nan_spec.
    destruct (Prim2SF len); try discriminate; reflexivity. }
  assert (Za : is_zero a = true) by (apply zero_div_nonzero; trivial).
  assert (Hb' : (0 <? b - a) = true) by (apply sub_zero_r_pos; trivial).
  destruct (pos_not_zero_nan _ Hb') as [Hb1 Hb2].
  assert (Zk : is_zero ((0 - a) / (b - a)) = true).
  { apply zero_div_nonzero; trivial. apply sub_zero_zero; trivial. }
  set (k := (0 - a) / (b - a)) in *.
  pose proof (Len_finite_inv _ Fd) as Fv.
  set (dv := Add (at_ p (1 mod length p)) (Scale (at_ p 0) (-1))) in *.
  apply andb_prop in Fv as [Fx Fy].
  assert (F0 : finite_vec (at_ p 0) = true).
  { unfold dv, Add, Scale in Fx, Fy. cbn [X Y] in Fx, Fy.
    apply add_finite_both in Fx as [_ Fx]. apply add_finite_both in Fy as [_ Fy].
    apply mul_finite_both in Fx as [_ Fx]. apply mul_finite_both in Fy as [_ Fy].
    unfold finite_vec. now rewrite Fx, Fy. }
  apply andb_prop in F0 as [F0x F0y].
  unfold veq, Add, Scale. cbn [X Y].
  apply andb_true_intro; split; apply add_zero_r; trivial; apply mul_zero_l; trivial.
Qed.

Lemma X3_interpolate_starts_at_first_vertex_witness :
  veq (Interpolate [mkVector 1 1; mkVector 4 1; mkVector 4 5] (-0x1p-1)) (mkVector 1 1)
  = true.
Proof.
  apply (X3_interpolate_starts_at_first_vertex
           [mkVector 1 1; mkVector 4 1; mkVector 4 5] (-0x1p-1)); reflexivity.
Defined.

(** ** Rounding: exact results and results that are numbers *)

Local Open Scope Z_scope.

(** Two valid finite numbers with the same value have the same mantissa
    and exponent. *)
Lemma valid_mval_inj s1 m1 e1 s2 m2 e2 :
  valid_binary (S754_finite s1 m1 e1) = true ->
  valid_binary (S754_finite s2 m2 e2) = true ->
  mval (Zpos m1) e1 = mval (Zpos m2) e2 -> m1 = m2 /\ e1 = e2.
Proof.
  intros V1 V2 E.
  pose proof (compare_mval_pos s1 m1 e1 s2 m2 e2 V1 V2) as C.
  rewrite E, Z.compare_refl in C.
  destruct (Z.compare_spec e1 e2) as [->| |]; try discriminate.
  rewrite Pos.compare_cont_spec in C. cbn [Pos.switch_Eq] in C.
  destruct (Pos.compare_spec m1 m2) as [->| |]; try discriminate. auto.
Qed.

(** Rounding a value that is representable gives that number. *)
Lemma round_exact sx mx ex sB mB eB :
  ex <= fexp prec emax (Zpos (digits2_pos mx) + ex) ->
  -2200 <= ex ->
  valid_binary (S754_finite sB mB eB) = true ->
  mval (Zpos mx) ex = mval (Zpos mB) eB ->
  valid_binary (binary_round_aux prec emax sx (Zpos mx) ex loc_Exact) = true ->
  binary_round_aux prec emax sx (Zpos mx) ex loc_Exact = S754_finite sx mB eB.
Proof.
  intros Ha He VB E V.
  pose proof (round_exact_ub sx mx ex sB mB eB Ha He VB ltac:(lia)) as Hub.
  pose proof (round_lb sx mx ex loc_Exact (Zpos mx) 1 sB mB eB
                (locates_exact (Zpos mx) (Pos2Z.is_nonneg mx)) Ha He VB ltac:(lia)) as Hlb.
  cbv zeta in Hub, Hlb.
  destruct Hlb as [Hi|(m & e & Hf & Hl)].
  - destruct Hub as [Hz|(m' & e' & Hf' & _)]; congruence.
  - destruct Hub as [Hz|(m' & e' & Hf' & Hu)]; [congruence|].
    rewrite Hf in Hf'. injection Hf' as <- <-.
    rewrite Hf in V |- *.
    destruct (valid_mval_inj sx m e sB mB eB V VB ltac:(lia)) as [-> ->]. reflexivity.
Qed.

(** A shift record with a mantissa that is not negative locates some
    rational number. *)
Lemma locates_some mrs : 0 <= shr_m mrs -> exists N D, locates mrs N D.
Proof.
  destruct mrs as [m [] []]; cbn [shr_m]; intros Hm.
  - exists (4 * m + 3), 4. unfold locates; cbn [shr_m shr_r shr_s]. lia.
  - exists (4 * m + 2), 4. unfold locates; cbn [shr_m shr_r shr_s]. lia.
  - exists (4 * m + 1), 4. unfold locates; cbn [shr_m shr_r shr_s]. lia.
  - exists (4 * m), 4. unfold locates; cbn [shr_m shr_r shr_s]. lia.
Qed.

Lemma shr_nonneg mrs e n : 0 <= shr_m mrs -> 0 <= shr_m (fst (shr mrs e n)).
Proof.
  intros Hm. destruct (Z.le_gt_cases n 0) as [Hn|Hn].
  - now rewrite shr_nonpos.
  - destruct (locates_some mrs Hm) as (N & D & HL).
    destruct (shr_locates mrs e n N D HL ltac:(lia)) as [HL' _].
    apply HL'.
Qed.

Lemma shr_fexp_nonneg m e l : 0 <= m -> 0 <= shr_m (fst (shr_fexp prec emax m e l)).
Proof.
  intros Hm. unfold shr_fexp. apply shr_nonneg. destruct l as [|[]]; exact Hm.
Qed.

Lemma round_nearest_even_nonneg m l : 0 <= m -> 0 <= round_nearest_even m l.
Proof.
  intros Hm. destruct l as [|[]]; cbn [round_nearest_even]; try lia.
  destruct (Z.even m); lia.
Qed.

(** Rounding a mantissa that is not negative never gives NaN. *)
Lemma binary_round_aux_not_nan sx mx ex lx :
  0 <= mx -> binary_round_aux prec emax sx mx ex lx <> S754_nan.
Proof.
  intros Hm. rewrite binary_round_aux_finish. unfold finish.
  match goal with |- context [shr_fexp prec emax ?m1 ?e1 loc_Exact] =>
    pose proof (shr_fexp_nonneg m1 e1 loc_Exact) as H;
    destruct (shr_fexp prec emax m1 e1 loc_Exact) as [mrs e2] end.
  cbn [fst] in H.
  destruct (shr_m mrs) as [|q|q] eqn:Eq.
  - discriminate.
  - destruct (e2 <=? emax - prec); discriminate.
  - exfalso.
    assert (0 <= Z.neg q); [|lia].
    apply H. apply round_nearest_even_nonneg, shr_fexp_nonneg, Hm.
Qed.

Lemma binary_round_not_nan sx mx ex : binary_round prec emax sx mx ex <> S754_nan.
Proof.
  unfold binary_round. destruct (shl_align mx ex _) as [mz ez].
  apply binary_round_aux_not_nan. lia.
Qed.

Lemma binary_normalize_not_nan m e sz : binary_normalize prec emax m e sz <> S754_nan.
Proof.
  destruct m; cbn [binary_normalize]; [discriminate| |]; apply binary_round_not_nan.
Qed.

(** The sign given to the rounding is the sign of its result. *)
Lemma binary_round_aux_opp sx mx ex lx :
  binary_round_aux prec emax (negb sx) mx ex lx
  = SFopp (binary_round_aux prec emax sx mx ex lx).
Proof.
  unfold binary_round_aux.
  destruct (shr_fexp prec emax mx ex lx) as [mrs1 e1].
  destruct (shr_fexp prec emax _ e1 loc_Exact) as [mrs2 e2].
  destruct (shr_m mrs2); cbn [SFopp]; trivial.
  destruct (e2 <=? emax - prec); reflexivity.
Qed.

Lemma binary_round_opp sx mx ex :
  binary_round prec emax (negb sx) mx ex = SFopp (binary_round prec emax sx mx ex).
Proof.
  unfold binary_round. destruct (shl_align mx ex _) as [mz ez].
  apply binary_round_aux_opp.
Qed.

(** The product by a factor of magnitude at most 1 is no larger in
    magnitude than the other factor. *)
Lemma SFmul_le_one_bound t a :
  valid_binary t = true -> valid_binary a = true ->
  sf_finite t = true -> sf_finite a = true ->
  Z.abs (zval t) <= 2 ^ 2200 ->
  sf_finite (SF64mul t a) = true /\ Z.abs (zval (SF64mul t a)) <= Z.abs (zval a).
Proof.
  intros Vt Va Ft Fa Ht. unfold SF64mul.
  destruct t as [st|st| |st mt et]; try discriminate;
  destruct a as [sa|sa| |sa ma ea]; try discriminate;
    try (split; [reflexivity | cbn [SFmul zval]; lia]).
  cbn [SFmul].
  pose proof (valid_finite _ _ _ Vt) as [Het _].
  pose proof (valid_finite _ _ _ Va) as [Hea _].
  pose proof (mval_pos (Zpos mt) et ltac:(lia) ltac:(lia)) as Hpt.
  pose proof (mval_pos (Zpos ma) ea ltac:(lia) ltac:(lia)) as Hpa.
  assert (Hmt : mval (Zpos mt) et <= 2 ^ 2200).
  { cbn [zval] in Ht. destruct st; cbn [cond_Zopp] in Ht; lia. }
  pose proof (mval_mul (Zpos mt) et (Zpos ma) ea ltac:(lia) ltac:(lia) ltac:(lia)) as Hm.
  assert (Hle : mval (Zpos (mt * ma)) (et + ea) <= mval (Zpos ma) ea).
  { rewrite Pos2Z.inj_mul.
    apply (Z.mul_le_mono_pos_r _ _ (2 ^ 2200)); [apply pow2_gt0; lia|].
    rewrite <- Hm. rewrite (Z.mul_comm (mval (Zpos ma) ea)).
    apply Z.mul_le_mono_nonneg_r; lia. }
  destruct (round_exact_ub (xorb st sa) (mt * ma) (et + ea) sa ma ea
              (product_aligned _ _ _ _ _ _ Vt Va) ltac:(lia) Va Hle)
    as [->|(m & e & -> & Hb)].
  - split; [reflexivity|]. cbn [zval]. lia.
  - split; [reflexivity|]. cbn [zval].
    assert (0 <= mval (Zpos m) e) by (unfold mval; apply Z.mul_nonneg_nonneg;
      [lia | apply Z.pow_nonneg; lia]).
    destruct (xorb st sa), sa; cbn [cond_Zopp]; lia.
Qed.

Local Close Scope Z_scope.

(** ** The length of a vector *)

Lemma mul_self_nan x : is_nan (x * x) = is_nan x.
Proof.
  rewrite !is_nan_spec, mul_spec. unfold SF64mul, SFmul.
  destruct (Prim2SF x) as [s|s| |s m e]; try reflexivity.
  pose proof (binary_round_aux_not_nan (xorb s s) (Zpos (m * m)) (e + e) loc_Exact
                (Pos2Z.is_nonneg _)) as H.
  destruct (binary_round_aux prec emax (xorb s s) (Zpos (m * m)) (e + e) loc_Exact);
    try reflexivity. now elim H.
Qed.

Lemma add_not_neg_nan a b :
  not_neg a = true -> not_neg b = true -> is_nan (a + b) = is_nan a || is_nan b.
Proof.
  unfold not_neg. rewrite !is_nan_spec, add_spec. unfold SF64add, SFadd.
  destruct (Prim2SF a) as [sa|[]| |[] ma ea]; cbn [sf_not_neg]; try discriminate;
  destruct (Prim2SF b) as [sb|[]| |[] mb eb]; cbn [sf_not_neg]; try discriminate;
    intros _ _; try reflexivity.
  - destruct sa, sb; reflexivity.
  - match goal with |- context [binary_normalize prec emax ?m ?e ?z] =>
      pose proof (binary_normalize_not_nan m e z) as H;
      destruct (binary_normalize prec emax m e z) end; try reflexivity. now elim H.
Qed.

Lemma sqrt_not_neg_nan x : not_neg x = true -> is_nan (sqrt x) = is_nan x.
Proof.
  unfold not_neg. rewrite !is_nan_spec, sqrt_spec. unfold SF64sqrt, SFsqrt.
  destruct (Prim2SF x) as [s|[]| |[] m e]; cbn [sf_not_neg]; try discriminate;
    intros _; try reflexivity.
  destruct (SFsqrt_core_binary prec emax (Zpos m) e) as [[mz ez] lz] eqn:E.
  assert (Hm : (0 <= mz)%Z).
  { unfold SFsqrt_core_binary in E.
    match type of E with context [Z.sqrtrem ?n] =>
      pose proof (Z.sqrtrem_sqrt n) as Hs; pose proof (Z.sqrt_nonneg n) as Hn;
      destruct (Z.sqrtrem n) as [q r] end.
    cbn [fst] in Hs. injection E as <- _ _. lia. }
  pose proof (binary_round_aux_not_nan false mz ez lz Hm) as H.
  destruct (binary_round_aux prec emax false mz ez lz); try reflexivity. now elim H.
Qed.

Lemma not_neg_cases x :
  not_neg x = true -> (x <? 0) = false /\ (is_nan x = false -> (0 <=? x) = true).
Proof.
  unfold not_neg. rewrite is_nan_spec, ltb_spec, leb_spec. unfold SFltb, SFleb.
  change (Prim2SF 0) with (S754_zero false).
  destruct (Prim2SF x) as [s|[]| |[] m e]; cbn [sf_not_neg SFcompare];
    try discriminate; intros _; split; try reflexivity; intros; discriminate.
Qed.

(** X4.  The length [Len v] is never negative: it never compares less
    than 0, it is NaN exactly when a coordinate is NaN, and in every other
    case -- infinite coordinates and overflow included -- it compares
    greater than or equal to 0. *)
Theorem X4_length_is_never_negative (v : Vector) :
  (Len v <? 0) = false /\
  is_nan (Len v) = is_nan (X v) || is_nan (Y v) /\
  (is_nan (X v) = false -> is_nan (Y v) = false -> (0 <=? Len v) = true).
Proof.
  pose proof (not_neg_cases _ (Len_not_neg v)) as [Hlt Hle].
  assert (Hn : is_nan (Len v) = is_nan (X v) || is_nan (Y v)).
  { unfold Len.
    rewrite sqrt_not_neg_nan by (apply add_not_neg; apply mul_self_not_neg).
    rewrite add_not_neg_nan by apply mul_self_not_neg.
    now rewrite !mul_self_nan. }
  split; [exact Hlt|]. split; [exact Hn|].
  intros Hx Hy. apply Hle. rewrite Hn, Hx, Hy. reflexivity.
Qed.

Lemma X4_length_is_never_negative_witness :
  Len (mkVector 3 (-4)) = 5 /\
  (0 <=? Len (mkVector neg_infinity 1)) = true /\
  (0 <=? Len (mkVector 0x1p+600 (-0x1p+600))) = true.
Proof.
  split; [reflexivity|]. split.
  - apply (X4_length_is_never_negative (mkVector neg_infinity 1)); reflexivity.
  - apply (X4_length_is_never_negative (mkVector 0x1p+600 (-0x1p+600))); reflexivity.
Defined.

(** ** The rotation about the origin at the angle 0 *)

Lemma mul_one_r x : x * 1 = x.
Proof.
  apply Prim2SF_inj.
  pose proof (Prim2SF_valid (x * 1)) as V. pose proof (Prim2SF_valid x) as Vx.
  rewrite mul_spec in *.
  change (Prim2SF 1) with (S754_finite false 4503599627370496 (-52)) in *.
  unfold SF64mul in *.
  destruct (Prim2SF x) as [s|s| |s m e]; cbn [SFmul] in *; rewrite ?xorb_false_r in *;
    try reflexivity.
  pose proof (valid_finite _ _ _ Vx) as [He _].
  apply round_exact with (sB := s); trivial.
  - apply (product_aligned s m e false 4503599627370496 (-52) Vx eq_refl).
  - lia.
  - rewrite (mval_shift (Zpos m) (e + -52) e) by lia.
    replace (e - (e + -52))%Z with 52%Z by lia. reflexivity.
Qed.

Lemma sub_zero_r x : x - 0 = x.
Proof.
  apply Prim2SF_inj. rewrite sub_spec. change (Prim2SF 0) with (S754_zero false).
  unfold SF64sub, SFsub. destruct (Prim2SF x) as [[]|[]| |s m e]; reflexivity.
Qed.

Lemma zero_sub y : is_finite y = true -> (0 - y =? - y) = true.
Proof.
  rewrite is_finite_spec, eqb_spec, sub_spec, opp_spec.
  change (Prim2SF 0) with (S754_zero false).
  unfold SF64sub, SFsub, SFeqb.
  destruct (Prim2SF y) as [[]|[]| |[] m e]; cbn [sf_finite SFopp SFcompare negb];
    try discriminate; intros _; try reflexivity;
    now rewrite Z.compare_refl, Pos.compare_cont_refl.
Qed.

Lemma opp_finite y : is_finite (- y) = is_finite y.
Proof. rewrite !is_finite_spec, opp_spec. destruct (Prim2SF y); reflexivity. Qed.

Lemma eqb_sub_zero x y z :
  (x =? y) = true -> is_zero z = true -> is_finite y = true -> (x - z =? y) = true.
Proof.
  to_spec. unfold SFeqb.
  destruct (Prim2SF x) as [[]|[]| |[] m e]; simpl; try discriminate;
  destruct (Prim2SF y) as [[]|[]| |[] m' e']; simpl; try discriminate;
  destruct (Prim2SF z) as [[]|[]| |[] ? ?]; simpl; try discriminate; try reflexivity; auto.
Qed.

Section Mirror.
Context `{GoMath}.

Lemma rotation_by_zero_mirrors (v : Vector) (angle : float) :
  finite_vec v = true -> Cos angle = 1 -> is_zero (Sin angle) = true ->
  veq (RotateAround v Null angle) (mkVector (X v) (- Y v)) = true.
Proof.
  intros Fv Hc Hs. apply andb_prop in Fv as [Fx Fy].
  unfold veq, RotateAround, Null. cbn [X Y]. rewrite Hc, !mul_one_r, !sub_zero_r.
  assert (Fy' : is_finite (0 - Y v) = true).
  { apply (eqb_finite _ _ (zero_sub _ Fy)). now rewrite opp_finite. }
  apply andb_true_intro; split.
  - apply eqb_trans_zero; [|reflexivity|trivial].
    apply eqb_trans_zero; [apply eqb_refl_finite; trivial| |trivial].
    apply mul_zero_r; trivial.
  - apply eqb_trans_zero; [|reflexivity|now rewrite opp_finite].
    apply eqb_sub_zero; [apply zero_sub; trivial| |now rewrite opp_finite].
    apply mul_zero_r; trivial.
Qed.

(** X5.  About the origin and at an angle whose cosine is 1 and whose sine
    is 0 -- the angle 0 -- [RotateAround] is not the identity: it maps
    every finite vector (x, y) to (x, -y), the mirror image in the X axis
    (under Go's [==]). *)
Theorem X5_rotation_by_zero_mirrors (v : Vector) (angle : float) :
  finite_vec v = true -> Cos angle = 1 -> is_zero (Sin angle) = true ->
  veq (RotateAround v Null angle) (mkVector (X v) (- Y v)) = true.
Proof. apply rotation_by_zero_mirrors. Qed.

End Mirror.

Lemma X5_rotation_by_zero_mirrors_witness :
  veq (@RotateAround seriesMath (mkVector 3 4) Null 0) (mkVector 3 (-4)) = true.
Proof.
  apply (@X5_rotation_by_zero_mirrors seriesMath (mkVector 3 4) 0); reflexivity.
Defined.

(** ** The displacement of an update *)

Lemma eqb_not_nan x y : (x =? y) = true -> is_nan x = false /\ is_nan y = false.
Proof.
  rewrite eqb_spec, !is_nan_spec. unfold SFeqb.
  destruct (Prim2SF x); destruct (Prim2SF y); cbn [SFcompare]; try discriminate; auto.
Qed.

Lemma eqb_refl_not_nan x : is_nan x = false -> (x =? x) = true.
Proof.
  rewrite eqb_spec, is_nan_spec. unfold SFeqb.
  destruct (Prim2SF x) as [[]|[]| |[] m e]; cbn [SFcompare]; try discriminate;
    intros _; try reflexivity; now rewrite Z.compare_refl, Pos.compare_cont_refl.
Qed.

Lemma add_finite_not_nan p b :
  is_finite p = true -> is_nan b = false -> is_nan (p + b) = false.
Proof.
  rewrite is_finite_spec, !is_nan_spec, add_spec. unfold SF64add, SFadd.
  destruct (Prim2SF p) as [sp|sp| |sp mp ep]; cbn [sf_finite]; try discriminate;
  destruct (Prim2SF b) as [sb|sb| |sb mb eb]; try discriminate; intros _ _;
    try reflexivity.
  - destruct sp, sb; reflexivity.
  - match goal with |- context [binary_normalize prec emax ?m ?e ?z] =>
      pose proof (binary_normalize_not_nan m e z) as Hn;
      destruct (binary_normalize prec emax m e z) end; try reflexivity. now elim Hn.
Qed.

Lemma eqb_zero_l a b : (a =? b) = true -> is_zero b = true -> is_zero a = true.
Proof.
  rewrite eqb_spec, !is_zero_spec. unfold SFeqb.
  destruct (Prim2SF a) as [[]|[]| |[] ? ?]; destruct (Prim2SF b) as [[]|[]| |[] ? ?];
    cbn [SFcompare sf_zero]; try discriminate; reflexivity.
Qed.

(** Adding numbers that compare equal gives sums that compare equal. *)
Lemma add_eqb_compat p a b :
  is_finite p = true -> (a =? b) = true -> (p + a =? p + b) = true.
Proof.
  intros Fp E. destruct (is_zero b) eqn:Zb.
  - pose proof (eqb_zero_l _ _ E Zb) as Za.
    pose proof (add_zero_r p a Fp Za) as Ha. pose proof (add_zero_r p b Fp Zb) as Hb.
    pose proof (eqb_finite _ _ Ha Fp) as Fa. pose proof (eqb_finite _ _ Hb Fp) as Fb.
    rewrite eqb_fval in * by trivial.
    apply Z.eqb_eq in Ha, Hb. apply Z.eqb_eq. congruence.
  - rewrite (eqb_eq_nonzero _ _ E Zb).
    apply eqb_refl_not_nan, add_finite_not_nan; trivial.
    apply (eqb_not_nan _ _ E).
Qed.

Section Displacement.
Context `{GoMath}.

(** X6.  A car whose heading has cosine 1 and sine 0 -- the heading 0 that
    [NewCar] sets -- is displaced by an update against its Y velocity: with
    the new velocity (vx, vy), the position changes by
    (delta * vx, - (delta * vy)). *)
Theorem X6_update_moves_against_y_velocity (car : CarModel) (delta : float) :
  let car' := Update car delta in
  finite_vec (Position car) = true ->
  finite_vec (Scale (Velocity car') delta) = true ->
  Cos (Rotation car) = 1 -> is_zero (Sin (Rotation car)) = true ->
  veq (Position car')
      (Add (Position car)
           (mkVector (delta * X (Velocity car')) (- (delta * Y (Velocity car'))))) = true.
Proof.
  intros car' Fp Fs Hc Hs.
  pose proof (rotation_by_zero_mirrors (Scale (Velocity car') delta)
                (Rotation car) Fs Hc Hs) as Hm.
  apply andb_prop in Hm as [Hx Hy]. apply andb_prop in Fp as [Fpx Fpy].
  unfold car', Update, veq, Add in *. cbn [X Y Position Velocity Rotation set_Position
    set_Velocity set_Acceleration Scale] in *.
  apply andb_true_intro; split; apply add_eqb_compat; trivial.
Qed.

End Displacement.

Lemma X6_update_moves_against_y_velocity_witness :
  let car := set_Velocity (NewCar 1 0 0 100 50) (mkVector 3 4) in
  veq (Position (@Update seriesMath car 0x1p-1)) (mkVector 0x1.8p+0 (-2)) = true.
Proof.
  intros car.
  exact (@X6_update_moves_against_y_velocity seriesMath car 0x1p-1
           eq_refl eq_refl eq_refl eq_refl).
Defined.

(** ** The brake of the controller *)

Local Open Scope Z_scope.

(** The difference of two positive numbers, the larger first, rounds to a
    positive number: a difference of two floats never underflows to zero. *)
Lemma SFsub_pos mx ex my ey :
  valid_binary (S754_finite false mx ex) = true ->
  valid_binary (S754_finite false my ey) = true ->
  mval (Zpos my) ey < mval (Zpos mx) ex ->
  let f := SF64sub (S754_finite false mx ex) (S754_finite false my ey) in
  f = S754_infinity false \/ exists m e, f = S754_finite false m e.
Proof.
  intros Vx Vy Hlt. unfold SF64sub, SFsub. cbn [cond_Zopp].
  pose proof (valid_finite _ _ _ Vx) as [Hex _].
  pose proof (valid_finite _ _ _ Vy) as [Hey _].
  destruct (aligned_sum mx ex my ey ltac:(lia) ltac:(lia)) as [_ Hs].
  cbv zeta in Hs.
  set (d := Zpos (fst (shl_align mx ex (Z.min ex ey)))
            - Zpos (fst (shl_align my ey (Z.min ex ey)))) in *.
  assert (Hp : 0 < 2 ^ (Z.min ex ey + 2200)) by (apply pow2_gt0; lia).
  assert (Hd : 0 < d).
  { unfold mval in Hs at 1. nia. }
  destruct d as [|q|q]; try lia. cbn [binary_normalize].
  destruct (binary_round_lb false q (Z.min ex ey) false 1 (-1074) ltac:(lia) eq_refl)
    as [Hi|(m & e & Hf & _)].
  - unfold mval. rewrite Z.mul_1_l.
    apply Z.le_trans with (1 * 2 ^ (Z.min ex ey + 2200)).
    + rewrite Z.mul_1_l. apply Z.pow_le_mono_r; lia.
    + apply Z.mul_le_mono_nonneg_r; lia.
  - left. exact Hi.
  - right. eauto.
Qed.

Local Close Scope Z_scope.

Lemma sub_pos x y :
  is_finite x = true -> is_finite y = true -> (0 <= fval y < fval x)%Z ->
  (0 <? x - y) = true.
Proof.
  intros Fx Fy [Hy Hxy].
  destruct (fval_pos_spec x Fx ltac:(lia)) as (mx & ex & Ex).
  pose proof (Prim2SF_valid x) as Vx. pose proof (Prim2SF_valid y) as Vy.
  rewrite is_finite_spec in Fy. unfold fval in *.
  rewrite ltb_spec, sub_spec. change (Prim2SF 0) with (S754_zero false).
  rewrite Ex in *.
  destruct (zval_nonneg_cases _ Fy Vy Hy) as [[s Ey]|(my & ey & Ey)]; rewrite Ey in *.
  - reflexivity.
  - cbn [zval cond_Zopp] in Hxy.
    destruct (SFsub_pos mx ex my ey Vx Vy Hxy) as [->|(m & e & ->)]; reflexivity.
Qed.

Lemma opp_add x y : - x + y = y - x.
Proof.
  apply Prim2SF_inj. rewrite add_spec, sub_spec, opp_spec.
  unfold SF64add, SF64sub, SFadd, SFsub.
  destruct (Prim2SF x) as [[]|[]| |sx mx ex]; destruct (Prim2SF y) as [[]|[]| |sy my ey];
    cbn [SFopp negb]; try reflexivity.
  rewrite (Z.min_comm ey ex). f_equal.
  destruct sx, sy; cbn [cond_Zopp negb]; lia.
Qed.

Lemma le_zero_not_pos a : (a <=? 0) = true -> (0 <? a) = false.
Proof.
  rewrite leb_spec, ltb_spec. unfold SFleb, SFltb.
  change (Prim2SF 0) with (S754_zero false).
  destruct (Prim2SF a) as [[]|[]| |[] m e]; cbn [SFcompare]; try discriminate;
    reflexivity.
Qed.

Lemma not_neg_not_finite L :
  not_neg L = true -> is_finite L = false -> L = infinity \/ L = nan.
Proof.
  unfold not_neg. rewrite is_finite_spec. intros Hn Hf.
  destruct (Prim2SF L) as [s|[]| |s m e] eqn:E; cbn [sf_not_neg sf_finite] in *;
    try discriminate.
  - left. apply Prim2SF_inj. now rewrite E.
  - right. apply Prim2SF_inj. now rewrite E.
Qed.

(** The brake signal [-L + 100] is positive exactly when the distance [L]
    is below 100. *)
Lemma brake_condition L : not_neg L = true -> (0 <? - L + 100) = (L <? 100).
Proof.
  intros Hn. rewrite opp_add.
  destruct (is_finite L) eqn:FL.
  - pose proof (not_neg_fval L Hn) as H0.
    rewrite (ltb_fval L 100) by trivial.
    destruct (Z.ltb_spec (fval L) (fval 100)) as [Hlt|Hge].
    + apply sub_pos; trivial. lia.
    + apply le_zero_not_pos, sub_le_zero; trivial.
      rewrite leb_fval by trivial. now apply Z.leb_le.
  - destruct (not_neg_not_finite L Hn FL) as [->| ->]; reflexivity.
Qed.

Section Brake.
Context `{GoMath}.

(** X7.  [Feed] brakes exactly when the pivot is closer than 100 to the
    target: [Break] is commanded once, with the brake signal, when
    [|toTarget| < 100] (the distance 0 included), and not at all when the
    distance is 100 or more, infinite or NaN. *)
Theorem X7_brake_fires_below_100 (ctrl : CarModel) (delta : float) (p : Vector) :
  filter is_break (snd (Feed ctrl delta p))
  = (if Len (toTarget ctrl p) <? 100 then [EvBreak (brakeSignal ctrl p)] else []) /\
  ((0 <? brakeSignal ctrl p) = (Len (toTarget ctrl p) <? 100)).
Proof.
  destruct (Feed_events ctrl delta p) as (_ & _ & Hb & _).
  assert (E : (0 <? brakeSignal ctrl p) = (Len (toTarget ctrl p) <? 100))
    by (apply brake_condition, Len_not_neg).
  split; [|exact E]. rewrite Hb, E. reflexivity.
Qed.

End Brake.

(** ** What [Feed] changes *)

Section Steering.
Context `{GoMath}.

(** X8.  One call of [Feed] prints the steering angle first and once,
    turns at most once -- by [delta] when the angle is positive, by
    [-delta] when it is negative, not at all when it is zero or NaN --
    scales the velocity by the friction factor exactly when the pivot is
    closer than 100 to the target, and never changes the position, size,
    bounds, mass, friction factor or steering sensitivity of the car. *)
Theorem X8_feed_steers_and_keeps_the_rest (ctrl : CarModel) (delta : float) (p : Vector) :
  let car' := fst (Feed ctrl delta p) in
  let tr := snd (Feed ctrl delta p) in
  let a := steeringAngle ctrl p in
  hd_error tr = Some (EvPrintln a) /\
  filter is_println tr = [EvPrintln a] /\
  filter is_turn tr
    = (if 0 <? a then [EvTurn delta] else if a <? 0 then [EvTurn (- delta)] else []) /\
  Rotation car'
    = (if 0 <? a then Rotation ctrl + delta * Sensitivity ctrl
       else if a <? 0 then Rotation ctrl + - delta * Sensitivity ctrl
       else Rotation ctrl) /\
  (is_nan a = true -> Rotation car' = Rotation ctrl) /\
  Velocity car'
    = (if Len (toTarget ctrl p) <? 100 then Scale (Velocity ctrl) (Tension ctrl)
       else Velocity ctrl) /\
  Position car' = Position ctrl /\ Size car' = Size ctrl /\ Bounds car' = Bounds ctrl /\
  Mass car' = Mass ctrl /\ Tension car' = Tension ctrl /\
  Sensitivity car' = Sensitivity ctrl.
Proof.
  cbv zeta. rewrite <- (brake_condition _ (Len_not_neg (toTarget ctrl p))).
  assert (Hnan : is_nan (steeringAngle ctrl p) = true ->
                 (0 <? steeringAngle ctrl p) = false /\ (steeringAngle ctrl p <? 0) = false).
  { intros Hn. split; [apply ltb_nan | apply ltb_nan_l]; exact Hn. }
  revert Hnan. unfold Feed, steeringAngle, toTarget.
  set (d := Add p (Scale (Add (Position ctrl) (TurnCenter ctrl)) (-1))).
  set (a := AngleBetween d _). intros Hnan.
  assert (Hr : is_nan a = true ->
               (if 0 <? a then Rotation ctrl + delta * Sensitivity ctrl
                else if a <? 0 then Rotation ctrl + - delta * Sensitivity ctrl
                else Rotation ctrl) = Rotation ctrl).
  { intros Hn. destruct (Hnan Hn) as [-> ->]. reflexivity. }
  destruct (0 <? a); [|destruct (a <? 0)];
    destruct (0 <? Log (Len d - 30) / 10); destruct (0 <? - Len d + 100);
    cbn [fst snd]; repeat split; try exact Hr.
Qed.

End Steering.

(** ** Damping *)

Lemma zval_abs f : zval (SFabs f) = Z.abs (zval f).
Proof.
  destruct f as [s|s| |s m e]; cbn [SFabs zval cond_Zopp]; try reflexivity.
  assert (0 <= mval (Zpos m) e)%Z
    by (unfold mval; apply Z.mul_nonneg_nonneg; [lia | apply Z.pow_nonneg; lia]).
  destruct s; cbn [cond_Zopp]; lia.
Qed.

Lemma fval_abs x : fval (abs x) = Z.abs (fval x).
Proof. unfold fval. rewrite abs_spec. apply zval_abs. Qed.

Lemma abs_finite x : is_finite (abs x) = is_finite x.
Proof. rewrite !is_finite_spec, abs_spec. destruct (Prim2SF x); reflexivity. Qed.

(** The product by a factor of magnitude at most 1 is finite and no larger
    in magnitude than the other factor. *)
Lemma mul_le_one_no_larger t a :
  (abs t <=? 1) = true -> is_finite a = true ->
  is_finite (t * a) = true /\ no_larger (t * a) a = true.
Proof.
  intros Ht Fa.
  assert (Ft : is_finite t = true).
  { rewrite <- abs_finite. revert Ht. rewrite is_finite_spec, leb_spec, abs_spec.
    unfold SFleb. change (Prim2SF 1) with (S754_finite false 4503599627370496 (-52)).
    destruct (Prim2SF t) as [[]|[]| |[] ? ?]; cbn [SFabs sf_finite SFcompare];
      try discriminate; reflexivity. }
  rewrite leb_fval in Ht by (rewrite ?abs_finite; trivial). apply Z.leb_le in Ht.
  replace (fval 1) with (2 ^ 2200)%Z in Ht by (vm_compute; reflexivity).
  rewrite fval_abs in Ht.
  destruct (SFmul_le_one_bound (Prim2SF t) (Prim2SF a)
              (Prim2SF_valid t) (Prim2SF_valid a)) as [Fm Hb].
  - now rewrite <- is_finite_spec.
  - now rewrite <- is_finite_spec.
  - exact Ht.
  - rewrite <- mul_spec in Fm, Hb. rewrite <- is_finite_spec in Fm.
    split; [exact Fm|]. unfold no_larger.
    rewrite leb_fval by (rewrite abs_finite; trivial).
    apply Z.leb_le. rewrite !fval_abs. exact Hb.
Qed.

Lemma no_larger_trans x y z :
  is_finite x = true -> is_finite y = true -> is_finite z = true ->
  no_larger x y = true -> no_larger y z = true -> no_larger x z = true.
Proof.
  unfold no_larger. intros Fx Fy Fz.
  rewrite !leb_fval by (rewrite abs_finite; trivial).
  rewrite !Z.leb_le. lia.
Qed.

Lemma no_larger_refl x : is_finite x = true -> no_larger x x = true.
Proof.
  unfold no_larger. intros Fx. rewrite leb_fval by (rewrite abs_finite; trivial).
  apply Z.leb_le. lia.
Qed.

(** Componentwise: both coordinates finite and no larger in magnitude. *)
Lemma Scale_no_larger (v : Vector) (t : float) :
  (abs t <=? 1) = true -> finite_vec v = true ->
  finite_vec (Scale v t) = true /\
  no_larger (X (Scale v t)) (X v) = true /\ no_larger (Y (Scale v t)) (Y v) = true.
Proof.
  intros Ht Fv. apply andb_prop in Fv as [Fx Fy].
  destruct (mul_le_one_no_larger t (X v) Ht Fx) as [F1 L1].
  destruct (mul_le_one_no_larger t (Y v) Ht Fy) as [F2 L2].
  unfold finite_vec, Scale. cbn [X Y]. now rewrite F1, F2.
Qed.

Lemma Break_fields (car : CarModel) (d : float) :
  Velocity (Break car d) = Scale (Velocity car) (Tension car) /\
  Acceleration (Break car d) = Scale (Acceleration car) (Tension car / Sensitivity car) /\
  Tension (Break car d) = Tension car /\ Sensitivity (Break car d) = Sensitivity car.
Proof. repeat split. Qed.

(** X9.  Braking damps: with a friction factor of magnitude at most 1 and
    a finite velocity, after any number of calls of [Break] each velocity
    coordinate is finite and no larger in magnitude than before; and so is
    each acceleration coordinate when [Tension / Sensitivity] has
    magnitude at most 1, as it has for the car of [NewCar]. *)
Theorem X9_braking_damps (car : CarModel) (d : float) (n : nat) :
  (abs (Tension car) <=? 1) = true ->
  finite_vec (Velocity car) = true ->
  (finite_vec (Velocity (Breaks n car d)) = true /\
   no_larger (X (Velocity (Breaks n car d))) (X (Velocity car)) = true /\
   no_larger (Y (Velocity (Breaks n car d))) (Y (Velocity car)) = true) /\
  ((abs (Tension car / Sensitivity car) <=? 1) = true ->
   finite_vec (Acceleration car) = true ->
   finite_vec (Acceleration (Breaks n car d)) = true /\
   no_larger (X (Acceleration (Breaks n car d))) (X (Acceleration car)) = true /\
   no_larger (Y (Acceleration (Breaks n car d))) (Y (Acceleration car)) = true).
Proof.
  revert car. induction n as [|n IH]; intros car Ht Fv.
  - cbn [Breaks]. pose proof Fv as Fv'. apply andb_prop in Fv' as [Fx Fy].
    split; [now rewrite Fv, !no_larger_refl|].
    intros _ Fa. pose proof Fa as Fa'. apply andb_prop in Fa' as [Fax Fay].
    now rewrite Fa, !no_larger_refl.
  - cbn [Breaks].
    destruct (Break_fields car d) as (Ev & Ea & Et & Es).
    destruct (Scale_no_larger _ _ Ht Fv) as (F1 & Lx & Ly).
    rewrite <- Ev in F1, Lx, Ly.
    destruct (IH (Break car d)) as [(F2 & Lx2 & Ly2) Hacc];
      [now rewrite Et | exact F1 |].
    pose proof Fv as Fv'. apply andb_prop in Fv' as [Fx Fy].
    pose proof F1 as F1'. apply andb_prop in F1' as [F1x F1y].
    pose proof F2 as F2'. apply andb_prop in F2' as [F2x F2y].
    split.
    + split; [exact F2|]. split.
      * apply (no_larger_trans _ (X (Velocity (Break car d)))); trivial.
      * apply (no_larger_trans _ (Y (Velocity (Break car d)))); trivial.
    + intros Hts Fa.
      destruct (Scale_no_larger _ _ Hts Fa) as (G1 & Mx & My).
      rewrite <- Ea in G1, Mx, My.
      destruct Hacc as (G2 & Mx2 & My2); [now rewrite Et, Es | exact G1 |].
      pose proof Fa as Fa'. apply andb_prop in Fa' as [Fax Fay].
      pose proof G1 as G1'. apply andb_prop in G1' as [G1x G1y].
      pose proof G2 as G2'. apply andb_prop in G2' as [G2x G2y].
      split; [exact G2|]. split.
      * apply (no_larger_trans _ (X (Acceleration (Break car d)))); trivial.
      * apply (no_larger_trans _ (Y (Acceleration (Break car d)))); trivial.
Qed.

Lemma X9_braking_damps_witness :
  let car := set_Velocity (NewCar 1 0 0 100 50) (mkVector 3 (-4)) in
  no_larger (X (Velocity (Breaks 10 car 7))) 3 = true /\
  no_larger (Y (Velocity (Breaks 10 car 7))) (-4) = true /\
  (X (Velocity (Breaks 10 car 7)) <? 3) = true.
Proof.
  intros car.
  destruct (X9_braking_damps car 7 10 eq_refl eq_refl) as [(_ & Hx & Hy) _].
  split; [exact Hx|]. split; [exact Hy|]. reflexivity.
Defined.

Section AccelerationDecay.
Context `{GoMath}.

Lemma Update_fields (car : CarModel) (delta : float) :
  Acceleration (Update car delta) = Scale (Acceleration car) (Tension car) /\
  Tension (Update car delta) = Tension car.
Proof. split; reflexivity. Qed.

(** X10.  What [Update] damps is the acceleration: with a friction factor
    of magnitude at most 1 and a finite acceleration, after any number of
    updates, whatever the time step (NaN included), each acceleration
    coordinate is finite and no larger in magnitude than at the start. *)
Theorem X10_update_damps_the_acceleration (car : CarModel) (delta : float) (n : nat) :
  (abs (Tension car) <=? 1) = true ->
  finite_vec (Acceleration car) = true ->
  finite_vec (Acceleration (Updates n car delta)) = true /\
  no_larger (X (Acceleration (Updates n car delta))) (X (Acceleration car)) = true /\
  no_larger (Y (Acceleration (Updates n car delta))) (Y (Acceleration car)) = true.
Proof.
  revert car. induction n as [|n IH]; intros car Ht Fa.
  - cbn [Updates]. pose proof Fa as Fa'. apply andb_prop in Fa' as [Fx Fy].
    now rewrite Fa, !no_larger_refl.
  - cbn [Updates].
    destruct (Update_fields car delta) as (Ea & Et).
    destruct (Scale_no_larger _ _ Ht Fa) as (F1 & Lx & Ly).
    rewrite <- Ea in F1, Lx, Ly.
    destruct (IH (Update car delta)) as (F2 & Lx2 & Ly2); [now rewrite Et | exact F1 |].
    pose proof Fa as Fa'. apply andb_prop in Fa' as [Fx Fy].
    pose proof F1 as F1'. apply andb_prop in F1' as [F1x F1y].
    pose proof F2 as F2'. apply andb_prop in F2' as [F2x F2y].
    split; [exact F2|]. split.
    + apply (no_larger_trans _ (X (Acceleration (Update car delta)))); trivial.
    + apply (no_larger_trans _ (Y (Acceleration (Update car delta)))); trivial.
Qed.

End AccelerationDecay.

Lemma X10_update_damps_the_acceleration_witness :
  let car := set_Acceleration (NewCar 1 0 0 100 50) (mkVector 3 (-4)) in
  no_larger (X (Acceleration (@Updates seriesMath 10 car nan))) 3 = true /\
  no_larger (Y (Acceleration (@Updates seriesMath 10 car nan))) (-4) = true.
Proof.
  intros car.
  destruct (@X10_update_damps_the_acceleration seriesMath car nan 10 eq_refl eq_refl)
    as (_ & Hx & Hy).
  split; [exact Hx | exact Hy].
Defined.

(** ** The direction of [Accelerate] *)

(** X11.  [Accelerate] pushes along X only: when [1 / Mass] is finite (the
    mass is neither zero nor so small that its inverse overflows) and
    [delta] and the Y acceleration are finite, the Y acceleration is
    unchanged (under Go's [==]), the X acceleration grows by
    [1 / Mass * delta], and velocity, position and rotation are as
    before. *)
Theorem X11_accelerate_pushes_along_x (car : CarModel) (delta : float) :
  is_finite (1 / Mass car) = true -> is_finite delta = true ->
  is_finite (Y (Acceleration car)) = true ->
  let car' := Accelerate car delta in
  X (Acceleration car') = X (Acceleration car) + 1 / Mass car * delta /\
  (Y (Acceleration car') =? Y (Acceleration car)) = true /\
  Velocity car' = Velocity car /\ Position car' = Position car /\
  Rotation car' = Rotation car.
Proof.
  intros Fm Fd Fy. cbv zeta.
  unfold Accelerate, ApplyForce, Add, Scale, UnitX.
  cbn [X Y Acceleration Velocity Position Rotation set_Acceleration].
  rewrite mul_one_r. repeat split.
  apply add_zero_r; trivial.
  apply mul_zero_r; trivial. apply mul_zero_r; trivial.
Qed.

Lemma X11_accelerate_pushes_along_x_witness :
  let car := set_Acceleration (NewCar 2 0 0 100 50) (mkVector 1 5) in
  X (Acceleration (Accelerate car 3)) = 0x1.4p+1 /\
  (Y (Acceleration (Accelerate car 3)) =? 5) = true.
Proof.
  intros car.
  destruct (X11_accelerate_pushes_along_x car 3 eq_refl eq_refl eq_refl)
    as (Hx & Hy & _).
  split; [rewrite Hx; reflexivity | exact Hy].
Defined.

(** ** The vertices of the random path *)

Section PathVertices.
Context `{RandSource}.

Lemma fill_vertices_nth (x y width height : float) : forall todo s i,
  (i < todo)%nat ->
  nth i (fst (fill_vertices todo x y width height s)) Null
  = mkVector (nth (2 * i) (draws (2 * todo) s) 0 * width + x)
             (nth (2 * i + 1) (draws (2 * todo) s) 0 * height + y).
Proof.
  induction todo as [|todo IH]; intros s i Hi; [lia|].
  replace (2 * S todo)%nat with (S (S (2 * todo))) by lia.
  cbn [fill_vertices draws].
  destruct (Float64 s) as [rx s1]. cbn [fst snd].
  destruct (Float64 s1) as [ry s2]. cbn [fst snd].
  specialize (IH s2).
  destruct (fill_vertices todo x y width height s2) as [rest s3]. cbn [fst] in *.
  destruct i as [|i].
  - reflexivity.
  - replace (2 * S i)%nat with (S (S (2 * i))) by lia.
    cbn [nth Nat.add]. apply IH. lia.
Qed.

(** X12.  [generateRandomPath] panics on a negative count (from [make])
    and otherwise returns exactly [c] vertices: it takes [2 * c] draws from
    the source it has just seeded, and vertex [i] is made of the draws
    [2 * i] (for X) and [2 * i + 1] (for Y), scaled by the width and the
    height and shifted by the corner. *)
Theorem X12_random_path_uses_two_draws_per_vertex
    (now c : Z) (x y width height : float) :
  ((c < 0)%Z -> generateRandomPath now c x y width height = Panics) /\
  ((0 <= c)%Z ->
   exists p, generateRandomPath now c x y width height = Returns p /\
     length p = Z.to_nat c /\
     forall i, (i < Z.to_nat c)%nat ->
       at_ p i = mkVector (nth (2 * i) (draws (2 * Z.to_nat c) (Seed now)) 0 * width + x)
                          (nth (2 * i + 1) (draws (2 * Z.to_nat c) (Seed now)) 0 * height + y)).
Proof.
  unfold generateRandomPath. split; intros Hc.
  - apply Z.ltb_lt in Hc. now rewrite Hc.
  - apply Z.ltb_ge in Hc. rewrite Hc. eexists. split; [reflexivity|].
    unfold NewPolygon, at_. split; [apply fill_vertices_length|].
    intros i Hi. now apply fill_vertices_nth.
Qed.

End PathVertices.

Lemma X12_random_path_uses_two_draws_per_vertex_witness :
  @generateRandomPath tableRand 5 (-1) 100 100 1000 600 = Panics /\
  @generateRandomPath tableRand 5 0 100 100 1000 600 = Returns [] /\
  @generateRandomPath tableRand 5 2 100 100 1000 600
  = Returns [mkVector 600 100; mkVector 850 0x1.5dfffffffffffp+9].
Proof.
  destruct (@X12_random_path_uses_two_draws_per_vertex tableRand 5 (-1) 100 100 1000 600)
    as [Hneg _].
  split; [apply Hneg; reflexivity|]. split; reflexivity.
Defined.

(** ** The points handed to the renderer *)

Section ScreenPoints.
Context `{GoConvert}.

Lemma Points_nonempty (p : Polygon) :
  p <> [] -> Points p = map ToPoint p ++ [ToPoint (at_ p 0)].
Proof.
  intros Hp. unfold Points. rewrite length_map.
  destruct p as [|v rest]; [contradiction|]. reflexivity.
Qed.

(** X13.  [Points] closes the polygon: the empty polygon gives no point;
    every other polygon gives one point per vertex, in order, followed by
    the first point once more. *)
Theorem X13_points_close_the_polygon (p : Polygon) (d : Point) :
  (p = [] -> Points p = []) /\
  (p <> [] ->
   length (Points p) = (length p + 1)%nat /\
   (forall i, (i < length p)%nat -> nth i (Points p) d = ToPoint (at_ p i)) /\
   nth (length p) (Points p) d = nth 0 (Points p) d /\
   last (Points p) d = ToPoint (at_ p 0)).
Proof.
  split; [intros ->; reflexivity|]. intros Hp.
  rewrite (Points_nonempty p Hp).
  assert (Hn : forall i, (i < length p)%nat ->
                 nth i (map ToPoint p ++ [ToPoint (at_ p 0)]) d = ToPoint (at_ p i)).
  { intros i Hi. rewrite app_nth1 by (now rewrite length_map).
    rewrite (nth_indep _ d (ToPoint Null)) by (now rewrite length_map).
    apply (map_nth ToPoint p Null i). }
  assert (Hl : (0 < length p)%nat) by (destruct p; [contradiction | cbn; lia]).
  split; [rewrite length_app, length_map; reflexivity|].
  split; [exact Hn|]. split.
  - rewrite (Hn 0%nat Hl).
    rewrite app_nth2 by (rewrite length_map; lia).
    rewrite length_map, Nat.sub_diag. reflexivity.
  - apply last_last.
Qed.

End ScreenPoints.

Lemma X13_points_close_the_polygon_witness :
  @Points truncConvert [mkVector 0x1.4p+1 (-0x1.4p+1); mkVector 7 9]
  = [mkPoint 2 (-2); mkPoint 7 9; mkPoint 2 (-2)].
Proof.
  destruct (@X13_points_close_the_polygon truncConvert
              [mkVector 0x1.4p+1 (-0x1.4p+1); mkVector 7 9] (mkPoint 0 0)) as [_ Hc].
  reflexivity.
Defined.

Section Drawing.
Context `{GoMath} `{GoConvert}.

Lemma at_map (f : Vector -> Vector) (p : Polygon) (i : nat) :
  (i < length p)%nat -> at_ (map f p) i = f (at_ p i).
Proof.
  intros Hi. unfold at_.
  rewrite (nth_indep _ Null (f Null)) by (now rewrite length_map).
  apply map_nth.
Qed.

(** X14.  [Draw] hands the renderer the closed outline of the bounds:
    nothing when the bounds are empty, and otherwise one point per vertex
    of the bounds -- the vertex mirrored and rotated about the pivot
    [TurnCenter] by the heading, then moved by the position -- followed by
    the first point once more. *)
Theorem X14_draw_closes_the_outline (car : CarModel) (d : Point) :
  (Bounds car = [] -> Draw car = []) /\
  (Bounds car <> [] ->
   length (Draw car) = (length (Bounds car) + 1)%nat /\
   (forall i, (i < length (Bounds car))%nat ->
      nth i (Draw car) d
      = ToPoint (Add (RotateAround (at_ (Bounds car) i) (TurnCenter car) (Rotation car))
                     (Position car))) /\
   nth (length (Bounds car)) (Draw car) d = nth 0 (Draw car) d).
Proof.
  unfold Draw, Translate, PolygonRotateAround.
  split; [intros ->; reflexivity|]. intros Hb.
  set (q := map (fun c => Add c (Position car))
                (map (fun c => RotateAround c (TurnCenter car) (Rotation car))
                     (Bounds car))).
  assert (Hlen : length q = length (Bounds car)) by (unfold q; now rewrite !length_map).
  assert (Hq : q <> []).
  { intros E. rewrite E in Hlen. destruct (Bounds car); [contradiction|discriminate]. }
  rewrite (Points_nonempty q Hq).
  assert (Hn : forall i, (i < length q)%nat ->
                 nth i (map ToPoint q ++ [ToPoint (at_ q 0)]) d = ToPoint (at_ q i)).
  { intros i Hi. rewrite app_nth1 by (now rewrite length_map).
    rewrite (nth_indep _ d (ToPoint Null)) by (now rewrite length_map).
    apply (map_nth ToPoint q Null i). }
  assert (Hl : (0 < length q)%nat) by (destruct q; [contradiction | cbn; lia]).
  split; [rewrite length_app, length_map, Hlen; reflexivity|]. split.
  - intros i Hi. rewrite Hn by lia. unfold q.
    rewrite at_map by (rewrite length_map; lia).
    rewrite at_map by lia. reflexivity.
  - rewrite <- Hlen, (Hn 0%nat Hl).
    rewrite app_nth2 by (rewrite length_map; lia).
    rewrite length_map, Nat.sub_diag. reflexivity.
Qed.

End Drawing.

Lemma X14_draw_closes_the_outline_witness :
  @Draw seriesMath truncConvert (NewCar 1 100 100 100 50)
  = [mkPoint 100 150; mkPoint 200 150; mkPoint 200 100; mkPoint 100 100;
     mkPoint 100 150].
Proof.
  destruct (@X14_draw_closes_the_outline seriesMath truncConvert
              (NewCar 1 100 100 100 50) (mkPoint 0 0)) as [_ Hc].
  vm_compute. reflexivity.
Defined.

(** ** Vectors that [Norm] does not bring to length 1 *)

Lemma mul_nan_l t x : is_nan t = true -> is_nan (t * x) = true.
Proof.
  rewrite !is_nan_spec, mul_spec. unfold SF64mul, SFmul.
  destruct (Prim2SF t); try discriminate. reflexivity.
Qed.

Lemma div_nan_r x y : is_nan y = true -> is_nan (x / y) = true.
Proof.
  rewrite !is_nan_spec, div_spec. unfold SF64div, SFdiv.
  destruct (Prim2SF y); try discriminate. destruct (Prim2SF x); reflexivity.
Qed.

(** X15.  [Norm] guards the division by a zero length only.  A vector
    whose length computes to zero -- the zero vector, and every vector so
    short that its squares underflow -- is returned unchanged; a finite
    vector whose length overflows to +Inf is sent to a zero vector; and
    when the length is NaN both coordinates of the result are NaN. *)
Theorem X15_norm_outside_the_ordinary_range (v : Vector) :
  ((Len v =? 0) = true -> Norm v = v) /\
  (finite_vec v = true -> Len v = infinity -> zero_vec (Norm v) = true) /\
  (is_nan (Len v) = true ->
   is_nan (X (Norm v)) = true /\ is_nan (Y (Norm v)) = true).
Proof.
  unfold Norm. split; [|split].
  - intros ->. reflexivity.
  - intros Fv ->. apply andb_prop in Fv as [Fx Fy].
    change (negb (infinity =? 0)) with true. cbn [negb].
    unfold zero_vec, Scale. cbn [X Y].
    change (1 / infinity) with 0.
    now rewrite !mul_zero_l.
  - intros Hn.
    assert (E : (Len v =? 0) = false).
    { revert Hn. rewrite is_nan_spec, eqb_spec. unfold SFeqb.
      destruct (Prim2SF (Len v)); try discriminate. reflexivity. }
    rewrite E. cbn [negb]. unfold Scale. cbn [X Y].
    split; apply mul_nan_l, div_nan_r, Hn.
Qed.

Lemma X15_norm_outside_the_ordinary_range_witness :
  Norm (mkVector 0x1p-600 0x1p-600) = mkVector 0x1p-600 0x1p-600 /\
  zero_vec (Norm (mkVector 0x1p+600 3)) = true /\
  Norm (mkVector 3 4) = mkVector 0x1.3333333333334p-1 0x1.999999999999ap-1.
Proof.
  destruct (X15_norm_outside_the_ordinary_range (mkVector 0x1p-600 0x1p-600)) as [H1 _].
  destruct (X15_norm_outside_the_ordinary_range (mkVector 0x1p+600 3)) as [_ [H2 _]].
  split; [apply H1; reflexivity|]. split; [apply H2; reflexivity|]. reflexivity.
Defined.

(** ** Dot and Det *)

Lemma mul_comm x y : x * y = y * x.
Proof.
  apply Prim2SF_inj. rewrite !mul_spec. unfold SF64mul, SFmul.
  destruct (Prim2SF x) as [sx|sx| |sx mx ex]; destruct (Prim2SF y) as [sy|sy| |sy my ey];
    try reflexivity; try (now rewrite xorb_comm).
  now rewrite xorb_comm, Pos.mul_comm, Z.add_comm.
Qed.

(** Exchanging the terms of a difference changes its sign. *)
Lemma sub_antisym x y : is_nan (x - y) = false -> (y - x =? - (x - y)) = true.
Proof.
  rewrite is_nan_spec, eqb_spec, opp_spec, !sub_spec. unfold SF64sub, SFsub, SFeqb.
  destruct (Prim2SF x) as [[]|[]| |sx mx ex]; destruct (Prim2SF y) as [[]|[]| |sy my ey];
    cbn [SFopp SFcompare negb]; try discriminate; intros Hn; try reflexivity;
    try (destruct sx; cbn [negb]; now rewrite Z.compare_refl, Pos.compare_cont_refl);
    try (destruct sy; cbn [negb]; now rewrite Z.compare_refl, Pos.compare_cont_refl).
  rewrite (Z.min_comm ey ex).
  set (a := cond_Zopp sx (Zpos (fst (shl_align mx ex (Z.min ex ey))))) in *.
  set (b := cond_Zopp sy (Zpos (fst (shl_align my ey (Z.min ex ey))))) in *.
  replace (b - a)%Z with (- (a - b))%Z by lia.
  destruct (a - b)%Z as [|q|q]; cbn [Z.opp binary_normalize SFopp SFcompare] in *.
  - reflexivity.
  - change true with (negb false). rewrite binary_round_opp.
    destruct (binary_round prec emax false q (Z.min ex ey)) as [[]|[]| |[] m e];
      cbn [SFopp SFcompare negb] in *; try discriminate; try reflexivity;
      now rewrite Z.compare_refl, Pos.compare_cont_refl.
  - change true with (negb false) in *. rewrite binary_round_opp in *.
    destruct (binary_round prec emax false q (Z.min ex ey)) as [[]|[]| |[] m e];
      cbn [SFopp SFcompare negb] in *; try discriminate; try reflexivity;
      now rewrite Z.compare_refl, Pos.compare_cont_refl.
Qed.

(** X16.  [Dot] is symmetric, bit for bit; [Det] is antisymmetric (under
    Go's [==], whenever it is not NaN); and the [Det] of a vector with
    itself is a zero whenever the product of its coordinates is finite. *)
Theorem X16_dot_is_symmetric_det_antisymmetric (v a : Vector) :
  Dot v a = Dot a v /\
  (is_nan (Det v a) = false -> (Det a v =? - Det v a) = true) /\
  (is_finite (X v * Y v) = true -> is_zero (Det v v) = true).
Proof.
  unfold Dot, Det. split; [|split].
  - now rewrite (mul_comm (X v) (X a)), (mul_comm (Y v) (Y a)).
  - intros Hn. rewrite (mul_comm (X a) (Y v)), (mul_comm (Y a) (X v)).
    now apply sub_antisym.
  - intros Hf. rewrite (mul_comm (Y v) (X v)). now apply sub_diag.
Qed.

Lemma X16_dot_is_symmetric_det_antisymmetric_witness :
  Det (mkVector 1 2) (mkVector 3 5) = -1 /\
  (Det (mkVector 3 5) (mkVector 1 2) =? 1) = true /\
  is_zero (Det (mkVector 3 5) (mkVector 3 5)) = true.
Proof.
  destruct (X16_dot_is_symmetric_det_antisymmetric (mkVector 1 2) (mkVector 3 5))
    as (_ & Ha & _).
  destruct (X16_dot_is_symmetric_det_antisymmetric (mkVector 3 5) (mkVector 3 5))
    as (_ & _ & Hz).
  split; [reflexivity|]. split; [exact (Ha eq_refl) | exact (Hz eq_refl)].
Defined.

(** ** A car at rest *)

Section Rest.
Context `{GoMath}.

Lemma rotate_zero_vec (w : Vector) (angle : float) :
  zero_vec w = true -> is_finite (Cos angle) = true -> is_finite (Sin angle) = true ->
  zero_vec (RotateAround w Null angle) = true.
Proof.
  intros Zw Fc Fs. apply andb_prop in Zw as [Zx Zy].
  assert (Z0 : is_zero 0 = true) by reflexivity.
  unfold zero_vec, RotateAround, Null. cbn [X Y].
  apply andb_true_intro; split.
  - apply add_zero_zero; trivial. apply add_zero_zero;
      apply mul_zero_l; trivial; apply sub_zero_zero; trivial.
  - apply add_zero_zero; trivial. apply sub_zero_zero;
      apply mul_zero_l; trivial; apply sub_zero_zero; trivial.
Qed.

Lemma Updates_at_rest (p0 : Vector) (delta : float) :
  finite_vec p0 = true -> is_finite delta = true ->
  forall n car,
    zero_vec (Acceleration car) = true -> zero_vec (Velocity car) = true ->
    veq (Position car) p0 = true -> is_finite (Tension car) = true ->
    is_finite (Cos (Rotation car)) = true -> is_finite (Sin (Rotation car)) = true ->
    zero_vec (Acceleration (Updates n car delta)) = true /\
    zero_vec (Velocity (Updates n car delta)) = true /\
    veq (Position (Updates n car delta)) p0 = true /\
    Rotation (Updates n car delta) = Rotation car.
Proof.
  intros Fp Fd. pose proof Fp as Fp'. apply andb_prop in Fp' as [Fpx Fpy].
  induction n as [|n IH]; intros car Za Zv Hp Ft Fc Fs; cbn [Updates]; [auto|].
  pose proof Za as Za'. apply andb_prop in Za' as [Zax Zay].
  pose proof Zv as Zv'. apply andb_prop in Zv' as [Zvx Zvy].
  pose proof Hp as Hp'. apply andb_prop in Hp' as [Hpx Hpy].
  assert (Za1 : zero_vec (Scale (Acceleration car) (Tension car)) = true).
  { unfold zero_vec, Scale. cbn [X Y]. now rewrite !mul_zero_r. }
  pose proof Za1 as Za1'. apply andb_prop in Za1' as [Za1x Za1y].
  assert (Zv1 : zero_vec (Add (Velocity car)
                              (Scale (Scale (Acceleration car) (Tension car)) delta)) = true).
  { unfold zero_vec, Add. cbn [X Y].
    apply andb_true_intro; split; apply add_zero_zero; trivial;
      unfold Scale; cbn [X Y]; apply mul_zero_r; trivial. }
  pose proof Zv1 as Zv1'. apply andb_prop in Zv1' as [Zv1x Zv1y].
  set (v1 := Add (Velocity car) (Scale (Scale (Acceleration car) (Tension car)) delta)) in *.
  assert (Zw : zero_vec (Scale v1 delta) = true).
  { unfold zero_vec, Scale. cbn [X Y]. now rewrite !mul_zero_r. }
  pose proof (rotate_zero_vec _ (Rotation car) Zw Fc Fs) as Zr.
  apply andb_prop in Zr as [Zrx Zry].
  assert (Hp1 : veq (Position (Update car delta)) p0 = true).
  { unfold Update, veq, Add. cbn [X Y Position set_Position set_Velocity set_Acceleration
      Velocity Acceleration Rotation]. fold v1.
    apply andb_true_intro; split; apply eqb_trans_zero; trivial. }
  apply (IH (Update car delta)); trivial.
Qed.

(** X17.  Rest is a fixed point of [Update]: a car with zero velocity and
    zero acceleration, a finite position, friction factor and time step,
    and a heading with finite cosine and sine -- every car fresh from
    [NewCar] at a finite place -- keeps, through any number of updates, a
    zero velocity, a zero acceleration, its position (under Go's [==]) and
    its heading. *)
Theorem X17_a_car_at_rest_stays_at_rest (car : CarModel) (delta : float) (n : nat) :
  zero_vec (Acceleration car) = true -> zero_vec (Velocity car) = true ->
  finite_vec (Position car) = true -> is_finite (Tension car) = true ->
  is_finite delta = true ->
  is_finite (Cos (Rotation car)) = true -> is_finite (Sin (Rotation car)) = true ->
  zero_vec (Acceleration (Updates n car delta)) = true /\
  zero_vec (Velocity (Updates n car delta)) = true /\
  veq (Position (Updates n car delta)) (Position car) = true /\
  Rotation (Updates n car delta) = Rotation car.
Proof.
  intros Za Zv Fp Ft Fd Fc Fs.
  apply (Updates_at_rest (Position car) delta Fp Fd n car); trivial.
  apply veq_refl, Fp.
Qed.

End Rest.

Lemma X17_a_car_at_rest_stays_at_rest_witness :
  veq (Position (@Updates seriesMath 50 (NewCar 1 100 100 100 50) 0x1p-6))
      (mkVector 100 100) = true.
Proof.
  apply (@X17_a_car_at_rest_stays_at_rest seriesMath (NewCar 1 100 100 100 50) 0x1p-6 50);
    reflexivity.
Defined.

(** ** Rounding is monotone *)

Local Open Scope Z_scope.

Lemma round_nearest_even_rne mrs N S :
  locates mrs N S ->
  round_nearest_even (shr_m mrs) (loc_of_shr_record mrs) = rne N S.
Proof.
  intros H. pose proof (locates_div _ _ _ H) as Hdiv.
  destruct H as (Hm & HS & HN & Hl).
  assert (Hmod : N mod S = N - shr_m mrs * S).
  { rewrite Z.mod_eq by lia. rewrite Hdiv. ring. }
  unfold rne. rewrite <- Hdiv, Hmod.
  destruct mrs as [m r s]; cbn [shr_m shr_r shr_s] in *.
  destruct (Z.ltb_spec (2 * (N - m * S)) S); destruct (Z.ltb_spec S (2 * (N - m * S)));
    destruct r, s; cbn [loc_of_shr_record round_nearest_even];
    try (destruct (Z.even m)); lia.
Qed.

(** Rounding an aligned mantissa: the nearest multiple of the target
    exponent, then the second stage. *)
Lemma binary_round_aux_rne sx mx ex :
  ex <= fexp prec emax (Zpos (digits2_pos mx) + ex) ->
  let e' := fexp prec emax (Zpos (digits2_pos mx) + ex) in
  binary_round_aux prec emax sx (Zpos mx) ex loc_Exact
  = finish sx (rne (Zpos mx) (2 ^ (e' - ex))) e'.
Proof.
  intros Hal e'.
  rewrite binary_round_aux_finish. unfold shr_fexp. cbn [Zdigits2]. fold e'.
  destruct (shr_locates _ ex (e' - ex) (Zpos mx) 1
              (locates_exact (Zpos mx) (Pos2Z.is_nonneg mx)) ltac:(lia)) as [Hl He].
  rewrite Z.mul_1_r in Hl.
  rewrite (round_nearest_even_rne _ _ _ Hl).
  f_equal. lia.
Qed.

Lemma rne_bounds N S : 0 < S -> N / S <= rne N S <= N / S + 1.
Proof.
  intros HS. unfold rne.
  destruct (2 * (N mod S) <? S); [lia|].
  destruct (S <? 2 * (N mod S)); [lia|].
  destruct (Z.even (N / S)); lia.
Qed.

Lemma rne_mono N1 N2 S : 0 < S -> N1 <= N2 -> rne N1 S <= rne N2 S.
Proof.
  intros HS Hle.
  pose proof (Z.div_le_mono N1 N2 S HS Hle) as Hq.
  destruct (Z.eq_dec (N1 / S) (N2 / S)) as [E|Hne].
  - pose proof (Z.div_mod N1 S ltac:(lia)) as H1.
    pose proof (Z.div_mod N2 S ltac:(lia)) as H2.
    assert (Hr : N1 mod S <= N2 mod S) by (rewrite E in H1; lia).
    unfold rne. rewrite E.
    destruct (Z.ltb_spec (2 * (N1 mod S)) S); destruct (Z.ltb_spec (2 * (N2 mod S)) S);
      destruct (Z.ltb_spec S (2 * (N1 mod S))); destruct (Z.ltb_spec S (2 * (N2 mod S)));
      destruct (Z.even (N2 / S)); lia.
  - pose proof (rne_bounds N1 S HS). pose proof (rne_bounds N2 S HS). lia.
Qed.

Lemma rne_scale N S c : 0 < S -> 0 < c -> rne (c * N) (c * S) = rne N S.
Proof.
  intros HS Hc. unfold rne.
  rewrite Z.div_mul_cancel_l by lia. rewrite Z.mul_mod_distr_l by lia.
  destruct (Z.ltb_spec (2 * (c * (N mod S))) (c * S));
    destruct (Z.ltb_spec (2 * (N mod S)) S); try nia;
    destruct (Z.ltb_spec (c * S) (2 * (c * (N mod S))));
    destruct (Z.ltb_spec S (2 * (N mod S))); try nia; reflexivity.
Qed.

Lemma rne_zero S : 0 < S -> rne 0 S = 0.
Proof.
  intros HS. unfold rne. rewrite Z.div_0_l, Z.mod_0_l by lia.
  destruct (Z.ltb_spec (2 * 0) S); [reflexivity | lia].
Qed.

(** The second stage on a mantissa of at most 53 bits, or on the carry
    2^53: either the value is kept, or the result is +Inf and the
    exponent is beyond the largest one. *)
Lemma finish_cases m1 e1 :
  0 <= m1 <= 2 ^ 53 -> -1074 <= e1 ->
  (finish false m1 e1 = S754_infinity false /\ 0 < m1 /\
   (971 < e1 \/ (m1 = 2 ^ 53 /\ 971 < e1 + 1))) \/
  (sf_finite (finish false m1 e1) = true /\ zval (finish false m1 e1) = mval m1 e1 /\
   (m1 = 0 \/ (e1 <= 971 /\ (m1 = 2 ^ 53 -> e1 + 1 <= 971)))).
Proof.
  intros Hm He.
  destruct (Z.eq_dec m1 0) as [->|H0].
  - right. rewrite finish_zero. cbn [sf_finite zval]. unfold mval. lia.
  - destruct (Z.eq_dec m1 (2 ^ 53)) as [->|H53].
    + rewrite finish_carry by trivial.
      destruct (Z.leb_spec (e1 + 1) 971).
      * right. cbn [sf_finite zval cond_Zopp]. split; [reflexivity|]. split; [|lia].
        rewrite Z2Pos.id by lia. unfold mval.
        replace (e1 + 1 + 2200) with (1 + (e1 + 2200)) by lia.
        rewrite Z.pow_add_r by lia. change (2 ^ 53) with (2 ^ 52 * 2 ^ 1). ring.
      * left. split; [reflexivity|]. lia.
    + rewrite finish_small by lia.
      destruct (Z.leb_spec e1 971).
      * right. cbn [sf_finite zval cond_Zopp]. rewrite Z2Pos.id by lia.
        split; [reflexivity|]. split; [reflexivity|]. right. lia.
      * left. split; [reflexivity|]. lia.
Qed.

Lemma digits_exponent_mono mx ex my ey :
  -2200 <= ex -> -2200 <= ey ->
  mval (Zpos mx) ex <= mval (Zpos my) ey ->
  Zpos (digits2_pos mx) + ex <= Zpos (digits2_pos my) + ey.
Proof.
  intros Hex Hey Hle.
  pose proof (digits2_pos_bounds mx) as [Hlo _].
  pose proof (digits2_pos_bounds my) as [_ Hhi].
  set (d := Zpos (digits2_pos mx)) in *. set (dB := Zpos (digits2_pos my)) in *.
  assert (Hd : 0 < d) by (subst d; lia). assert (HdB : 0 < dB) by (subst dB; lia).
  assert (H : d - 1 + (ex + 2200) < dB + (ey + 2200)); [|lia].
  apply pow2_lt_inv; [lia|].
  rewrite (Z.pow_add_r 2 (d - 1) (ex + 2200)), (Z.pow_add_r 2 dB (ey + 2200)) by lia.
  unfold mval in Hle.
  pose proof (pow2_gt0 (ex + 2200) ltac:(lia)) as Hp.
  pose proof (pow2_gt0 (ey + 2200) ltac:(lia)) as Hq.
  apply Z.le_lt_trans with (Zpos mx * 2 ^ (ex + 2200)).
  - apply Z.mul_le_mono_nonneg_r; lia.
  - apply Z.le_lt_trans with (Zpos my * 2 ^ (ey + 2200)); trivial.
    apply Z.mul_lt_mono_pos_r; trivial.
Qed.

Lemma rne_aligned_bounds mx ex :
  ex <= fexp prec emax (Zpos (digits2_pos mx) + ex) ->
  0 <= rne (Zpos mx) (2 ^ (fexp prec emax (Zpos (digits2_pos mx) + ex) - ex)) <= 2 ^ 53.
Proof.
  intros Hal. set (e' := fexp prec emax (Zpos (digits2_pos mx) + ex)) in *.
  assert (HS : 0 < 2 ^ (e' - ex)) by (apply pow2_gt0; lia).
  pose proof (rne_bounds (Zpos mx) _ HS) as [Hlo Hhi].
  pose proof (Z.div_pos (Zpos mx) _ ltac:(lia) HS) as Hq.
  split; [lia|].
  pose proof (digits2_pos_bounds mx) as [_ Hd].
  assert (Hn : Zpos (digits2_pos mx) <= (e' - ex) + 53).
  { subst e'. rewrite fexp_eq. lia. }
  assert (Hp : 2 ^ Zpos (digits2_pos mx) <= 2 ^ (e' - ex) * 2 ^ 53).
  { rewrite <- Z.pow_add_r by lia. apply Z.pow_le_mono_r; lia. }
  assert (Zpos mx / 2 ^ (e' - ex) < 2 ^ 53); [|lia].
  apply Z.div_lt_upper_bound; lia.
Qed.

Lemma mval_le_mantissa m1 m2 e : -2200 <= e -> m1 <= m2 -> mval m1 e <= mval m2 e.
Proof.
  intros He Hm. unfold mval. apply Z.mul_le_mono_nonneg_r; trivial.
  apply Z.pow_nonneg. lia.
Qed.

(** Rounding is monotone on aligned positive mantissas: the smaller value
    has the smaller result, +Inf being the largest. *)
Lemma binary_round_aux_mono mx ex my ey :
  ex <= fexp prec emax (Zpos (digits2_pos mx) + ex) ->
  ey <= fexp prec emax (Zpos (digits2_pos my) + ey) ->
  -2200 <= ex -> -2200 <= ey ->
  mval (Zpos mx) ex <= mval (Zpos my) ey ->
  let fx := binary_round_aux prec emax false (Zpos mx) ex loc_Exact in
  let fy := binary_round_aux prec emax false (Zpos my) ey loc_Exact in
  fy = S754_infinity false \/
  (sf_finite fx = true /\ sf_finite fy = true /\ zval fx <= zval fy).
Proof.
  intros Hax Hay Hex Hey Hle. cbv zeta.
  rewrite (binary_round_aux_rne false mx ex Hax), (binary_round_aux_rne false my ey Hay).
  pose proof (rne_aligned_bounds mx ex Hax) as Hbx.
  pose proof (rne_aligned_bounds my ey Hay) as Hby.
  pose proof (digits_exponent_mono mx ex my ey Hex Hey Hle) as Hde.
  set (e1 := fexp prec emax (Zpos (digits2_pos mx) + ex)) in *.
  set (e2 := fexp prec emax (Zpos (digits2_pos my) + ey)) in *.
  assert (He1 : e1 = Z.max (Zpos (digits2_pos mx) + ex - 53) (-1074))
    by (subst e1; apply fexp_eq).
  assert (He2 : e2 = Z.max (Zpos (digits2_pos my) + ey - 53) (-1074))
    by (subst e2; apply fexp_eq).
  set (m1 := rne (Zpos mx) (2 ^ (e1 - ex))) in *.
  set (m2 := rne (Zpos my) (2 ^ (e2 - ey))) in *.
  assert (He12 : e1 <= e2) by lia.
  destruct (finish_cases m2 e2 Hby ltac:(lia)) as [(Hi2 & _)|(F2 & V2 & O2)];
    [left; exact Hi2 | right].
  destruct (Z.eq_dec e1 e2) as [E|Hne].
  - (* the same target exponent *)
    assert (Hm : m1 <= m2).
    { set (lo := Z.min ex ey).
      assert (Hs1 : 0 < 2 ^ (ex - lo)) by (apply pow2_gt0; lia).
      assert (Hs2 : 0 < 2 ^ (ey - lo)) by (apply pow2_gt0; lia).
      subst m1 m2.
      rewrite <- (rne_scale (Zpos mx) (2 ^ (e1 - ex)) (2 ^ (ex - lo)))
        by (trivial; apply pow2_gt0; lia).
      rewrite <- (rne_scale (Zpos my) (2 ^ (e2 - ey)) (2 ^ (ey - lo)))
        by (trivial; apply pow2_gt0; lia).
      rewrite <- !Z.pow_add_r by lia.
      replace (ex - lo + (e1 - ex)) with (e2 - lo) by lia.
      replace (ey - lo + (e2 - ey)) with (e2 - lo) by lia.
      apply rne_mono; [apply pow2_gt0; lia|].
      unfold mval in Hle.
      replace (ex + 2200) with ((ex - lo) + (lo + 2200)) in Hle by lia.
      replace (ey + 2200) with ((ey - lo) + (lo + 2200)) in Hle by lia.
      rewrite (Z.pow_add_r 2 (ex - lo) (lo + 2200)),
        (Z.pow_add_r 2 (ey - lo) (lo + 2200)) in Hle by lia.
      rewrite !Z.mul_assoc in Hle.
      apply Z.mul_le_mono_pos_r in Hle; [|apply pow2_gt0; lia].
      rewrite (Z.mul_comm (2 ^ (ex - lo))), (Z.mul_comm (2 ^ (ey - lo))). exact Hle. }
    destruct (finish_cases m1 e1 Hbx ltac:(lia)) as [(_ & P1 & O1)|(F1 & V1 & _)].
    + exfalso. lia.
    + split; [exact F1|]. split; [exact F2|]. rewrite V1, V2, E.
      apply mval_le_mantissa; lia.
  - (* a smaller target exponent *)
    assert (Hn2 : e2 = Zpos (digits2_pos my) + ey - 53) by lia.
    assert (Hm2 : 2 ^ 52 <= m2).
    { subst m2.
      assert (HS : 0 < 2 ^ (e2 - ey)) by (apply pow2_gt0; lia).
      pose proof (rne_bounds (Zpos my) _ HS) as [Hlo _].
      apply Z.le_trans with (Zpos my / 2 ^ (e2 - ey)); trivial.
      apply Z.div_le_lower_bound; trivial.
      pose proof (digits2_pos_bounds my) as [Hd _].
      apply Z.le_trans with (2 ^ (Zpos (digits2_pos my) - 1)); trivial.
      rewrite <- Z.pow_add_r by lia. apply Z.pow_le_mono_r; lia. }
    destruct (finish_cases m1 e1 Hbx ltac:(lia)) as [(_ & P1 & O1)|(F1 & V1 & _)].
    + exfalso. lia.
    + split; [exact F1|]. split; [exact F2|]. rewrite V1, V2.
      apply Z.le_trans with (mval (2 ^ 53) e1); [apply mval_le_mantissa; lia|].
      apply Z.le_trans with (mval (2 ^ 52) e2); [|apply mval_le_mantissa; lia].
      unfold mval. rewrite <- !Z.pow_add_r by lia. apply Z.pow_le_mono_r; lia.
Qed.

Lemma binary_round_mono mx ex my ey :
  -2200 <= ex -> -2200 <= ey ->
  mval (Zpos mx) ex <= mval (Zpos my) ey ->
  let fx := binary_round prec emax false mx ex in
  let fy := binary_round prec emax false my ey in
  fy = S754_infinity false \/
  (sf_finite fx = true /\ sf_finite fy = true /\ zval fx <= zval fy).
Proof.
  intros Hex Hey Hle. cbv zeta.
  destruct (binary_round_aligned false mx ex Hex) as (mz & ez & -> & Hal & Hez & Hv).
  destruct (binary_round_aligned false my ey Hey) as (mw & ew & -> & Hal' & Hew & Hv').
  apply binary_round_aux_mono; trivial. lia.
Qed.

(** The difference grows with the minuend: for positive numbers
    [a < t <= b], [t - a] rounds to at most what [b - a] rounds to. *)
Lemma SFsub_mono ma ea mt et mb eb :
  valid_binary (S754_finite false ma ea) = true ->
  valid_binary (S754_finite false mt et) = true ->
  valid_binary (S754_finite false mb eb) = true ->
  mval (Zpos ma) ea < mval (Zpos mt) et ->
  mval (Zpos mt) et <= mval (Zpos mb) eb ->
  let ft := SF64sub (S754_finite false mt et) (S754_finite false ma ea) in
  let fb := SF64sub (S754_finite false mb eb) (S754_finite false ma ea) in
  fb = S754_infinity false \/
  (sf_finite ft = true /\ sf_finite fb = true /\ zval ft <= zval fb).
Proof.
  intros Va Vt Vb Hat Htb. unfold SF64sub, SFsub. cbn [cond_Zopp].
  pose proof (valid_finite _ _ _ Va) as [Hea _].
  pose proof (valid_finite _ _ _ Vt) as [Het _].
  pose proof (valid_finite _ _ _ Vb) as [Heb _].
  destruct (aligned_sum mt et ma ea ltac:(lia) ltac:(lia)) as [_ Hs1].
  destruct (aligned_sum mb eb ma ea ltac:(lia) ltac:(lia)) as [_ Hs2].
  cbv zeta in Hs1, Hs2.
  set (d1 := Zpos (fst (shl_align mt et (Z.min et ea)))
             - Zpos (fst (shl_align ma ea (Z.min et ea)))) in *.
  set (d2 := Zpos (fst (shl_align mb eb (Z.min eb ea)))
             - Zpos (fst (shl_align ma ea (Z.min eb ea)))) in *.
  assert (Hp1 : 0 < 2 ^ (Z.min et ea + 2200)) by (apply pow2_gt0; lia).
  assert (Hp2 : 0 < 2 ^ (Z.min eb ea + 2200)) by (apply pow2_gt0; lia).
  assert (Hd1 : 0 < d1) by (unfold mval in Hs1 at 1; nia).
  assert (Hd2 : 0 < d2) by (unfold mval in Hs2 at 1; nia).
  destruct d1 as [|q1|q1]; try lia. destruct d2 as [|q2|q2]; try lia.
  cbn [binary_normalize].
  apply binary_round_mono; lia.
Qed.

Local Close Scope Z_scope.

(** ** Quotients and differences inside the unit interval *)

Lemma fval_zero_cases x :
  is_finite x = true -> fval x = 0%Z -> is_zero x = true.
Proof.
  intros Fx Hz. pose proof (Prim2SF_valid x) as Vx.
  rewrite is_finite_spec in Fx. rewrite is_zero_spec. unfold fval in Hz.
  destruct (Prim2SF x) as [s|s| |s m e]; try discriminate; trivial. exfalso.
  pose proof (valid_finite _ _ _ Vx) as [He _].
  pose proof (mval_pos (Zpos m) e ltac:(lia) ltac:(lia)).
  cbn [zval] in Hz. destruct s; cbn [cond_Zopp] in Hz; lia.
Qed.

Lemma is_zero_fval x : is_zero x = true -> fval x = 0%Z.
Proof.
  rewrite is_zero_spec. unfold fval. destruct (Prim2SF x); try discriminate. reflexivity.
Qed.

(** A quotient of a number that is not negative by a larger positive
    number lies between 0 and 1. *)
Lemma div_unit x L :
  is_finite x = true -> is_finite L = true ->
  (0 <= fval x <= fval L)%Z -> (0 < fval L)%Z ->
  is_finite (x / L) = true /\ (0 <= fval (x / L) <= fval 1)%Z.
Proof.
  intros Fx FL [Hx0 HxL] HL.
  destruct (fval_pos_spec L FL HL) as (mL & eL & EL).
  pose proof (Prim2SF_valid x) as Vx. pose proof (Prim2SF_valid L) as VL.
  assert (H1 : fval 1 = (2 ^ 2200)%Z) by (vm_compute; reflexivity).
  rewrite H1. clear H1.
  rewrite is_finite_spec. unfold fval at 1 2. rewrite div_spec. rewrite EL in *.
  assert (V1 : valid_binary (S754_finite false 4503599627370496 (-52)) = true)
    by reflexivity.
  assert (E1 : (mval 4503599627370496 (-52) = 2 ^ 2200)%Z) by (vm_compute; reflexivity).
  destruct (Z.eq_dec (fval x) 0) as [Hz|Hnz].
  - rewrite is_finite_spec in Fx. unfold fval in Hz, Hx0.
    destruct (zval_nonneg_cases _ Fx Vx Hx0) as [[s E]|(m & e & E)]; rewrite E in *.
    + unfold SF64div, SFdiv. cbn [sf_finite zval].
      split; [reflexivity|]. split; [lia|]. apply Z.pow_nonneg. lia.
    + pose proof (zval_finite_pos _ _ Vx). lia.
  - destruct (fval_pos_spec x Fx ltac:(lia)) as (mx & ex & Ex).
    unfold fval in *. rewrite Ex, ?EL in *. cbn [zval cond_Zopp] in *.
    destruct (SFdiv_pos_ub mx ex mL eL false 4503599627370496 (-52) Vx VL V1)
      as [E|(m & e & E & Hm)].
    + rewrite E1. rewrite (Z.mul_comm (2 ^ 2200)).
      apply Z.mul_le_mono_nonneg_r; [apply Z.pow_nonneg; lia | exact HxL].
    + rewrite E. cbn [sf_finite zval]. split; [reflexivity|].
      split; [lia|]. apply Z.pow_nonneg. lia.
    + rewrite E. cbn [sf_finite zval cond_Zopp]. split; [reflexivity|].
      split; [|lia]. unfold mval. apply Z.mul_nonneg_nonneg; [lia|].
      apply Z.pow_nonneg. lia.
Qed.

(** A positive finite number divided by itself is 1. *)
Lemma div_self L : is_finite L = true -> (0 < fval L)%Z -> L / L = 1.
Proof.
  intros FL HL. apply Prim2SF_inj.
  destruct (fval_pos_spec L FL HL) as (mL & eL & EL).
  pose proof (Prim2SF_valid L) as VL. pose proof (Prim2SF_valid (L / L)) as Vq.
  rewrite div_spec in *. rewrite EL in *.
  change (Prim2SF 1) with (S754_finite false 4503599627370496 (-52)).
  assert (V1 : valid_binary (S754_finite false 4503599627370496 (-52)) = true)
    by reflexivity.
  assert (E1 : (mval 4503599627370496 (-52) = 2 ^ 2200)%Z) by (vm_compute; reflexivity).
  destruct (SFdiv_pos_ub mL eL mL eL false 4503599627370496 (-52) VL VL V1)
    as [E|(m & e & E & Hu)]; [rewrite E1; lia| |].
  - destruct (SFdiv_pos_lb mL eL mL eL false 4503599627370496 (-52) VL VL V1)
      as [E'|(m' & e' & E' & _)]; [rewrite E1; lia| |]; congruence.
  - destruct (SFdiv_pos_lb mL eL mL eL false 4503599627370496 (-52) VL VL V1)
      as [E'|(m' & e' & E' & Hl)]; [rewrite E1; lia|congruence|].
    rewrite E in E'. injection E' as <- <-.
    rewrite E in Vq |- *.
    destruct (valid_mval_inj false m e false 4503599627370496 (-52) Vq V1) as [-> ->];
      [lia | reflexivity].
Qed.

Lemma sub_zero_fval x a :
  is_zero a = true -> is_finite x = true ->
  is_finite (x - a) = true /\ fval (x - a) = fval x.
Proof.
  unfold fval. rewrite !is_finite_spec, is_zero_spec, sub_spec. unfold SF64sub, SFsub.
  destruct (Prim2SF a) as [sa|sa| |sa ma ea]; cbn [sf_zero]; try discriminate.
  destruct (Prim2SF x) as [sx|sx| |sx mx ex]; cbn [sf_finite]; try discriminate;
    intros _ _; [destruct sx, sa|]; split; reflexivity.
Qed.

(** For [0 <= a <= t <= b] the differences [t - a] and [b - a] are finite,
    not negative and in this order. *)
Lemma sub_mono a t b :
  is_finite a = true -> is_finite t = true -> is_finite b = true ->
  (0 <= fval a <= fval t)%Z -> (fval t <= fval b)%Z ->
  is_finite (t - a) = true /\ is_finite (b - a) = true /\
  (0 <= fval (t - a) <= fval (b - a))%Z.
Proof.
  intros Fa Ft Fb [Ha Hat] Htb.
  destruct (Z.eq_dec (fval a) 0) as [Za|Na].
  - apply fval_zero_cases in Za; trivial.
    destruct (sub_zero_fval t a Za Ft) as [F1 E1].
    destruct (sub_zero_fval b a Za Fb) as [F2 E2].
    rewrite E1, E2. repeat split; trivial; lia.
  - destruct (fval_pos_spec a Fa ltac:(lia)) as (ma & ea & Ea).
    destruct (fval_pos_spec t Ft ltac:(lia)) as (mt & et & Et).
    destruct (fval_pos_spec b Fb ltac:(lia)) as (mb & eb & Eb).
    pose proof (Prim2SF_valid a) as Va. pose proof (Prim2SF_valid t) as Vt.
    pose proof (Prim2SF_valid b) as Vb.
    assert (Hub : forall x mx ex, Prim2SF x = S754_finite false mx ex ->
              (fval a <= fval x)%Z ->
              is_finite (x - a) = true /\ (0 <= fval (x - a))%Z /\
              (fval a = fval x -> fval (x - a) = 0%Z)).
    { intros x mx ex Ex Hax. pose proof (Prim2SF_valid x) as Vx.
      rewrite is_finite_spec. unfold fval in *. rewrite sub_spec.
      rewrite Ex, Ea in *. cbn [zval cond_Zopp] in Hax.
      destruct (Z.eq_dec (mval (Zpos ma) ea) (mval (Zpos mx) ex)) as [E|Hne].
      - destruct (valid_mval_inj _ _ _ _ _ _ Va Vx E) as [-> ->].
        unfold SF64sub, SFsub. cbn [cond_Zopp]. rewrite Z.sub_diag.
        cbn [binary_normalize sf_finite zval]. repeat split; lia.
      - destruct (SFsub_pos mx ex ma ea Vx Va ltac:(lia)) as [Hi|(m & e & Hf)].
        + exfalso.
          pose proof (valid_finite _ _ _ Va) as [Hea _].
          pose proof (valid_finite _ _ _ Vx) as [Hex _].
          revert Hi. unfold SF64sub, SFsub. cbn [cond_Zopp].
          destruct (aligned_sum mx ex ma ea ltac:(lia) ltac:(lia)) as [_ Hs].
          cbv zeta in Hs.
          set (d := (Zpos (fst (shl_align mx ex (Z.min ex ea)))
                     - Zpos (fst (shl_align ma ea (Z.min ex ea))))%Z) in *.
          assert (Hp : (0 < 2 ^ (Z.min ex ea + 2200))%Z) by (apply pow2_gt0; lia).
          assert (Hd : (0 < d)%Z) by (unfold mval in Hs at 1; nia).
          destruct d as [|q|q]; try lia. cbn [binary_normalize].
          pose proof (mval_pos (Zpos ma) ea ltac:(lia) ltac:(lia)) as Hpa.
          destruct (binary_round_ub false q (Z.min ex ea) false mx ex ltac:(lia) Vx
                      ltac:(lia)) as [->|(m & e & -> & _)]; discriminate.
        + rewrite Hf. cbn [sf_finite zval cond_Zopp].
          pose proof (Prim2SF_valid (x - a)) as Vd.
          rewrite sub_spec, Ex, Ea, Hf in Vd.
          pose proof (zval_finite_pos _ _ Vd) as Hp. cbn [zval cond_Zopp] in Hp.
          repeat split; lia. }
    destruct (Hub t mt et Et Hat) as (F1 & P1 & Z1).
    destruct (Hub b mb eb Eb ltac:(lia)) as (F2 & P2 & Z2).
    split; [exact F1|]. split; [exact F2|]. split; [exact P1|].
    destruct (Z.eq_dec (fval a) (fval t)) as [E|Hne].
    + rewrite (Z1 E). exact P2.
    + rewrite Ea in Va. rewrite Et in Vt. rewrite Eb in Vb.
      assert (Hlt : (mval (Zpos ma) ea < mval (Zpos mt) et)%Z).
      { unfold fval in Hne, Hat. rewrite Ea, Et in Hne, Hat.
        cbn [zval cond_Zopp] in Hne, Hat. lia. }
      assert (Hle : (mval (Zpos mt) et <= mval (Zpos mb) eb)%Z).
      { unfold fval in Htb. rewrite Et, Eb in Htb. exact Htb. }
      destruct (SFsub_mono ma ea mt et mb eb Va Vt Vb Hlt Hle) as [Hi|(_ & _ & H)].
      * rewrite is_finite_spec, sub_spec, Eb, Ea, Hi in F2. discriminate.
      * unfold fval. rewrite !sub_spec, Et, Eb, Ea. exact H.
Qed.

Lemma unit_finite x : (0 <=? x) = true -> (x <=? 1) = true -> is_finite x = true.
Proof.
  rewrite is_finite_spec, !leb_spec. unfold SFleb.
  change (Prim2SF 0) with (S754_zero false).
  change (Prim2SF 1) with (S754_finite false 4503599627370496 (-52)).
  destruct (Prim2SF x) as [[]|[]| |[] ? ?]; cbn [sf_finite SFcompare];
    try discriminate; reflexivity.
Qed.

(** The clamp of [Interpolate] leaves an argument between 0 and 1 as it
    is. *)
Lemma clamp_inside v :
  (v <? 1) = true -> (v <=? 0) = false ->
  Min 1 (Max 0 v) = v /\ is_finite v = true /\ (0 < fval v < fval 1)%Z.
Proof.
  intros Hv E0.
  assert (Fv : is_finite v = true /\ (0 < fval v)%Z).
  { pose proof (Prim2SF_valid v) as Vv. revert Hv E0.
    rewrite is_finite_spec, ltb_spec, leb_spec. unfold SFltb, SFleb, fval.
    change (Prim2SF 0) with (S754_zero false).
    change (Prim2SF 1) with (S754_finite false 4503599627370496 (-52)).
    destruct (Prim2SF v) as [[]|[]| |[] m e]; cbn [sf_finite SFcompare];
      try discriminate; intros _ _. split; [reflexivity|].
    apply (zval_finite_pos _ _ Vv). }
  destruct Fv as [Fv Pv].
  pose proof Hv as Hv'. rewrite ltb_fval in Hv' by trivial. apply Z.ltb_lt in Hv'.
  assert (E1 : (v =? infinity) = false).
  { revert Fv. rewrite is_finite_spec, eqb_spec. unfold SFeqb.
    change (Prim2SF infinity) with (S754_infinity false).
    destruct (Prim2SF v) as [[]|[]| |[] ? ?]; cbn [sf_finite SFcompare];
      try discriminate; reflexivity. }
  assert (E2 : is_nan v = false).
  { revert Fv. rewrite is_finite_spec, is_nan_spec.
    destruct (Prim2SF v); try discriminate; reflexivity. }
  assert (E3 : (0 =? v) = false).
  { rewrite eqb_fval by trivial. apply Z.eqb_neq. change (fval 0) with 0%Z. lia. }
  assert (E4 : (v <? 0) = false).
  { rewrite ltb_fval by trivial. apply Z.ltb_ge. change (fval 0) with 0%Z. lia. }
  assert (E5 : (v =? neg_infinity) = false).
  { revert Fv. rewrite is_finite_spec, eqb_spec. unfold SFeqb.
    change (Prim2SF neg_infinity) with (S754_infinity true).
    destruct (Prim2SF v) as [[]|[]| |[] ? ?]; cbn [sf_finite SFcompare];
      try discriminate; reflexivity. }
  assert (E6 : (1 <? v) = false).
  { rewrite ltb_fval by trivial. apply Z.ltb_ge. lia. }
  split; [|split; [exact Fv | lia]].
  unfold Max. change (0 =? infinity) with false. change (is_nan 0) with false.
  rewrite E1, E2, E3, E4. cbn [orb andb]. rewrite andb_false_r.
  unfold Min. change (1 =? neg_infinity) with false. change (is_nan 1) with false.
  change (1 =? 0) with false.
  rewrite E5, E2, E6. reflexivity.
Qed.

(** The clamp of [Interpolate] on an argument below 1. *)
Lemma clamp_below_one v :
  (v <? 1) = true ->
  is_finite (Min 1 (Max 0 v)) = true /\
  (0 <= fval (Min 1 (Max 0 v)) < fval 1)%Z.
Proof.
  intros Hv.
  destruct (v <=? 0) eqn:E0.
  - rewrite (clamp_to_zero v E0). split; [reflexivity|]. vm_compute. split; congruence.
  - destruct (clamp_inside v Hv E0) as (-> & Fv & Hb). split; [exact Fv | lia].
Qed.

(** The clamp of [Interpolate] keeps the order of arguments below 1. *)
Lemma clamp_mono v1 v2 :
  (v1 <=? v2) = true -> (v1 <? 1) = true -> (v2 <? 1) = true ->
  (fval (Min 1 (Max 0 v1)) <= fval (Min 1 (Max 0 v2)))%Z.
Proof.
  intros H12 H1 H2.
  destruct (clamp_below_one v2 H2) as [_ [Hb2 _]].
  destruct (v1 <=? 0) eqn:E1.
  - rewrite (clamp_to_zero v1 E1). exact Hb2.
  - destruct (clamp_inside v1 H1 E1) as (-> & F1 & P1).
    assert (F2 : is_finite v2 = true) by (apply (between_finite v1 v2 1); trivial).
    rewrite leb_fval in H12 by trivial. apply Z.leb_le in H12.
    destruct (v2 <=? 0) eqn:E2.
    + rewrite leb_fval in E2 by trivial. apply Z.leb_le in E2.
      change (fval 0) with 0%Z in E2. lia.
    + destruct (clamp_inside v2 H2 E2) as (-> & _ & _). exact H12.
Qed.

(** ** Rounding a located quotient is monotone *)

Local Open Scope Z_scope.

(** Rounding a mantissa with its location: the nearest multiple of the
    target exponent of the located rational, then the second stage. *)
Lemma binary_round_aux_loc_rne sx mx ex lx N D :
  0 <= mx ->
  locates (shr_record_of_loc mx lx) N D ->
  ex <= fexp prec emax (Zdigits2 mx + ex) ->
  let e' := fexp prec emax (Zdigits2 mx + ex) in
  binary_round_aux prec emax sx mx ex lx = finish sx (rne N (2 ^ (e' - ex) * D)) e' /\
  0 <= rne N (2 ^ (e' - ex) * D) <= 2 ^ 53.
Proof.
  intros Hmx Hloc Hal e'.
  assert (HN : mx * D <= N < (mx + 1) * D).
  { destruct Hloc as (_ & _ & H & _). destruct lx as [|[]]; exact H. }
  rewrite binary_round_aux_finish. unfold shr_fexp. fold e'.
  destruct (shr_locates _ ex (e' - ex) N D Hloc ltac:(lia)) as [Hl He].
  set (S := 2 ^ (e' - ex) * D) in *.
  set (r := shr (shr_record_of_loc mx lx) ex (e' - ex)) in *.
  rewrite (round_nearest_even_rne _ _ _ Hl).
  replace (snd r) with e' by lia.
  split; [reflexivity|].
  assert (HD : 0 < D) by (destruct Hloc as (_ & HD & _); exact HD).
  assert (H2 : 0 < 2 ^ (e' - ex)) by (apply Z.pow_pos_nonneg; lia).
  assert (HS : 0 < S) by (subst S; lia).
  pose proof (rne_bounds N S HS) as [Hlo Hhi].
  assert (Hq0 : 0 <= N / S) by (apply Z.div_pos; lia).
  split; [lia|].
  assert (Hlt : N / S < 2 ^ 53); [|lia].
  pose proof (Zdigits2_upper mx Hmx) as Hd.
  assert (Hn : Zdigits2 mx <= (e' - ex) + 53) by (subst e'; rewrite fexp_eq; lia).
  assert (Hp : 2 ^ Zdigits2 mx <= 2 ^ (e' - ex) * 2 ^ 53).
  { rewrite <- Z.pow_add_r by lia. apply Z.pow_le_mono_r; lia. }
  apply Z.div_lt_upper_bound; [lia|].
  apply Z.lt_le_trans with ((mx + 1) * D); [lia|].
  subst S. rewrite (Z.mul_comm (2 ^ (e' - ex) * D)), Z.mul_assoc.
  apply Z.mul_le_mono_nonneg_r; lia.
Qed.

Lemma Zdigits2_nonneg m : 0 <= Zdigits2 m.
Proof. destruct m; cbn [Zdigits2]; lia. Qed.

Lemma Zdigits2_lower m : 0 < m -> 2 ^ (Zdigits2 m - 1) <= m.
Proof. intros H. apply Zdigits2_pos_bounds. exact H. Qed.

(** The larger located value has the larger sum of digits and exponent. *)
Lemma located_exponent_mono mx ex Nx Dx my ey Ny Dy :
  0 < mx -> 0 <= my -> 0 < Dx -> 0 < Dy ->
  mx * Dx <= Nx -> Ny < (my + 1) * Dy ->
  -2200 <= ex -> -2200 <= ey ->
  mval Nx ex * Dy <= mval Ny ey * Dx ->
  Zdigits2 mx + ex <= Zdigits2 my + ey.
Proof.
  intros Hmx Hmy HDx HDy HNx HNy Hex Hey Hle.
  pose proof (Zdigits2_lower mx Hmx) as Hlo.
  pose proof (Zdigits2_upper my Hmy) as Hhi.
  pose proof (Zdigits2_nonneg my) as Hdy.
  assert (Hdx : 0 < Zdigits2 mx) by (destruct mx; cbn [Zdigits2]; lia).
  set (dx := Zdigits2 mx) in *. set (dy := Zdigits2 my) in *.
  pose proof (pow2_gt0 (ex + 2200) ltac:(lia)) as Hp.
  pose proof (pow2_gt0 (ey + 2200) ltac:(lia)) as Hq.
  unfold mval in Hle.
  assert (H1 : mx * 2 ^ (ex + 2200) * (Dx * Dy) <= Nx * 2 ^ (ex + 2200) * Dy).
  { replace (mx * 2 ^ (ex + 2200) * (Dx * Dy))
      with (mx * Dx * (2 ^ (ex + 2200) * Dy)) by ring.
    replace (Nx * 2 ^ (ex + 2200) * Dy) with (Nx * (2 ^ (ex + 2200) * Dy)) by ring.
    apply Z.mul_le_mono_nonneg_r; lia. }
  assert (H2 : Ny * 2 ^ (ey + 2200) * Dx < (my + 1) * 2 ^ (ey + 2200) * (Dx * Dy)).
  { replace ((my + 1) * 2 ^ (ey + 2200) * (Dx * Dy))
      with ((my + 1) * Dy * (2 ^ (ey + 2200) * Dx)) by ring.
    replace (Ny * 2 ^ (ey + 2200) * Dx) with (Ny * (2 ^ (ey + 2200) * Dx)) by ring.
    apply Z.mul_lt_mono_pos_r; lia. }
  assert (H3 : mx * 2 ^ (ex + 2200) < (my + 1) * 2 ^ (ey + 2200)).
  { apply (Z.mul_lt_mono_pos_r (Dx * Dy)); lia. }
  assert (H : dx - 1 + (ex + 2200) < dy + (ey + 2200)); [|lia].
  apply pow2_lt_inv; [lia|].
  rewrite (Z.pow_add_r 2 (dx - 1) (ex + 2200)), (Z.pow_add_r 2 dy (ey + 2200)) by lia.
  apply Z.le_lt_trans with (mx * 2 ^ (ex + 2200)).
  - apply Z.mul_le_mono_nonneg_r; lia.
  - apply Z.lt_le_trans with ((my + 1) * 2 ^ (ey + 2200)); trivial.
    apply Z.mul_le_mono_nonneg_r; lia.
Qed.

(** Rounding is monotone on located mantissas. *)
Lemma binary_round_aux_loc_mono mx ex lx Nx Dx my ey ly Ny Dy :
  0 <= mx -> 0 <= my ->
  (0 < mx \/ ex <= -1074) -> (0 < my \/ ey <= -1074) ->
  locates (shr_record_of_loc mx lx) Nx Dx ->
  locates (shr_record_of_loc my ly) Ny Dy ->
  ex <= fexp prec emax (Zdigits2 mx + ex) ->
  ey <= fexp prec emax (Zdigits2 my + ey) ->
  -2200 <= ex -> -2200 <= ey ->
  mval Nx ex * Dy <= mval Ny ey * Dx ->
  let fx := binary_round_aux prec emax false mx ex lx in
  let fy := binary_round_aux prec emax false my ey ly in
  fy = S754_infinity false \/
  (sf_finite fx = true /\ sf_finite fy = true /\ zval fx <= zval fy).
Proof.
  intros Hmx Hmy Hzx Hzy Hlx Hly Hax Hay Hex Hey Hle. cbv zeta.
  destruct (binary_round_aux_loc_rne false mx ex lx Nx Dx Hmx Hlx Hax) as [-> Hbx].
  destruct (binary_round_aux_loc_rne false my ey ly Ny Dy Hmy Hly Hay) as [-> Hby].
  assert (HNx : mx * Dx <= Nx < (mx + 1) * Dx).
  { destruct Hlx as (_ & _ & H & _). destruct lx as [|[]]; exact H. }
  assert (HNy : my * Dy <= Ny < (my + 1) * Dy).
  { destruct Hly as (_ & _ & H & _). destruct ly as [|[]]; exact H. }
  assert (HDx : 0 < Dx) by (destruct Hlx as (_ & H & _); exact H).
  assert (HDy : 0 < Dy) by (destruct Hly as (_ & H & _); exact H).
  pose proof (Zdigits2_nonneg mx) as Hdx0. pose proof (Zdigits2_nonneg my) as Hdy0.
  set (e1 := fexp prec emax (Zdigits2 mx + ex)) in *.
  set (e2 := fexp prec emax (Zdigits2 my + ey)) in *.
  assert (He1 : e1 = Z.max (Zdigits2 mx + ex - 53) (-1074)) by (subst e1; apply fexp_eq).
  assert (He2 : e2 = Z.max (Zdigits2 my + ey - 53) (-1074)) by (subst e2; apply fexp_eq).
  assert (He12 : e1 <= e2).
  { destruct (Z.eq_dec mx 0) as [->|Hn0].
    - cbn [Zdigits2] in He1. lia.
    - pose proof (located_exponent_mono mx ex Nx Dx my ey Ny Dy ltac:(lia) Hmy HDx HDy
                    ltac:(lia) ltac:(lia) Hex Hey Hle). lia. }
  set (S1 := 2 ^ (e1 - ex) * Dx) in *. set (S2 := 2 ^ (e2 - ey) * Dy) in *.
  assert (HP1 : 0 < 2 ^ (e1 - ex)) by (apply pow2_gt0; lia).
  assert (HP2 : 0 < 2 ^ (e2 - ey)) by (apply pow2_gt0; lia).
  assert (HS1 : 0 < S1) by (subst S1; lia).
  assert (HS2 : 0 < S2) by (subst S2; lia).
  set (m1 := rne Nx S1) in *. set (m2 := rne Ny S2) in *.
  destruct (finish_cases m2 e2 Hby ltac:(lia)) as [(Hi2 & _)|(F2 & V2 & O2)];
    [left; exact Hi2 | right].
  destruct (Z.eq_dec e1 e2) as [E|Hne].
  - assert (Hm : m1 <= m2).
    { subst m1 m2.
      rewrite <- (rne_scale Nx S1 S2) by trivial.
      rewrite <- (rne_scale Ny S2 S1) by trivial.
      rewrite (Z.mul_comm S1 S2).
      apply rne_mono; [lia|].
      set (T := 2 ^ (e2 + 2200)).
      assert (HT : 0 < T) by (apply pow2_gt0; lia).
      assert (HT1 : 2 ^ (e1 - ex) * 2 ^ (ex + 2200) = T).
      { rewrite <- Z.pow_add_r by lia. subst T. f_equal. lia. }
      assert (HT2 : 2 ^ (e2 - ey) * 2 ^ (ey + 2200) = T).
      { rewrite <- Z.pow_add_r by lia. subst T. f_equal. lia. }
      apply (Z.mul_le_mono_pos_r _ _ T); trivial.
      unfold mval in Hle. subst S1 S2.
      replace (2 ^ (e2 - ey) * Dy * Nx * T)
        with (2 ^ (e2 - ey) * 2 ^ (e1 - ex) * (Nx * 2 ^ (ex + 2200) * Dy))
        by (rewrite <- HT1; ring).
      replace (2 ^ (e1 - ex) * Dx * Ny * T)
        with (2 ^ (e2 - ey) * 2 ^ (e1 - ex) * (Ny * 2 ^ (ey + 2200) * Dx))
        by (rewrite <- HT2; ring).
      apply Z.mul_le_mono_nonneg_l; lia. }
    destruct (finish_cases m1 e1 Hbx ltac:(lia)) as [(_ & P1 & O1)|(F1 & V1 & _)].
    + exfalso. lia.
    + split; [exact F1|]. split; [exact F2|]. rewrite V1, V2, E.
      apply mval_le_mantissa; lia.
  - assert (Hmy' : 0 < my).
    { destruct (Z.eq_dec my 0) as [E0|]; [|lia]. exfalso.
      rewrite E0 in He2. cbn [Zdigits2] in He2. lia. }
    assert (Hn2 : e2 = Zdigits2 my + ey - 53) by lia.
    assert (Hm2 : 2 ^ 52 <= m2).
    { subst m2. pose proof (rne_bounds Ny S2 HS2) as [Hlo _].
      apply Z.le_trans with (Ny / S2); trivial.
      apply Z.div_le_lower_bound; trivial.
      pose proof (Zdigits2_lower my Hmy') as Hd.
      apply Z.le_trans with (my * Dy); [|lia].
      subst S2. rewrite (Z.mul_comm (2 ^ (e2 - ey) * Dy)), Z.mul_assoc.
      apply Z.mul_le_mono_nonneg_r; [lia|].
      apply Z.le_trans with (2 ^ (Zdigits2 my - 1)); trivial.
      rewrite <- Z.pow_add_r by lia. apply Z.pow_le_mono_r; lia. }
    destruct (finish_cases m1 e1 Hbx ltac:(lia)) as [(_ & P1 & O1)|(F1 & V1 & _)].
    + exfalso. lia.
    + split; [exact F1|]. split; [exact F2|]. rewrite V1, V2.
      apply Z.le_trans with (mval (2 ^ 53) e1); [apply mval_le_mantissa; lia|].
      apply Z.le_trans with (mval (2 ^ 52) e2); [|apply mval_le_mantissa; lia].
      unfold mval. rewrite <- !Z.pow_add_r by lia. apply Z.pow_le_mono_r; lia.
Qed.

Local Close Scope Z_scope.

(** ** The quotient grows with the numerator *)

Local Open Scope Z_scope.

(** The division of two positive numbers hands the rounding a located
    quotient. *)
Lemma SFdiv_located mx ex mL eL :
  valid_binary (S754_finite false mx ex) = true ->
  valid_binary (S754_finite false mL eL) = true ->
  exists q e' l N,
    SF64div (S754_finite false mx ex) (S754_finite false mL eL)
    = binary_round_aux prec emax false q e' l /\
    0 <= q /\ (0 < q \/ e' <= -1074) /\
    locates (shr_record_of_loc q l) N (Zpos mL) /\
    e' <= fexp prec emax (Zdigits2 q + e') /\
    -2200 <= e' /\
    mval N e' * 2 ^ (eL + 2200) = mval (Zpos mx) ex * 2 ^ 2200.
Proof.
  intros Vx Vy. unfold SF64div. cbn [SFdiv xorb].
  rewrite SFdiv_core_spec.
  pose proof (valid_finite _ _ _ Vx) as [Hex Hex'].
  pose proof (valid_finite _ _ _ Vy) as [Hey Hey'].
  set (d1 := Zpos (digits2_pos mx)) in *. set (d2 := Zpos (digits2_pos mL)) in *.
  set (e' := Z.min (fexp prec emax (d1 + ex - (d2 + eL))) (ex - eL)).
  set (s := ex - eL - e').
  assert (Hs : 0 <= s) by (subst s e'; lia).
  set (N := Zpos mx * 2 ^ s).
  pose proof (pow2_gt0 s Hs) as H2s.
  assert (HN : 0 < N) by (subst N; nia).
  set (q := N / Zpos mL). set (r := N mod Zpos mL).
  assert (Hqr : N = q * Zpos mL + r)
    by (subst q r; rewrite Z.mul_comm; apply Z.div_mod; lia).
  assert (Hr : 0 <= r < Zpos mL) by (subst r; apply Z.mod_pos_bound; lia).
  assert (Hq0 : 0 <= q) by (subst q; apply Z.div_pos; lia).
  assert (He'lo : -2200 <= e') by (subst e'; rewrite fexp_eq; lia).
  pose proof (digits2_pos_bounds mx) as [Hlx Hhx].
  pose proof (digits2_pos_bounds mL) as [Hly Hhy].
  fold d1 in Hlx, Hhx. fold d2 in Hly, Hhy.
  assert (Hd1 : 0 < d1) by (subst d1; lia). assert (Hd2 : 0 < d2) by (subst d2; lia).
  assert (Hnormal : -1074 < e' -> 2 ^ 52 <= q).
  { intros Hn.
    assert (Hs' : d2 - d1 + 53 <= s) by (subst s e'; rewrite fexp_eq in *; lia).
    subst q. apply Z.div_le_lower_bound; [lia|].
    apply Z.le_trans with (2 ^ d2 * 2 ^ 52).
    { apply Z.mul_le_mono_nonneg_r; [apply Z.pow_nonneg|]; lia. }
    subst N. rewrite <- Z.pow_add_r by lia.
    apply Z.le_trans with (2 ^ (d1 - 1) * 2 ^ s).
    - rewrite <- Z.pow_add_r by lia. apply Z.pow_le_mono_r; lia.
    - apply Z.mul_le_mono_nonneg_r; lia. }
  exists q, e', (new_location (Zpos mL) r), N.
  split; [reflexivity|]. split; [exact Hq0|]. split.
  { destruct (Z.le_gt_cases e' (-1074)) as [Hsub|Hn]; [right; exact Hsub|].
    left. specialize (Hnormal Hn). lia. }
  split; [rewrite Hqr; apply new_location_locates; lia|]. split.
  { rewrite fexp_eq. destruct (Z.le_gt_cases e' (-1074)) as [Hsub|Hn]; [lia|].
    specialize (Hnormal Hn).
    pose proof (Zdigits2_upper q Hq0) as Hhq.
    pose proof (Zdigits2_nonneg q) as Hdq.
    assert (52 < Zdigits2 q) by (apply pow2_lt_inv; lia).
    lia. }
  split; [exact He'lo|].
  unfold mval. subst N.
  rewrite <- (Z.mul_assoc (Zpos mx) (2 ^ s)), <- (Z.mul_assoc (Zpos mx)),
    <- (Z.mul_assoc (Zpos mx)).
  f_equal. rewrite <- !Z.pow_add_r by lia. f_equal. subst s. lia.
Qed.

Lemma SFdiv_mono mx ex my ey mL eL :
  valid_binary (S754_finite false mx ex) = true ->
  valid_binary (S754_finite false my ey) = true ->
  valid_binary (S754_finite false mL eL) = true ->
  mval (Zpos mx) ex <= mval (Zpos my) ey ->
  let fx := SF64div (S754_finite false mx ex) (S754_finite false mL eL) in
  let fy := SF64div (S754_finite false my ey) (S754_finite false mL eL) in
  fy = S754_infinity false \/
  (sf_finite fx = true /\ sf_finite fy = true /\ zval fx <= zval fy).
Proof.
  intros Vx Vy VL Hle. cbv zeta.
  destruct (SFdiv_located mx ex mL eL Vx VL)
    as (q1 & e1 & l1 & N1 & -> & Hq1 & Hz1 & Hl1 & Ha1 & He1 & Hv1).
  destruct (SFdiv_located my ey mL eL Vy VL)
    as (q2 & e2 & l2 & N2 & -> & Hq2 & Hz2 & Hl2 & Ha2 & He2 & Hv2).
  apply (binary_round_aux_loc_mono q1 e1 l1 N1 (Zpos mL) q2 e2 l2 N2 (Zpos mL)); trivial.
  apply Z.mul_le_mono_nonneg_r; [lia|].
  pose proof (valid_finite _ _ _ VL) as [HeL _].
  apply (Z.mul_le_mono_pos_r _ _ (2 ^ (eL + 2200))); [apply pow2_gt0; lia|].
  rewrite Hv1, Hv2. apply Z.mul_le_mono_nonneg_r; [apply Z.pow_nonneg; lia | exact Hle].
Qed.

Local Close Scope Z_scope.

(** For [0 <= x <= y <= L] with [L] positive, [x / L] is at most [y / L]. *)
Lemma div_mono x y L :
  is_finite x = true -> is_finite y = true -> is_finite L = true ->
  (0 <= fval x <= fval y)%Z -> (fval y <= fval L)%Z -> (0 < fval L)%Z ->
  (fval (x / L) <= fval (y / L))%Z.
Proof.
  intros Fx Fy FL [Hx Hxy] HyL HL.
  destruct (div_unit y L Fy FL ltac:(lia) HL) as [Fqy [Hqy0 _]].
  destruct (Z.eq_dec (fval x) 0) as [Zx|Nx].
  - apply fval_zero_cases in Zx; trivial.
    assert (Hn : is_zero L = false /\ is_nan L = false).
    { revert FL HL. rewrite is_finite_spec, is_zero_spec, is_nan_spec. unfold fval.
      destruct (Prim2SF L); cbn [sf_finite sf_zero zval]; try discriminate;
        intros; try lia; auto. }
    rewrite (is_zero_fval (x / L)); [exact Hqy0|].
    apply zero_div_nonzero; trivial; apply Hn.
  - destruct (fval_pos_spec x Fx ltac:(lia)) as (mx & ex & Ex).
    destruct (fval_pos_spec y Fy ltac:(lia)) as (my & ey & Ey).
    destruct (fval_pos_spec L FL HL) as (mL & eL & EL).
    pose proof (Prim2SF_valid x) as Vx. pose proof (Prim2SF_valid y) as Vy.
    pose proof (Prim2SF_valid L) as VL.
    rewrite Ex in Vx. rewrite Ey in Vy. rewrite EL in VL.
    assert (Hle : (mval (Zpos mx) ex <= mval (Zpos my) ey)%Z).
    { unfold fval in Hxy. rewrite Ex, Ey in Hxy. exact Hxy. }
    destruct (SFdiv_mono mx ex my ey mL eL Vx Vy VL Hle) as [Hi|(_ & _ & H)].
    + rewrite is_finite_spec, div_spec, Ey, EL, Hi in Fqy. discriminate.
    + unfold fval. rewrite !div_spec, Ex, Ey, EL. exact H.
Qed.

(** ** [Interpolate] inside the range *)

(** The last entry of [connections] is the perimeter. *)
Lemma measure_loop_last (p : Polygon) (pointCount : nat) :
  forall todo i connections len,
    length connections = (pointCount + 1)%nat -> (i + todo = pointCount)%nat ->
    get_at connections i = len ->
    get_at (fst (measure_loop p pointCount todo i connections len)) pointCount
    = snd (measure_loop p pointCount todo i connections len).
Proof.
  induction todo as [|todo IH]; intros i connections len Hlen Hi Hget.
  - cbn [measure_loop fst snd]. replace pointCount with i by lia. exact Hget.
  - cbn [measure_loop]. apply IH.
    + now rewrite set_at_length.
    + lia.
    + rewrite get_set_same by lia. rewrite Hget. apply add_comm.
Qed.

(** The second loop stops at the first index whose share exceeds the
    target. *)
Lemma search_loop_first_hit (p : Polygon) (pointCount : nat) connections len target :
  forall todo i,
    (0 < todo)%nat ->
    (target <? get_at connections (i + todo - 1) / len) = true ->
    exists i0, (i <= i0 < i + todo)%nat /\
      (forall j, (i <= j < i0)%nat -> (target <? get_at connections j / len) = false) /\
      (target <? get_at connections i0 / len) = true /\
      search_loop p pointCount todo i connections len target
      = Some (Add (at_ p (i0 - 1))
                  (Scale (Add (at_ p (i0 mod pointCount)) (Scale (at_ p (i0 - 1)) (-1)))
                         ((target - get_at connections (i0 - 1) / len)
                          / (get_at connections i0 / len
                             - get_at connections (i0 - 1) / len)))).
Proof.
  induction todo as [|todo IH]; intros i Ht Hlast; [lia|].
  cbn [search_loop].
  destruct (target <? get_at connections i / len) eqn:E.
  - exists i. split; [lia|]. split; [intros j Hj; lia|]. split; [exact E|reflexivity].
  - destruct todo as [|todo'].
    + replace (i + 1 - 1)%nat with i in Hlast by lia. congruence.
    + destruct (IH (i + 1)%nat ltac:(lia)) as (i0 & Hi0 & Hbefore & Hhit & Hres).
      { replace (i + 1 + S todo' - 1)%nat with (i + S (S todo') - 1)%nat by lia.
        exact Hlast. }
      exists i0. split; [lia|]. split; [|split; trivial].
      intros j Hj. destruct (Nat.eq_dec j i) as [->|Hne]; [exact E|].
      apply Hbefore. lia.
Qed.

(** Inside the range the second loop stops at an edge, with a parameter
    between 0 and 1. *)
Lemma Interpolate_first_hit (p : Polygon) (v : float) :
  is_finite (perimeter p) = true -> is_zero (perimeter p) = false ->
  (v <? 1) = true ->
  let t := Min 1 (Max 0 v) in
  exists i,
    (1 <= i <= length p)%nat /\
    (t <? share p i) = true /\
    (forall j, (1 <= j < i)%nat -> (t <? share p j) = false) /\
    (forall j, is_finite (share p j) = true /\ (0 <= fval (share p j) <= fval 1)%Z) /\
    (fval (share p (i - 1)) <= fval t < fval (share p i))%Z /\
    is_finite (edge_parameter p i t) = true /\
    (0 <= fval (edge_parameter p i t) <= fval 1)%Z /\
    Interpolate p v = edge_point p i (edge_parameter p i t).
Proof.
  intros Hf Hz Hv t.
  destruct (clamp_below_one v Hv) as [Ft [Ht0 Ht1]]. fold t in Ft, Ht0, Ht1.
  assert (Hn : (0 < length p)%nat).
  { destruct p; [discriminate Hz | cbn [length]; lia]. }
  pose proof (measure_loop_bounded p (length p) (length p) 0
                (repeat 0 (length p + 1)) 0 eq_refl (repeat_length _ _) eq_refl
                (get_at_repeat_zero _ _)) as Hb.
  pose proof (measure_loop_last p (length p) (length p) 0
                (repeat 0 (length p + 1)) 0 (repeat_length _ _) eq_refl
                (get_at_repeat_zero _ _)) as Hlast.
  pose proof (measure_loop_low p (length p) (length p) 0
                (repeat 0 (length p + 1)) 0 0 (le_n 0)) as Hc0.
  rewrite get_at_repeat_zero in Hc0.
  unfold edge_parameter, share, cumulative, edge_point, Interpolate. fold t.
  unfold perimeter in *.
  destruct (measure_loop p (length p) (length p) 0 (repeat 0 (length p + 1)) 0)
    as [connections len] eqn:E.
  cbn [fst snd] in *.
  assert (Hall : forall j, is_finite (get_at connections j) = true /\
                           (0 <= fval (get_at connections j) <= fval len)%Z).
  { intros j. apply Hb; trivial.
    - intros k. rewrite get_at_repeat_zero. reflexivity.
    - intros _ k. rewrite get_at_repeat_zero. split; [reflexivity|].
      vm_compute. discriminate. }
  assert (HL : (0 < fval len)%Z).
  { destruct (Hall 0%nat) as [_ [H0 H1]].
    destruct (Z.eq_dec (fval len) 0) as [E0|]; [|lia].
    rewrite (fval_zero_cases len Hf E0) in Hz. discriminate. }
  assert (Hsh : forall j, is_finite (get_at connections j / len) = true /\
                          (0 <= fval (get_at connections j / len) <= fval 1)%Z).
  { intros j. destruct (Hall j) as [Fj Bj]. apply div_unit; trivial. }
  assert (Hhit : (t <? get_at connections (1 + length p - 1) / len) = true).
  { replace (1 + length p - 1)%nat with (length p) by lia.
    rewrite Hlast, (div_self len Hf HL).
    rewrite ltb_fval by trivial. apply Z.ltb_lt. lia. }
  destruct (search_loop_first_hit p (length p) connections len t (length p) 1 Hn Hhit)
    as (i & Hi & Hbefore & Hi_hit & Hres).
  exists i. split; [lia|]. split; [exact Hi_hit|]. split; [exact Hbefore|].
  split; [exact Hsh|].
  set (a := get_at connections (i - 1) / len) in *.
  set (b := get_at connections i / len) in *.
  destruct (Hsh (i - 1)%nat) as [Fa [Ha0 Ha1]]. fold a in Fa, Ha0, Ha1.
  destruct (Hsh i) as [Fb [Hb0 Hb1]]. fold b in Fb, Hb0, Hb1.
  assert (Htb : (fval t < fval b)%Z).
  { rewrite ltb_fval in Hi_hit by trivial. now apply Z.ltb_lt. }
  assert (Hat : (fval a <= fval t)%Z).
  { destruct (Nat.eq_dec i 1) as [->|Hne].
    - unfold a. change (1 - 1)%nat with 0%nat. rewrite Hc0.
      rewrite (is_zero_fval (0 / len)); [lia|].
      apply zero_div_nonzero; trivial.
      revert Hf. rewrite is_finite_spec, is_nan_spec.
      destruct (Prim2SF len); try discriminate; reflexivity.
    - specialize (Hbefore (i - 1)%nat ltac:(lia)). fold a in Hbefore.
      rewrite ltb_fval in Hbefore by trivial. now apply Z.ltb_ge. }
  destruct (sub_mono a t b Fa Ft Fb ltac:(lia) ltac:(lia)) as (Fn & Fd & Hn0 & Hnd).
  assert (Hden : (0 < fval (b - a))%Z).
  { pose proof (sub_pos b a Fb Fa ltac:(lia)) as Hp.
    rewrite ltb_fval in Hp by trivial. apply Z.ltb_lt in Hp.
    change (fval 0) with 0%Z in Hp. exact Hp. }
  destruct (div_unit (t - a) (b - a) Fn Fd ltac:(lia) Hden) as [Fk [Hk0 Hk1]].
  split; [lia|]. split; [exact Fk|]. split; [lia|].
  rewrite Hres. reflexivity.
Qed.

(** X18.  Inside the range, [Interpolate] returns a point of an edge.  For
    every polygon with a finite, non-zero perimeter and every argument
    below 1 (clamped to [t]), the second loop stops at the first index [i]
    whose share [connections[i] / length] of the perimeter exceeds [t], and
    the result is [p[i-1] + (p[i % n] - p[i-1]) * k] with a parameter [k]
    between 0 and 1: the call does not fall through to the origin. *)
Theorem X18_interpolate_returns_a_point_of_an_edge (p : Polygon) (v : float) :
  is_finite (perimeter p) = true -> is_zero (perimeter p) = false ->
  (v <? 1) = true ->
  let t := Min 1 (Max 0 v) in
  exists i,
    (1 <= i <= length p)%nat /\
    (t <? share p i) = true /\
    (forall j, (1 <= j < i)%nat -> (t <? share p j) = false) /\
    let k := (t - share p (i - 1)) / (share p i - share p (i - 1)) in
    (0 <=? k) = true /\ (k <=? 1) = true /\
    Interpolate p v = edge_point p i k.
Proof.
  intros Hf Hz Hv t.
  destruct (Interpolate_first_hit p v Hf Hz Hv)
    as (i & Hi & Hhit & Hbefore & _ & _ & Fk & [Hk0 Hk1] & Hres).
  fold t in Hhit, Hbefore, Fk, Hk0, Hk1, Hres.
  exists i. split; [exact Hi|]. split; [exact Hhit|]. split; [exact Hbefore|].
  cbv zeta. fold (edge_parameter p i t).
  split; [|split; [|exact Hres]].
  - rewrite leb_fval by trivial. apply Z.leb_le. change (fval 0) with 0%Z. exact Hk0.
  - rewrite leb_fval by trivial. apply Z.leb_le. exact Hk1.
Qed.

Lemma X18_interpolate_returns_a_point_of_an_edge_witness :
  let p := [mkVector 1 1; mkVector 4 1; mkVector 4 5] in
  (exists i, (1 <= i <= 3)%nat /\
     (0x1p-3 <? share p i) = true /\
     (forall j, (1 <= j < i)%nat -> (0x1p-3 <? share p j) = false) /\
     (0 <=? (0x1p-3 - share p (i - 1)) / (share p i - share p (i - 1))) = true /\
     ((0x1p-3 - share p (i - 1)) / (share p i - share p (i - 1)) <=? 1) = true /\
     Interpolate p 0x1p-3
     = edge_point p i ((0x1p-3 - share p (i - 1)) / (share p i - share p (i - 1)))) /\
  Interpolate p 0x1p-3 = edge_point p 1 0x1p-1 /\
  Interpolate p 0x1p-3 = mkVector 0x1.4p+1 1.
Proof.
  intros p. split.
  - exact (X18_interpolate_returns_a_point_of_an_edge p 0x1p-3 eq_refl eq_refl eq_refl).
  - split; reflexivity.
Defined.

(** X20.  [Interpolate] advances with its argument.  For arguments
    [v1 <= v2] below 1 on a polygon with a finite, non-zero perimeter, the
    edge index of [v1] is at most the edge index of [v2], and when both
    fall on the same edge the parameter of [v1] on it is at most the
    parameter of [v2]. *)
Theorem X20_interpolate_advances_with_its_argument (p : Polygon) (v1 v2 : float) :
  is_finite (perimeter p) = true -> is_zero (perimeter p) = false ->
  (v1 <=? v2) = true -> (v1 <? 1) = true -> (v2 <? 1) = true ->
  let t1 := Min 1 (Max 0 v1) in
  let t2 := Min 1 (Max 0 v2) in
  exists i1 i2,
    (1 <= i1 <= i2)%nat /\ (i2 <= length p)%nat /\
    Interpolate p v1 = edge_point p i1 (edge_parameter p i1 t1) /\
    Interpolate p v2 = edge_point p i2 (edge_parameter p i2 t2) /\
    (i1 = i2 -> (edge_parameter p i1 t1 <=? edge_parameter p i2 t2) = true).
Proof.
  intros Hf Hz H12 H1 H2 t1 t2.
  pose proof (clamp_mono v1 v2 H12 H1 H2) as Ht. fold t1 t2 in Ht.
  destruct (clamp_below_one v1 H1) as [Ft1 _]. fold t1 in Ft1.
  destruct (clamp_below_one v2 H2) as [Ft2 _]. fold t2 in Ft2.
  destruct (Interpolate_first_hit p v1 Hf Hz H1)
    as (i1 & Hi1 & Hhit1 & Hbefore1 & Hsh & [Ha1 Hb1] & Fk1 & Hk1 & Hres1).
  destruct (Interpolate_first_hit p v2 Hf Hz H2)
    as (i2 & Hi2 & Hhit2 & Hbefore2 & _ & [Ha2 Hb2] & Fk2 & Hk2 & Hres2).
  fold t1 in Hhit1, Hbefore1, Ha1, Hb1, Fk1, Hk1, Hres1.
  fold t2 in Hhit2, Hbefore2, Ha2, Hb2, Fk2, Hk2, Hres2.
  assert (Hle : (i1 <= i2)%nat).
  { destruct (Nat.le_gt_cases i1 i2) as [|Hgt]; trivial. exfalso.
    specialize (Hbefore1 i2 ltac:(lia)).
    destruct (Hsh i2) as [F2 _].
    rewrite ltb_fval in Hbefore1 by trivial. apply Z.ltb_ge in Hbefore1. lia. }
  exists i1, i2. split; [lia|]. split; [lia|]. split; [exact Hres1|].
  split; [exact Hres2|].
  intros <-. rewrite leb_fval by trivial. apply Z.leb_le.
  unfold edge_parameter in *.
  destruct (Hsh (i1 - 1)%nat) as [Fa [Ha0 _]]. destruct (Hsh i1) as [Fb _].
  set (a := share p (i1 - 1)) in *. set (b := share p i1) in *.
  destruct (sub_mono a t1 t2 Fa Ft1 Ft2 ltac:(lia) Ht) as (Fn1 & Fn2 & Hn0 & Hn12).
  destruct (sub_mono a t2 b Fa Ft2 Fb ltac:(lia) ltac:(lia)) as (_ & Fd & _ & Hnd).
  assert (Hden : (0 < fval (b - a))%Z).
  { pose proof (sub_pos b a Fb Fa ltac:(lia)) as Hp.
    rewrite ltb_fval in Hp by trivial. apply Z.ltb_lt in Hp.
    change (fval 0) with 0%Z in Hp. exact Hp. }
  apply div_mono; trivial; lia.
Qed.

Lemma X20_interpolate_advances_with_its_argument_witness :
  let p := [mkVector 1 1; mkVector 4 1; mkVector 4 5] in
  (exists i1 i2,
     (1 <= i1 <= i2)%nat /\ (i2 <= 3)%nat /\
     Interpolate p 0x1p-3 = edge_point p i1 (edge_parameter p i1 0x1p-3) /\
     Interpolate p 0x1p-1 = edge_point p i2 (edge_parameter p i2 0x1p-1) /\
     (i1 = i2 ->
      (edge_parameter p i1 0x1p-3 <=? edge_parameter p i2 0x1p-1) = true)) /\
  Interpolate p 0x1p-3 = edge_point p 1 (edge_parameter p 1 0x1p-3) /\
  Interpolate p 0x1p-1 = edge_point p 2 (edge_parameter p 2 0x1p-1).
Proof.
  intros p. split.
  - exact (X20_interpolate_advances_with_its_argument p 0x1p-3 0x1p-1
             eq_refl eq_refl eq_refl eq_refl eq_refl).
  - split; reflexivity.
Defined.

(** ** The rectangle of the random path, for every rectangle *)

Local Open Scope Z_scope.

(** The sum grows with a term: for positive numbers [a <= b], [a + c]
    rounds to at most what [b + c] rounds to. *)
Lemma SFadd_mono ma ea mb eb mc ec :
  valid_binary (S754_finite false ma ea) = true ->
  valid_binary (S754_finite false mb eb) = true ->
  valid_binary (S754_finite false mc ec) = true ->
  mval (Zpos ma) ea <= mval (Zpos mb) eb ->
  let fa := SF64add (S754_finite false ma ea) (S754_finite false mc ec) in
  let fb := SF64add (S754_finite false mb eb) (S754_finite false mc ec) in
  fb = S754_infinity false \/
  (sf_finite fa = true /\ sf_finite fb = true /\ zval fa <= zval fb).
Proof.
  intros Va Vb Vc Hab. cbv zeta. rewrite !SFadd_finite_pos.
  pose proof (valid_finite _ _ _ Va) as [Hea _].
  pose proof (valid_finite _ _ _ Vb) as [Heb _].
  pose proof (valid_finite _ _ _ Vc) as [Hec _].
  destruct (aligned_sum ma ea mc ec ltac:(lia) ltac:(lia)) as [Hs1 _].
  destruct (aligned_sum mb eb mc ec ltac:(lia) ltac:(lia)) as [Hs2 _].
  cbv zeta in Hs1, Hs2. rewrite <- Pos2Z.inj_add in Hs1, Hs2.
  apply binary_round_mono; lia.
Qed.

Local Close Scope Z_scope.

Lemma add_zero_fval x c :
  is_zero c = true -> is_finite x = true ->
  is_finite (x + c) = true /\ fval (x + c) = fval x.
Proof.
  unfold fval. rewrite !is_finite_spec, is_zero_spec, add_spec. unfold SF64add, SFadd.
  destruct (Prim2SF c) as [sc|sc| |sc mc ec]; cbn [sf_zero]; try discriminate.
  destruct (Prim2SF x) as [sx|sx| |sx mx ex]; cbn [sf_finite]; try discriminate;
    intros _ _; [destruct sx, sc|]; split; reflexivity.
Qed.

(** For [0 <= a <= b] and [0 <= c], when [b + c] is finite so is [a + c],
    and it is no larger. *)
Lemma add_mono a b c :
  is_finite a = true -> is_finite b = true -> is_finite c = true ->
  (0 <= fval a <= fval b)%Z -> (0 <= fval c)%Z ->
  is_finite (b + c) = true ->
  is_finite (a + c) = true /\ (fval (a + c) <= fval (b + c))%Z.
Proof.
  intros Fa Fb Fc [Ha Hab] Hc Fbc.
  destruct (Z.eq_dec (fval c) 0) as [Zc|Nc].
  - apply fval_zero_cases in Zc; trivial.
    destruct (add_zero_fval a c Zc Fa) as [F1 E1].
    destruct (add_zero_fval b c Zc Fb) as [F2 E2].
    rewrite E1, E2. split; trivial.
  - destruct (Z.eq_dec (fval a) 0) as [Za|Na].
    + apply fval_zero_cases in Za; trivial.
      destruct (add_zero_fval c a Za Fc) as [F1 E1].
      rewrite (add_comm a c), E1. split; [exact F1|].
      pose proof (add_nonneg_lb b c c Fb Fc Fc ltac:(lia) Hc ltac:(lia)) as Hl.
      rewrite leb_fval in Hl by trivial. now apply Z.leb_le.
    + destruct (fval_pos_spec a Fa ltac:(lia)) as (ma & ea & Ea).
      destruct (fval_pos_spec b Fb ltac:(lia)) as (mb & eb & Eb).
      destruct (fval_pos_spec c Fc ltac:(lia)) as (mc & ec & Ec).
      pose proof (Prim2SF_valid a) as Va. pose proof (Prim2SF_valid b) as Vb.
      pose proof (Prim2SF_valid c) as Vc.
      rewrite Ea in Va. rewrite Eb in Vb. rewrite Ec in Vc.
      assert (Hle : (mval (Zpos ma) ea <= mval (Zpos mb) eb)%Z).
      { unfold fval in Hab. rewrite Ea, Eb in Hab. exact Hab. }
      destruct (SFadd_mono ma ea mb eb mc ec Va Vb Vc Hle) as [Hi|(F1 & _ & H)].
      * rewrite is_finite_spec, add_spec, Eb, Ec, Hi in Fbc. discriminate.
      * rewrite is_finite_spec. unfold fval. rewrite !add_spec, Ea, Eb, Ec.
        split; [exact F1 | exact H].
Qed.

Lemma leb_nonneg_fval x : (0 <=? x) = true -> is_finite x = true -> (0 <= fval x)%Z.
Proof.
  intros H F. rewrite leb_fval in H by trivial. now apply Z.leb_le in H.
Qed.

(** A draw of [0, 1), scaled by a size and shifted by a corner, stays
    between the corner and the computed sum of size and corner. *)
Lemma scaled_draw_in_range r width x :
  (0 <=? r) = true -> (r <? 1) = true ->
  is_finite width = true -> is_finite x = true ->
  (0 <=? width) = true -> (0 <=? x) = true -> is_finite (width + x) = true ->
  (x <=? r * width + x) = true /\ (r * width + x <=? width + x) = true.
Proof.
  intros H0 H1 Fw Fx Pw Px Fs.
  pose proof (leb_nonneg_fval _ Pw Fw) as Nw. pose proof (leb_nonneg_fval _ Px Fx) as Nx.
  destruct (unit_interval_fval r H0 H1) as [Fr [Nr Hr]].
  destruct (mul_nonneg_ub r width width Fr Fw Fw Nr Nw) as [Ft [Nt Ht]].
  { rewrite (Z.mul_comm (fval width)).
    apply Z.mul_le_mono_nonneg_r; [exact Nw | apply Z.lt_le_incl; exact Hr]. }
  split.
  - apply add_nonneg_lb; trivial. lia.
  - destruct (add_mono (r * width) width x Ft Fw Fx ltac:(lia) Nx Fs) as [F1 Hle].
    rewrite leb_fval by trivial. now apply Z.leb_le.
Qed.

Section PathBox.
Context `{RandSource}.

(** X19.  For every corner and size that are finite and not negative and
    whose sums [width + x] and [height + y] are finite, and draws in
    [0, 1), every vertex of the random path lies in the closed rectangle:
    [x <= X <= width + x] and [y <= Y <= height + y], the bounds being the
    sums as float64 computes them. *)
Theorem X19_random_path_stays_in_its_rectangle
    (now c : Z) (x y width height : float) (p : Polygon) :
  unit_draws ->
  is_finite x = true -> is_finite y = true ->
  is_finite width = true -> is_finite height = true ->
  (0 <=? x) = true -> (0 <=? y) = true ->
  (0 <=? width) = true -> (0 <=? height) = true ->
  is_finite (width + x) = true -> is_finite (height + y) = true ->
  generateRandomPath now c x y width height = Returns p ->
  Forall (fun v => in_closed_box x y width height v = true) p.
Proof.
  intros Hu Fx Fy Fw Fh Px Py Pw Ph Fsx Fsy Hp.
  unfold generateRandomPath in Hp.
  destruct (c <? 0)%Z; [discriminate|]. injection Hp as <-.
  unfold NewPolygon. apply fill_vertices_Forall; trivial.
  intros rx ry Hx0 Hx1 Hy0 Hy1. unfold in_closed_box. cbn [X Y].
  destruct (scaled_draw_in_range rx width x Hx0 Hx1 Fw Fx Pw Px Fsx) as [-> ->].
  destruct (scaled_draw_in_range ry height y Hy0 Hy1 Fh Fy Ph Py Fsy) as [-> ->].
  reflexivity.
Qed.

End PathBox.

Lemma X19_random_path_stays_in_its_rectangle_witness :
  exists p, @generateRandomPath tableRand 0 2 7 0 0x1p+40 3 = Returns p /\
            Forall (fun v => in_closed_box 7 0 0x1p+40 3 v = true) p.
Proof.
  assert (Hu : @unit_draws tableRand).
  { intros s. unfold tableRand, Float64, table_draw; cbn [fst].
    destruct (s mod 4)%Z as [|[q|[r|r|]|]|q]; split; reflexivity. }
  eexists. split; [reflexivity|].
  apply (@X19_random_path_stays_in_its_rectangle tableRand 0 2 7 0 0x1p+40 3 _ Hu);
    reflexivity.
Defined.
